(** * Lidl knit grid: the image-to-mosaic pipeline

    A shallow embedding of the colour math ([palette.ts]), the edge detector
    ([mapping.ts]), the glyph drawing functions ([glyphs.ts]) and the frame
    renderer ([render.ts]), with the properties of the specification proved
    or refuted on it.

    Numbers.  A JavaScript [number] is modelled by [num]: either a real
    number (a finite double, read as the real it denotes, with exact
    arithmetic) or [NaN].  [NaN] arises where the code reads outside an
    array ([undefined] used in arithmetic) or is handed [NaN]; it propagates
    through arithmetic, [Math.min] and [Math.max], and every comparison with
    it is false.  Rounding, overflow and the infinities are outside the
    model; the literal [Infinity] that seeds [minDist] is modelled where it
    is used.  Properties that depend on exact values are stated
    where rounding does not change them: on integer sizes, on bounded
    ranges, or up to [roundingMargin].  Canvas geometry (sizes, cell centres) and the parameters of a
    frame are finite and use [R] directly. *)

From Stdlib Require Import Reals Lra Lia ZArith List Bool.
Import ListNotations.

#[local] Open Scope R_scope.

(** ** JavaScript numbers *)

Module JS.

Inductive num : Type :=
| NaN : num
| Fin : R -> num.

Definition Rltb (x y : R) : bool := if Rlt_dec x y then true else false.
Definition Rleb (x y : R) : bool := if Rle_dec x y then true else false.
Definition Reqb (x y : R) : bool := if Req_dec_T x y then true else false.

Definition lift1 (f : R -> R) (a : num) : num :=
  match a with
  | Fin x => Fin (f x)
  | NaN => NaN
  end.

Definition lift2 (f : R -> R -> R) (a b : num) : num :=
  match a, b with
  | Fin x, Fin y => Fin (f x y)
  | _, _ => NaN
  end.

Definition cmp (f : R -> R -> bool) (a b : num) : bool :=
  match a, b with
  | Fin x, Fin y => f x y
  | _, _ => false
  end.

Definition add : num -> num -> num := lift2 Rplus.
Definition sub : num -> num -> num := lift2 Rminus.
Definition mul : num -> num -> num := lift2 Rmult.

(** [a / c] for a literal divisor [c], which is never zero in this code. *)
Definition div (a : num) (c : R) : num := lift1 (fun x => x / c) a.

Definition ltb : num -> num -> bool := cmp Rltb.
Definition leb : num -> num -> bool := cmp Rleb.
Definition gtb (a b : num) : bool := ltb b a.
(** [a === b] on numbers. *)
Definition eqb : num -> num -> bool := cmp Reqb.

Definition Math_max : num -> num -> num := lift2 Rmax.
Definition Math_min : num -> num -> num := lift2 Rmin.
Definition Math_abs : num -> num := lift1 Rabs.

(** [Math.sqrt] is [NaN] below zero. *)
Definition Math_sqrt (a : num) : num :=
  match a with
  | Fin x => if Rltb x 0 then NaN else Fin (sqrt x)
  | NaN => NaN
  end.

(** [Math.pow(a, e)] for a literal exponent [e] that is positive and not an
    integer (2.4 in this code): [NaN] for a negative base, 0 at 0. *)
Definition Math_pow (a : num) (e : R) : num :=
  match a with
  | Fin x =>
      if Rltb x 0 then NaN
      else if Reqb x 0 then Fin 0
      else Fin (Rpower x e)
  | NaN => NaN
  end.

(** [Math.floor] and [Math.round] on a finite number.  [Math.round] rounds
    to the nearest integer, a tie towards plus infinity. *)
Definition Rfloor (x : R) : Z := Zfloor x.
Definition Rround (x : R) : Z := Zfloor (x + / 2).

(** [Math.round] on a number: an integer, or [None] for [NaN]. *)
Definition Math_round (a : num) : option Z :=
  match a with
  | Fin x => Some (Rround x)
  | NaN => None
  end.

(** [a[i]]: [undefined] (here [None]) outside the array. *)
Definition get {A : Type} (a : list A) (i : Z) : option A :=
  if (i <? 0)%Z then None else nth_error a (Z.to_nat i).

(** An array element used as a number: [undefined] becomes [NaN]. *)
Definition getNum (a : list R) (i : Z) : num :=
  match get a i with
  | Some v => Fin v
  | None => NaN
  end.

(** [for (let i = 0; i < n; i++)]: the values [i] takes. *)
Definition range (n : Z) : list Z := map Z.of_nat (seq 0 (Z.to_nat n)).

(** The JavaScript remainder [a % b] on integers takes the sign of [a]. *)
Definition rem (a b : Z) : Z := Z.rem a b.

End JS.

Import JS.

Coercion Fin : R >-> num.

Declare Scope num_scope.
Delimit Scope num_scope with num.
Bind Scope num_scope with num.
Infix "+" := add : num_scope.
Infix "-" := sub : num_scope.
Infix "*" := mul : num_scope.
Infix "/" := div : num_scope.
Infix "<?" := ltb : num_scope.
Infix "<=?" := leb : num_scope.
Infix ">?" := gtb (at level 70) : num_scope.
Infix "===" := eqb (at level 70) : num_scope.

(** ** Colour math ([palette.ts]) *)

Module Palette.

(** [type RGB = [number, number, number]] *)
Definition RGB : Type := (num * num * num)%type.

Definition ch0 (c : RGB) : num := fst (fst c).
Definition ch1 (c : RGB) : num := snd (fst c).
Definition ch2 (c : RGB) : num := snd c.

Definition c_blue : RGB := (Fin (0x00 / 255), Fin (0x52 / 255), Fin (0xB0 / 255)).
Definition c_navy : RGB := (Fin (0x01 / 255), Fin (0x24 / 255), Fin (0x64 / 255)).
Definition c_yellow : RGB := (Fin (0xFF / 255), Fin (0xF2 / 255), Fin (0x02 / 255)).

(** [#0052B0], [#012464], [#FFF202] *)
Definition ACTIVE_PALETTE : list RGB := [c_blue; c_navy; c_yellow].

Definition srgbToLinear (c : num) : num :=
  if (c <=? 0.04045)%num then (c / 12.92)%num
  else Math_pow ((c + 0.055) / 1.055)%num 2.4.

Definition toLinear (rgb : RGB) : RGB :=
  (srgbToLinear (ch0 rgb), srgbToLinear (ch1 rgb), srgbToLinear (ch2 rgb)).

Definition colorDistance (a b : RGB) : num :=
  let aLin := toLinear a in
  let bLin := toLinear b in
  let dr := (ch0 aLin - ch0 bLin)%num in
  let dg := (ch1 aLin - ch1 bLin)%num in
  let db := (ch2 aLin - ch2 bLin)%num in
  Math_sqrt (dr * dr + dg * dg + db * db)%num.

(** [dist < minDist], where [minDist] is [Infinity] ([None]) until a finite
    distance has replaced it. *)
Definition belowMin (dist : num) (minDist : option R) : bool :=
  match dist, minDist with
  | Fin d, None => true
  | Fin d, Some m => Rltb d m
  | NaN, _ => false
  end.

(** One round of the loop over the palette; [minDist = dist] stores a
    finite number, since the test has just succeeded. *)
Definition nearestStep (rgb : RGB) (st : option R * RGB) (color : RGB)
  : option R * RGB :=
  let dist := colorDistance rgb color in
  if belowMin dist (fst st)
  then (match dist with Fin d => Some d | NaN => fst st end, color)
  else st.

Definition nearestIn (palette : list RGB) (rgb : RGB) : RGB :=
  snd (fold_left (nearestStep rgb) palette (None, nth 0 palette c_blue)).

Definition nearestBrandColor (rgb : RGB) : RGB := nearestIn ACTIVE_PALETTE rgb.

Definition applyPaletteMix (rgb : RGB) (_mix : num) : RGB :=
  nearestBrandColor rgb.

Definition BAYER_4X4 : list R :=
  [ 0 / 16; 8 / 16; 2 / 16; 10 / 16;
    12 / 16; 4 / 16; 14 / 16; 6 / 16;
    3 / 16; 11 / 16; 1 / 16; 9 / 16;
    15 / 16; 7 / 16; 13 / 16; 5 / 16 ].

(** The index [by * 4 + bx] that [bayer4] reads. *)
Definition bayer4_index (x y : Z) : Z :=
  let bx := rem x 4 in
  let by_ := rem y 4 in
  (by_ * 4 + bx)%Z.

Definition bayer4 (x y : Z) : num := getNum BAYER_4X4 (bayer4_index x y).

Definition clamp01 (v : num) : num := Math_max 0 (Math_min 1 v).

Definition applyDither (rgb : RGB) (amount : num) (x y : Z) : RGB :=
  if (amount <=? 0)%num then rgb
  else
    let threshold := bayer4 x y in
    let ditherValue := ((threshold - 0.5) * amount * 0.1)%num in
    (clamp01 (ch0 rgb + ditherValue), clamp01 (ch1 rgb + ditherValue),
     clamp01 (ch2 rgb + ditherValue)).

Definition applyContrast (rgb : RGB) (contrast : num) : RGB :=
  if (contrast === 1.0)%num then rgb
  else
    (clamp01 ((ch0 rgb - 0.5) * contrast + 0.5),
     clamp01 ((ch1 rgb - 0.5) * contrast + 0.5),
     clamp01 ((ch2 rgb - 0.5) * contrast + 0.5)).

Definition applySaturation (rgb : RGB) (saturation : num) : RGB :=
  if (saturation === 1.0)%num then rgb
  else
    let luma := (0.2126 * ch0 rgb + 0.7152 * ch1 rgb + 0.0722 * ch2 rgb)%num in
    (clamp01 (luma + (ch0 rgb - luma) * saturation),
     clamp01 (luma + (ch1 rgb - luma) * saturation),
     clamp01 (luma + (ch2 rgb - luma) * saturation)).

End Palette.

Import Palette.

(** ** Luminance and the edge detector ([mapping.ts]) *)

Module Mapping.

(** [ImageData]: [data] is the [Uint8ClampedArray] of RGBA bytes, four per
    pixel, row by row. *)
Record ImageData : Type := { data : list Z }.

(** [data[i]] used as a number. *)
Definition byteAt (d : list Z) (i : Z) : num :=
  match get d i with
  | Some v => Fin (IZR v)
  | None => NaN
  end.

Definition luminance (r g b : num) : num :=
  (0.2126 * r + 0.7152 * g + 0.0722 * b)%num.

Definition luminanceFromRGB (rgb : RGB) : num :=
  luminance (ch0 rgb) (ch1 rgb) (ch2 rgb).

Definition sobelX : list R := [ -1; 0; 1; -2; 0; 2; -1; 0; 1 ].
Definition sobelY : list R := [ -1; -2; -1; 0; 0; 0; 1; 2; 1 ].

(** The nine [(ky, kx)] the two inner loops visit, in order. *)
Definition kernelOffsets : list (Z * Z) :=
  flat_map (fun ky => map (fun kx => (ky, kx)) [-1; 0; 1]%Z) [-1; 0; 1]%Z.

(** The body of the inner loops: one tap of the Sobel operator added to
    [(gx, gy)]. *)
Definition sobelTap (d : list Z) (width height x y : Z)
    (g : num * num) (k : Z * Z) : num * num :=
  let '(ky, kx) := k in
  let px := (x + kx)%Z in
  let py := (y + ky)%Z in
  let clampedX := Z.max 0 (Z.min (width - 1) px) in
  let clampedY := Z.max 0 (Z.min (height - 1) py) in
  let idx := ((clampedY * width + clampedX) * 4)%Z in
  let luma :=
    luminance (byteAt d idx / 255) (byteAt d (idx + 1) / 255)
              (byteAt d (idx + 2) / 255) in
  let kernelIdx := ((ky + 1) * 3 + (kx + 1))%Z in
  ((fst g + luma * getNum sobelX kernelIdx)%num,
   (snd g + luma * getNum sobelY kernelIdx)%num).

Definition gradient (d : list Z) (width height x y : Z) : num * num :=
  fold_left (sobelTap d width height x y) kernelOffsets (Fin 0, Fin 0).

Definition edgeAt (d : list Z) (width height x y : Z) : bool :=
  let threshold := 0.15 in
  let '(gx, gy) := gradient d width height x y in
  let magnitude := Math_sqrt (gx * gx + gy * gy)%num in
  (magnitude >? threshold)%num.

Definition detectEdges (imageData : ImageData) (width height : Z)
  : list (list bool) :=
  map (fun y => map (fun x => edgeAt (data imageData) width height x y)
                    (range width))
      (range height).

End Mapping.

(** ** The drawing surface and the glyphs ([glyphs.ts]) *)

Module Glyphs.

(** [type GlyphType = 'diamond' | 'square' | 'circle'] *)
Inductive GlyphType : Type := diamond | square | circle.

(** The calls and assignments the code makes on the
    [CanvasRenderingContext2D], in the order it makes them.  A fill style
    [rgb(r, g, b)] carries the three interpolated numbers. *)
Inductive cmd : Type :=
| SetFillStyle (r g b : option Z)
| SetStrokeStyle (r g b : Z) (a : R)
| SetLineWidth (w : R)
| SetImageSmoothingEnabled (on : bool)
| FillRect (x y w h : R)
| BeginPath
| MoveTo (x y : R)
| LineTo (x y : R)
| ClosePath
| Arc (x y radius startAngle endAngle : R)
| Fill
| Stroke.

Definition drawSquare (cx cy size : R) : list cmd :=
  let half := size * 0.5 in
  let x := IZR (Rround (cx - half)) in
  let y := IZR (Rround (cy - half)) in
  let w := IZR (Rround size) in
  [FillRect x y w w].

Definition drawCircle (cx cy size : R) : list cmd :=
  let radius := size * 0.5 in
  let x := IZR (Rround (cx * 2)) / 2 in
  let y := IZR (Rround (cy * 2)) / 2 in
  [BeginPath; Arc x y radius 0 (PI * 2); Fill].

Definition drawDiamond (cx cy size : R) : list cmd :=
  let half := size * 0.5 in
  let x := IZR (Rround cx) in
  let y := IZR (Rround cy) in
  [BeginPath;
   MoveTo x (y - half);
   LineTo (x + half) y;
   LineTo x (y + half);
   LineTo (x - half) y;
   ClosePath;
   Fill].

Definition drawGlyph (glyph : GlyphType) (cx cy size : R) : list cmd :=
  match glyph with
  | square => drawSquare cx cy size
  | circle => drawCircle cx cy size
  | diamond => drawDiamond cx cy size
  end.

(** Where a glyph has been drawn: the centre of the rectangle filled, the
    centre of the arc, or the mean of the corners of the path filled. *)
Fixpoint pathPoints (cs : list cmd) : list (R * R) :=
  match cs with
  | [] => []
  | MoveTo x y :: cs' => (x, y) :: pathPoints cs'
  | LineTo x y :: cs' => (x, y) :: pathPoints cs'
  | _ :: cs' => pathPoints cs'
  end.

Definition meanPoint (ps : list (R * R)) : R * R :=
  let n := INR (length ps) in
  (fold_right Rplus 0 (map fst ps) / n, fold_right Rplus 0 (map snd ps) / n).

Definition drawnCentre (cs : list cmd) : option (R * R) :=
  match cs with
  | [FillRect x y w h] => Some (x + w / 2, y + h / 2)
  | [BeginPath; Arc x y _ _ _; Fill] => Some (x, y)
  | BeginPath :: MoveTo x y :: cs' =>
      Some (meanPoint (pathPoints (MoveTo x y :: cs')))
  | _ => None
  end.

(** The corner and the side of the rectangle a square glyph fills. *)
Definition drawnRect (cs : list cmd) : option (R * R * R) :=
  match cs with
  | [FillRect x y w _] => Some (x, y, w)
  | _ => None
  end.

Definition isInteger (v : R) : Prop := exists n : Z, v = IZR n.
Definition isHalfInteger (v : R) : Prop := exists n : Z, v = IZR n / 2.

End Glyphs.

Import Mapping Glyphs.

(** ** The frame renderer ([render.ts], with [getPixelFromImageData] of
    [sampler.ts] and [KnitParams] of [types.ts]) *)

Module Render.

Record KnitParams : Type := {
  stitchPx : R;
  paletteMix : R;
  dither : R;
  contrast : R;
  saturation : R;
  edgeCrispness : R;
  showGridLines : bool
}.

Definition getPixelFromImageData (imageData : ImageData) (x y width : Z) : RGB :=
  let index := ((y * width + x) * 4)%Z in
  let d := data imageData in
  ((byteAt d index / 255)%num,
   (byteAt d (index + 1) / 255)%num,
   (byteAt d (index + 2) / 255)%num).

(** [ACTIVE_PALETTE[0]] *)
Definition BACKGROUND_COLOR : RGB := nth 0 ACTIVE_PALETTE c_blue.

Definition colorMatch (c1 c2 : RGB) : bool :=
  let tolerance := 0.01 in
  (Math_abs (ch0 c1 - ch0 c2) <? tolerance)%num &&
  (Math_abs (ch1 c1 - ch1 c2) <? tolerance)%num &&
  (Math_abs (ch2 c1 - ch2 c2) <? tolerance)%num.

(** The key [`${r},${g},${b}`] of a colour, as the three numbers it is made
    of ([None] prints as [NaN]); [split(',').map(Number)] gives them back. *)
Definition Key : Type := (option Z * option Z * option Z)%type.

Definition colorKeyOf (c : RGB) : Key :=
  (Math_round (ch0 c * 255), Math_round (ch1 c * 255), Math_round (ch2 c * 255)).

Definition optZ_eqb (a b : option Z) : bool :=
  match a, b with
  | Some u, Some v => (u =? v)%Z
  | None, None => true
  | _, _ => false
  end.

Definition Key_eqb (k1 k2 : Key) : bool :=
  let '(r1, g1, b1) := k1 in
  let '(r2, g2, b2) := k2 in
  optZ_eqb r1 r2 && optZ_eqb g1 g2 && optZ_eqb b1 b2.

Definition keyNum (k : option Z) : num :=
  match k with
  | Some v => Fin (IZR v)
  | None => NaN
  end.

(** [[r / 255, g / 255, b / 255]] from the parts of a key. *)
Definition keyColor (k : Key) : RGB :=
  let '(r, g, b) := k in
  ((keyNum r / 255)%num, (keyNum g / 255)%num, (keyNum b / 255)%num).

(** [Map<string, number>]: the entries in insertion order. *)
Definition ColorCounts : Type := list (Key * Z).

Fixpoint map_get (m : ColorCounts) (k : Key) : option Z :=
  match m with
  | [] => None
  | (k', v) :: m' => if Key_eqb k k' then Some v else map_get m' k
  end.

(** [set] keeps the place of a key that is present and appends a new one. *)
Fixpoint map_set (m : ColorCounts) (k : Key) (v : Z) : ColorCounts :=
  match m with
  | [] => [(k, v)]
  | (k', v') :: m' =>
      if Key_eqb k k' then (k', v) :: m' else (k', v') :: map_set m' k v
  end.

(** [colorCounts.get(colorKey) || 0] *)
Definition getOrZero (m : ColorCounts) (k : Key) : Z :=
  match map_get m k with
  | Some v => v
  | None => 0%Z
  end.

(** The count of a finished colour: the background is not counted. *)
Definition countColor (colorCounts : ColorCounts) (finalColor : RGB)
  : ColorCounts :=
  let colorKey := colorKeyOf finalColor in
  if negb (colorMatch finalColor BACKGROUND_COLOR)
  then map_set colorCounts colorKey (getOrZero colorCounts colorKey + 1)%Z
  else colorCounts.

(** The colour pipeline of one cell of the first pass. *)
Definition cellColor (sampledData : ImageData) (params : KnitParams)
    (cols x y : Z) : RGB :=
  let rgb := getPixelFromImageData sampledData x y cols in
  let contrasted := applyContrast rgb (contrast params) in
  let saturated := applySaturation contrasted (saturation params) in
  let dithered := applyDither saturated (dither params) x y in
  let finalColor := applyPaletteMix dithered (paletteMix params) in
  nearestBrandColor finalColor.

(** The body of the inner loop of the first pass; [row] is [cellColors[y]],
    filled from index 0 upwards. *)
Definition firstPassCell (sampledData : ImageData) (params : KnitParams)
    (cols y : Z) (st : list RGB * ColorCounts) (x : Z)
  : list RGB * ColorCounts :=
  let '(row, colorCounts) := st in
  let pixelIndex := ((y * cols + x) * 4)%Z in
  let alpha := (byteAt (data sampledData) (pixelIndex + 3) / 255)%num in
  if (alpha <? 0.05)%num then (row ++ [BACKGROUND_COLOR], colorCounts)
  else
    let finalColor := cellColor sampledData params cols x y in
    (row ++ [finalColor], countColor colorCounts finalColor).

Definition firstPassRow (sampledData : ImageData) (params : KnitParams)
    (cols : Z) (st : list (list RGB) * ColorCounts) (y : Z)
  : list (list RGB) * ColorCounts :=
  let '(cellColors, colorCounts) := st in
  let '(row, colorCounts') :=
    fold_left (firstPassCell sampledData params cols y) (range cols)
              ([], colorCounts) in
  (cellColors ++ [row], colorCounts').

(** First pass: [cellColors] and [colorCounts]. *)
Definition firstPass (sampledData : ImageData) (params : KnitParams)
    (cols rows : Z) : list (list RGB) * ColorCounts :=
  fold_left (firstPassRow sampledData params cols) (range rows) ([], []).

Definition prominentStep (st : option RGB * Z) (entry : Key * Z)
  : option RGB * Z :=
  let '(colorKey, count) := entry in
  if (count >? snd st)%Z then (Some (keyColor colorKey), count) else st.

(** [prominentColor] after the loop over [colorCounts.entries()]. *)
Definition findProminent (colorCounts : ColorCounts) : option RGB :=
  fst (fold_left prominentStep colorCounts (None, 0%Z)).

(** [edgeMap[y]?.[x] ?? false] *)
Definition isEdgeAt (edgeMap : list (list bool)) (x y : Z) : bool :=
  match get edgeMap y with
  | Some row =>
      match get row x with
      | Some e => e
      | None => false
      end
  | None => false
  end.

(** [cellColors[y][x]] *)
Definition cellAt (cellColors : list (list RGB)) (x y : Z) : option RGB :=
  match get cellColors y with
  | Some row => get row x
  | None => None
  end.

Definition fillStyleOf (c : RGB) : cmd :=
  SetFillStyle (Math_round (ch0 c * 255)) (Math_round (ch1 c * 255))
               (Math_round (ch2 c * 255)).

(** The glyph of a cell before the edge bias. *)
Definition baseGlyph (prominentColor : option RGB) (finalColor : RGB)
    (x y : Z) : GlyphType :=
  let isProminent :=
    match prominentColor with
    | Some p => colorMatch finalColor p
    | None => false
    end in
  if isProminent then
    let pattern := rem (x + y) 2 in
    if (pattern =? 0)%Z then circle else square
  else diamond.

Section Frame.

(** The image, the sampler that scales it to [cols] by [rows] pixels
    ([sampleImage], a canvas operation), and the values [Math.random()]
    returns, in the order of the calls. *)
Variable Image : Type.
Variable sampleImage : Image -> Z -> Z -> ImageData.
Variable random : nat -> R.

(** The body of the inner loop of the second pass.  The state is the number
    of calls of [Math.random()] so far; the result carries the calls made on
    the context for this cell.  Every cell has its colour from the first
    pass, so [cellColors[y][x]] is defined. *)
Definition secondPassCell (params : KnitParams) (cellColors : list (list RGB))
    (edgeMap : list (list bool)) (prominentColor : option RGB)
    (cellWidth cellHeight glyphSize : R) (x y : Z) (n : nat)
  : list cmd * nat :=
  match cellAt cellColors x y with
  | None => ([], n)
  | Some finalColor =>
      if colorMatch finalColor BACKGROUND_COLOR then ([], n)
      else
        let isEdge := isEdgeAt edgeMap x y in
        let glyph := baseGlyph prominentColor finalColor x y in
        let '(glyph, n) :=
          if isEdge && Rltb 0 (edgeCrispness params) then
            let bias := edgeCrispness params in
            if Rltb (random n) (bias * 0.3) then (diamond, S n)
            else (glyph, S n)
          else (glyph, n) in
        let cx := (IZR x + 0.5) * cellWidth in
        let cy := (IZR y + 0.5) * cellHeight in
        (fillStyleOf finalColor :: drawGlyph glyph cx cy glyphSize, n)
  end.

(** Both loops of the second pass over a list of cells, row by row. *)
Definition secondPassCells (params : KnitParams) (cellColors : list (list RGB))
    (edgeMap : list (list bool)) (prominentColor : option RGB)
    (cellWidth cellHeight glyphSize : R) (cells : list (Z * Z))
    (st : list cmd * nat) : list cmd * nat :=
  fold_left
    (fun st '(x, y) =>
       let '(out, n) := st in
       let '(cs, n') :=
         secondPassCell params cellColors edgeMap prominentColor
                        cellWidth cellHeight glyphSize x y n in
       (out ++ cs, n'))
    cells st.

(** The cells [(x, y)] in the order of [for y ... for x ...]. *)
Definition cellsOf (cols rows : Z) : list (Z * Z) :=
  flat_map (fun y => map (fun x => (x, y)) (range cols)) (range rows).

Definition gridLines (size cellWidth cellHeight : R) (cols rows : Z)
  : list cmd :=
  [SetStrokeStyle 18 34 91 0.25; SetLineWidth 1] ++
  flat_map (fun y =>
              let py := IZR (Rround (IZR y * cellHeight)) in
              [BeginPath; MoveTo 0 py; LineTo size py; Stroke])
           (range (rows + 1)) ++
  flat_map (fun x =>
              let px := IZR (Rround (IZR x * cellWidth)) in
              [BeginPath; MoveTo px 0; LineTo px size; Stroke])
           (range (cols + 1)).

(** [Math.max(4, Math.min(100, params.stitchPx))] *)
Definition clampStitch (params : KnitParams) : R :=
  Rmax 4 (Rmin 100 (stitchPx params)).

(** [cols] and [rows] *)
Definition gridSize (params : KnitParams) (size : R) : Z * Z :=
  let stitchPx := clampStitch params in
  (Rfloor (size / stitchPx), Rfloor (size / stitchPx)).

Definition fillBackground (size : R) : list cmd :=
  [fillStyleOf BACKGROUND_COLOR; FillRect 0 0 size size].

(** [renderKnitFrame]: the calls made on the context. *)
Definition renderKnitFrame (image : Image) (params : KnitParams) (size : R)
  : list cmd :=
  let '(cols, rows) := gridSize params size in
  if (cols =? 0)%Z || (rows =? 0)%Z then fillBackground size
  else
    let sampledData := sampleImage image cols rows in
    let edgeMap := detectEdges sampledData cols rows in
    let cellWidth := size / IZR cols in
    let cellHeight := size / IZR rows in
    let glyphSize := Rmin cellWidth cellHeight * 0.8 in
    let lines :=
      if showGridLines params
      then gridLines size cellWidth cellHeight cols rows else [] in
    let '(cellColors, colorCounts) := firstPass sampledData params cols rows in
    let prominentColor := findProminent colorCounts in
    let '(glyphs, _) :=
      secondPassCells params cellColors edgeMap prominentColor
                      cellWidth cellHeight glyphSize (cellsOf cols rows)
                      ([], O) in
    fillBackground size ++ [SetImageSmoothingEnabled false] ++ lines ++ glyphs.

End Frame.

End Render.

Import Render.

(** ** The luminance glyph picker ([mapping.ts]) *)

Module GlyphPolicy.

Definition pickGlyph (luma t1 t2 edgeBias : num) (isEdge : bool) : GlyphType :=
  let adjustedLuma :=
    if isEdge && (edgeBias >? 0)%num
    then (luma * (1 - edgeBias * 0.3))%num
    else luma in
  if (adjustedLuma <? t1)%num then diamond
  else if (adjustedLuma >? t2)%num then circle
  else square.

Definition calculateThresholds : num * num := (Fin 0.20, Fin 0.50).

End GlyphPolicy.

(** ** Controls and cropping ([App.tsx], [KnitCanvas.tsx]) *)

Module App.

Definition clamp (value min max : num) : num :=
  Math_max min (Math_min max value).

(** The value the stitch size slider stores:
    [clamp(parseFloat(e.target.value), 8, 50)], for the parsed number. *)
Definition sliderStitchPx (value : num) : num := clamp value 8 50.

(** The centre crop of a bitmap to a square: [x], [y] and [size], as used
    by [loadImage], [processVideoFrames] and [renderVideoFrame]. *)
Definition centerCrop (width height : Z) : R * R * Z :=
  let size := Z.min width height in
  let x := (IZR width - IZR size) / 2 in
  let y := (IZR height - IZR size) / 2 in
  (x, y, size).

(** The canvas size [render] takes from the bounding rectangle of its
    container. *)
Definition canvasSize (rectWidth rectHeight : R) : Z :=
  let containerWidth := Rfloor rectWidth in
  let containerHeight := Rfloor rectHeight in
  Z.min containerWidth containerHeight.

End App.

(** ** sampler.ts: the average of a cell *)

Module Sampler.

(** [for (let i = 0; i < data.length; i += 4)]: the values [i] takes. *)
Definition pixelStarts (d : list Z) : list Z :=
  map (fun k => (4 * k)%Z) (range ((Z.of_nat (length d) + 3) / 4)).

(** The body of the loop: [r += data[i]; g += data[i + 1]; b += data[i + 2]]. *)
Definition sumPixel (d : list Z) (acc : num * num * num) (i : Z)
  : num * num * num :=
  let '(r, g, b) := acc in
  ((r + byteAt d i)%num, (g + byteAt d (i + 1))%num, (b + byteAt d (i + 2))%num).

Section Region.

Variable Image : Type.

(** The bytes [getImageData(0, 0, 2, 2)] returns once [drawImage] has copied
    the 2 by 2 region of the image at [(srcX, srcY)] to the temporary
    canvas. *)
Variable drawRegion : Image -> R -> R -> list Z.

Definition sampleCellAverage (image : Image) (cellX cellY : Z)
    (cellWidth cellHeight : R) : RGB :=
  let srcX := IZR cellX * cellWidth + cellWidth * 0.5 - 1 in
  let srcY := IZR cellY * cellHeight + cellHeight * 0.5 - 1 in
  let d := drawRegion image srcX srcY in
  let pixelCount := 4 in
  let '(r, g, b) := fold_left (sumPixel d) (pixelStarts d) (Fin 0, Fin 0, Fin 0) in
  ((r / pixelCount / 255)%num,
   (g / pixelCount / 255)%num,
   (b / pixelCount / 255)%num).

End Region.

End Sampler.

(** ** Predicates the properties are stated with *)

Module Props.

(** A channel that is a number between 0 and 1. *)
Definition inUnit (v : num) : Prop :=
  match v with
  | Fin x => 0 <= x <= 1
  | NaN => False
  end.

Definition rgbInUnit (c : RGB) : Prop :=
  inUnit (ch0 c) /\ inUnit (ch1 c) /\ inUnit (ch2 c).

(** The pixel data of a [width] by [height] image all of whose pixels carry
    the same four bytes. *)
Definition uniformData (width height : Z) (r g b a : Z) : list Z :=
  concat (repeat [r; g; b; a] (Z.to_nat (width * height))).

(** The luminance of a pixel with the bytes [r], [g], [b]. *)
Definition uniformLuma (r g b : Z) : R :=
  0.2126 * (IZR r / 255) + 0.7152 * (IZR g / 255) + 0.0722 * (IZR b / 255).

(** An edge map with no cell flagged. *)
Definition noEdges (edgeMap : list (list bool)) : Prop :=
  Forall (Forall (fun e => e = false)) edgeMap.

(** The colour the first pass gives the cell [(x, y)]: the background for a
    transparent pixel, the quantized colour otherwise. *)
Definition cellFinal (sampledData : ImageData) (params : KnitParams)
    (cols x y : Z) : RGB :=
  let pixelIndex := ((y * cols + x) * 4)%Z in
  let alpha := (byteAt (data sampledData) (pixelIndex + 3) / 255)%num in
  if (alpha <? 0.05)%num then BACKGROUND_COLOR
  else cellColor sampledData params cols x y.

Definition gridColors (sampledData : ImageData) (params : KnitParams)
    (cols rows : Z) : list (list RGB) :=
  map (fun y => map (fun x => cellFinal sampledData params cols x y) (range cols))
      (range rows).

(** The counts of a sequence of finished cell colours. *)
Definition countCells (cells : list RGB) : ColorCounts :=
  fold_left countColor cells [].

(** Sampled data of one opaque pixel of the palette yellow. *)
Definition yellowPixel : ImageData := {| data := [255; 242; 2; 255]%Z |}.

(** Exact equality of two colours, as a test. *)
Definition num_eqb (a b : num) : bool :=
  match a, b with
  | NaN, NaN => true
  | Fin x, Fin y => Reqb x y
  | _, _ => false
  end.

Definition rgb_eqb (c d : RGB) : bool :=
  num_eqb (ch0 c) (ch0 d) && num_eqb (ch1 c) (ch1 d) && num_eqb (ch2 c) (ch2 d).

(** The number of cells that have the colour [c]. *)
Definition occurrences (c : RGB) (cells : list RGB) : Z :=
  Z.of_nat (length (filter (rgb_eqb c) cells)).

(** In the order of the cells, [a] occurs before any [b] does. *)
Definition firstBefore (a b : RGB) (cells : list RGB) : Prop :=
  exists pre post, cells = pre ++ a :: post /\ ~ In b pre.

(** The keys the first pass counts: those of the cells that are not
    background, in the order of the cells. *)
Definition countedKeys (cells : list RGB) : list Key :=
  map colorKeyOf (filter (fun c => negb (colorMatch c BACKGROUND_COLOR)) cells).

Definition countKey (k : Key) (ks : list Key) : Z :=
  Z.of_nat (length (filter (Key_eqb k) ks)).

(** [colorCounts] after counting the keys [ks] one by one. *)
Definition bump (m : ColorCounts) (k : Key) : ColorCounts :=
  map_set m k (getOrZero m k + 1)%Z.

Definition tally (ks : list Key) : ColorCounts := fold_left bump ks [].

End Props.

Import Props.

Import GlyphPolicy.

Module MoreProps.

(** The value of a channel that is a number. *)
Definition val (v : num) : R :=
  match v with
  | Fin x => x
  | NaN => 0
  end.

Definition isNumber (v : num) : Prop := exists x, v = Fin x.

(** The channel [rgb[i]], for [i] = 0, 1, 2. *)
Definition channel (i : nat) (c : RGB) : num :=
  match i with
  | O => ch0 c
  | S O => ch1 c
  | _ => ch2 c
  end.

(** A colour with a channel that is not a number. *)
Definition hasNaN (c : RGB) : Prop :=
  ch0 c = NaN \/ ch1 c = NaN \/ ch2 c = NaN.

(** The colour of a pixel with the bytes [r], [g], [b]. *)
Definition byteColor (r g b : Z) : RGB :=
  (Fin (IZR r / 255), Fin (IZR g / 255), Fin (IZR b / 255)).

(** From dark to light: diamond, square, circle. *)
Definition glyphRank (g : GlyphType) : nat :=
  match g with
  | diamond => 0
  | square => 1
  | circle => 2
  end.

(** The pixel data of a [width] by [height] image whose pixel at [(x, y)]
    carries the four bytes [pix x y], row by row. *)
Definition rasterData (width height : Z) (pix : Z -> Z -> Z * Z * Z * Z)
  : list Z :=
  flat_map (fun y =>
              flat_map (fun x => let '(r, g, b, a) := pix x y in [r; g; b; a])
                       (range width))
           (range height).

(** The luminance of a pixel. *)
Definition pixelLuma (p : Z * Z * Z * Z) : R :=
  let '(r, g, b, _) := p in uniformLuma r g b.

Definition isSetFillStyle (c : cmd) : bool :=
  match c with
  | SetFillStyle _ _ _ => true
  | _ => false
  end.

Definition isStroke (c : cmd) : bool :=
  match c with
  | Stroke => true
  | _ => false
  end.

(** A call that is not a fill style, or sets the navy or the yellow. *)
Definition glyphColourOnly (c : cmd) : Prop :=
  match c with
  | SetFillStyle r g b =>
      (r, g, b) = (Some 1%Z, Some 36%Z, Some 100%Z) \/
      (r, g, b) = (Some 255%Z, Some 242%Z, Some 2%Z)
  | _ => True
  end.

(** The cells that do not match the background. *)
Definition nonBackground (cells : list RGB) : list RGB :=
  filter (fun c => negb (colorMatch c BACKGROUND_COLOR)) cells.

(** The margin allowed for the rounding of binary64: the few operations of
    a colour transform on values of [0, 2] are off by some 1e-16, which the
    exact arithmetic of the model does not show. *)
Definition roundingMargin : R := 1 / 1000000000000.

End MoreProps.

Import MoreProps App Sampler.

(** * Properties *)

(** ** Comparisons on the reals *)

Lemma Rltb_true x y : x < y -> Rltb x y = true.
Proof. intros H; unfold Rltb; destruct (Rlt_dec x y); [reflexivity | contradiction]. Qed.

Lemma Rltb_false x y : ~ x < y -> Rltb x y = false.
Proof. intros H; unfold Rltb; destruct (Rlt_dec x y); [contradiction | reflexivity]. Qed.

Lemma Rltb_iff x y : Rltb x y = true <-> x < y.
Proof.
  unfold Rltb; destruct (Rlt_dec x y); split; intros; auto; discriminate.
Qed.

Lemma Rleb_true x y : x <= y -> Rleb x y = true.
Proof. intros H; unfold Rleb; destruct (Rle_dec x y); [reflexivity | contradiction]. Qed.

Lemma Rleb_false x y : ~ x <= y -> Rleb x y = false.
Proof. intros H; unfold Rleb; destruct (Rle_dec x y); [contradiction | reflexivity]. Qed.

Lemma Reqb_true x y : x = y -> Reqb x y = true.
Proof. intros H; unfold Reqb; destruct (Req_dec_T x y); [reflexivity | contradiction]. Qed.

Lemma Reqb_false x y : x <> y -> Reqb x y = false.
Proof. intros H; unfold Reqb; destruct (Req_dec_T x y); [contradiction | reflexivity]. Qed.

Lemma Rround_eq (x : R) (z : Z) : IZR z - / 2 <= x < IZR z + / 2 -> Rround x = z.
Proof. intros H; unfold Rround; apply Zfloor_eq; lra. Qed.

Lemma Rround_IZR (z : Z) : Rround (IZR z) = z.
Proof. apply Rround_eq; lra. Qed.

(** ** Bayer matrix *)

Lemma rem4_cases (x : Z) :
  (0 <= x)%Z -> rem x 4 = 0%Z \/ rem x 4 = 1%Z \/ rem x 4 = 2%Z \/ rem x 4 = 3%Z.
Proof.
  intros Hx; unfold rem.
  pose proof (Z.rem_bound_pos x 4 Hx ltac:(lia)); lia.
Qed.

(** The read of [bayer4] at coordinates that are not negative. *)
Lemma bayer4_in_bounds_aux (x y : Z) :
  (0 <= x)%Z -> (0 <= y)%Z ->
  exists v, bayer4 x y = Fin v /\ get BAYER_4X4 (bayer4_index x y) = Some v /\
            (0 <= bayer4_index x y <= 15)%Z /\ 0 <= v <= 15 / 16.
Proof.
  intros Hx Hy. unfold bayer4, getNum, bayer4_index.
  destruct (rem4_cases x Hx) as [Ex | [Ex | [Ex | Ex]]];
  destruct (rem4_cases y Hy) as [Ey | [Ey | [Ey | Ey]]];
  rewrite Ex, Ey; cbn;
  (eexists; split; [reflexivity | split; [reflexivity | split; [lia | lra]]]).
Qed.

(** C10.  For integer coordinates x >= 0 and y >= 0 the index bayer4 reads
    lies between 0 and 15, the read is inside the 16-entry matrix, and the
    value returned is a number between 0 and 15/16. *)
Theorem bayer4_in_bounds (x y : Z) :
  (0 <= x)%Z -> (0 <= y)%Z ->
  (0 <= bayer4_index x y <= 15)%Z /\
  (bayer4_index x y < Z.of_nat (length BAYER_4X4))%Z /\
  exists v, get BAYER_4X4 (bayer4_index x y) = Some v /\
            bayer4 x y = Fin v /\ 0 <= v <= 15 / 16.
Proof.
  intros Hx Hy.
  destruct (bayer4_in_bounds_aux x y Hx Hy) as (v & Hv & Hg & Hi & Hb).
  split; [exact Hi | split; [cbn; lia | now exists v]].
Qed.

Lemma bayer4_in_bounds_witness :
  (0 <= bayer4_index 5 2 <= 15)%Z /\
  (bayer4_index 5 2 < Z.of_nat (length BAYER_4X4))%Z /\
  exists v, get BAYER_4X4 (bayer4_index 5 2) = Some v /\
            bayer4 5 2 = Fin v /\ 0 <= v <= 15 / 16.
Proof. apply (bayer4_in_bounds 5 2); lia. Defined.

(** ** Palette quantization *)

(** C2.  applyPaletteMix(c, m) is nearestBrandColor(c) for every colour c
    and every mix m: the mix has no effect. *)
Theorem applyPaletteMix_ignores_mix (c : RGB) (m : num) :
  applyPaletteMix c m = nearestBrandColor c.
Proof. reflexivity. Qed.

(** *** Distances between finite colours *)

Lemma srgbToLinear_low (x : R) :
  x <= 0.04045 -> srgbToLinear (Fin x) = Fin (x / 12.92).
Proof.
  intros H; unfold srgbToLinear; cbn. now rewrite (Rleb_true _ _ H).
Qed.

Lemma srgbToLinear_high (x : R) :
  0.04045 < x -> srgbToLinear (Fin x) = Fin (Rpower ((x + 0.055) / 1.055) 2.4).
Proof.
  intros H; unfold srgbToLinear; cbn.
  rewrite Rleb_false by lra.
  rewrite Rltb_false by lra. rewrite Reqb_false by lra. reflexivity.
Qed.

Lemma srgbToLinear_finite (x : R) : exists v, srgbToLinear (Fin x) = Fin v.
Proof.
  destruct (Rle_dec x 0.04045) as [H | H].
  - eexists; now apply srgbToLinear_low.
  - eexists; apply srgbToLinear_high; lra.
Qed.

Lemma srgbToLinear_one : srgbToLinear (Fin (255 / 255)) = Fin 1.
Proof.
  rewrite srgbToLinear_high by lra.
  replace ((255 / 255 + 0.055) / 1.055) with 1 by lra.
  unfold Rpower. now rewrite ln_1, Rmult_0_r, exp_0.
Qed.

(** The distance of two colours whose linear channels are known. *)
Lemma colorDistance_linear (a b : RGB) (a0 a1 a2 b0 b1 b2 : R) :
  toLinear a = (Fin a0, Fin a1, Fin a2) ->
  toLinear b = (Fin b0, Fin b1, Fin b2) ->
  colorDistance a b =
  Fin (sqrt ((a0 - b0) * (a0 - b0) + (a1 - b1) * (a1 - b1) + (a2 - b2) * (a2 - b2))).
Proof.
  intros Ha Hb; unfold colorDistance; rewrite Ha, Hb; cbn.
  rewrite Rltb_false; [reflexivity |].
  pose proof (Rle_0_sqr (a0 - b0)); pose proof (Rle_0_sqr (a1 - b1));
    pose proof (Rle_0_sqr (a2 - b2)); unfold Rsqr in *; lra.
Qed.

Lemma toLinear_finite (x y z : R) :
  exists u v w, toLinear (Fin x, Fin y, Fin z) = (Fin u, Fin v, Fin w).
Proof.
  destruct (srgbToLinear_finite x) as [u Hu].
  destruct (srgbToLinear_finite y) as [v Hv].
  destruct (srgbToLinear_finite z) as [w Hw].
  exists u, v, w; unfold toLinear; cbn; now rewrite Hu, Hv, Hw.
Qed.

Lemma colorDistance_self (x y z : R) :
  colorDistance (Fin x, Fin y, Fin z) (Fin x, Fin y, Fin z) = Fin 0.
Proof.
  destruct (toLinear_finite x y z) as (u & v & w & H).
  rewrite (colorDistance_linear _ _ _ _ _ _ _ _ H H).
  replace ((u - u) * (u - u) + (v - v) * (v - v) + (w - w) * (w - w)) with 0 by ring.
  now rewrite sqrt_0.
Qed.

(** A distance is never a negative number. *)
Lemma colorDistance_nonneg (a b : RGB) (d : R) :
  colorDistance a b = Fin d -> 0 <= d.
Proof.
  unfold colorDistance, Math_sqrt.
  destruct (_ + _ + _)%num as [| s]; [discriminate |].
  destruct (Rltb s 0); [discriminate |].
  intros [= <-]; apply sqrt_pos.
Qed.

(** Two finite colours whose first linear channels differ are at a positive
    distance. *)
Lemma colorDistance_pos (x y z x' y' z' u u' : R) :
  srgbToLinear (Fin x) = Fin u -> srgbToLinear (Fin x') = Fin u' -> u <> u' ->
  exists d, colorDistance (Fin x, Fin y, Fin z) (Fin x', Fin y', Fin z') = Fin d
            /\ 0 < d.
Proof.
  intros Hu Hu' Hne.
  destruct (toLinear_finite x y z) as (a0 & a1 & a2 & Ha).
  destruct (toLinear_finite x' y' z') as (b0 & b1 & b2 & Hb).
  assert (a0 = u) as ->.
  { unfold toLinear in Ha; cbn in Ha; rewrite Hu in Ha; congruence. }
  assert (b0 = u') as ->.
  { unfold toLinear in Hb; cbn in Hb; rewrite Hu' in Hb; congruence. }
  eexists; split; [apply (colorDistance_linear _ _ _ _ _ _ _ _ Ha Hb) |].
  apply sqrt_lt_R0.
  assert (0 < (u - u') * (u - u')) by (apply Rsqr_pos_lt; lra).
  pose proof (Rle_0_sqr (a1 - b1)); pose proof (Rle_0_sqr (a2 - b2));
    unfold Rsqr in *; lra.
Qed.

Lemma distance_blue_navy :
  exists d, colorDistance c_navy c_blue = Fin d /\ 0 < d.
Proof.
  eapply colorDistance_pos;
    [apply srgbToLinear_low; lra | apply srgbToLinear_low; lra | lra].
Qed.

Lemma distance_yellow_blue :
  exists d, colorDistance c_yellow c_blue = Fin d /\ 0 < d.
Proof.
  eapply colorDistance_pos;
    [apply srgbToLinear_one | apply srgbToLinear_low; lra | lra].
Qed.

Lemma distance_yellow_navy :
  exists d, colorDistance c_yellow c_navy = Fin d /\ 0 < d.
Proof.
  eapply colorDistance_pos;
    [apply srgbToLinear_one | apply srgbToLinear_low; lra | lra].
Qed.

(** Once the minimum is 0 no later colour replaces the nearest one. *)
Lemma nearestStep_at_zero (rgb p q : RGB) :
  nearestStep rgb (Some 0, p) q = (Some 0, p).
Proof.
  unfold nearestStep; cbn.
  destruct (colorDistance rgb q) as [| d] eqn:E; cbn; [reflexivity |].
  apply colorDistance_nonneg in E. now rewrite Rltb_false by lra.
Qed.

(** The loop returns a colour of the palette it runs over. *)
Lemma nearest_fold_member (rgb : RGB) (palette : list RGB) (st : option R * RGB) :
  snd (fold_left (nearestStep rgb) palette st) = snd st \/
  In (snd (fold_left (nearestStep rgb) palette st)) palette.
Proof.
  revert st; induction palette as [| q palette IH]; intros st; cbn.
  - now left.
  - destruct (IH (nearestStep rgb st q)) as [H | H].
    + rewrite H. unfold nearestStep.
      destruct (belowMin _ _); cbn; [right; now left | now left].
    + right; now right.
Qed.

Lemma nearestBrandColor_in_palette (rgb : RGB) :
  In (nearestBrandColor rgb) ACTIVE_PALETTE.
Proof.
  unfold nearestBrandColor, nearestIn.
  destruct (nearest_fold_member rgb ACTIVE_PALETTE (None, nth 0 ACTIVE_PALETTE c_blue))
    as [H | H].
  - rewrite H; cbn; now left.
  - exact H.
Qed.

Lemma nearestStep_take (rgb p q : RGB) (m : option R) (d : R) :
  colorDistance rgb q = Fin d -> belowMin (Fin d) m = true ->
  nearestStep rgb (m, p) q = (Some d, q).
Proof. intros Hd Hb; unfold nearestStep; cbn [fst]; now rewrite Hd, Hb. Qed.

Lemma nearestStep_keep (rgb p q : RGB) (m : option R) (d : R) :
  colorDistance rgb q = Fin d -> belowMin (Fin d) m = false ->
  nearestStep rgb (m, p) q = (m, p).
Proof. intros Hd Hb; unfold nearestStep; cbn [fst]; now rewrite Hd, Hb. Qed.

Lemma nearest_blue : nearestBrandColor c_blue = c_blue.
Proof.
  unfold nearestBrandColor, nearestIn, ACTIVE_PALETTE; cbn [fold_left nth].
  rewrite (nearestStep_take c_blue c_blue c_blue None 0);
    [| apply colorDistance_self | reflexivity].
  now rewrite !nearestStep_at_zero.
Qed.

Lemma nearest_navy : nearestBrandColor c_navy = c_navy.
Proof.
  unfold nearestBrandColor, nearestIn, ACTIVE_PALETTE; cbn [fold_left nth].
  destruct distance_blue_navy as (d & Hd & Hpos).
  rewrite (nearestStep_take c_navy c_blue c_blue None d Hd eq_refl).
  rewrite (nearestStep_take c_navy c_blue c_navy (Some d) 0);
    [| apply colorDistance_self | cbn; now apply Rltb_true].
  now rewrite nearestStep_at_zero.
Qed.

Lemma nearest_yellow : nearestBrandColor c_yellow = c_yellow.
Proof.
  unfold nearestBrandColor, nearestIn, ACTIVE_PALETTE; cbn [fold_left nth].
  destruct distance_yellow_blue as (d0 & Hd0 & Hpos0).
  destruct distance_yellow_navy as (d1 & Hd1 & Hpos1).
  rewrite (nearestStep_take c_yellow c_blue c_blue None d0 Hd0 eq_refl).
  destruct (Rltb d1 d0) eqn:E.
  - rewrite (nearestStep_take c_yellow c_blue c_navy (Some d0) d1 Hd1 E).
    rewrite (nearestStep_take c_yellow c_navy c_yellow (Some d1) 0);
      [reflexivity | apply colorDistance_self | cbn; now apply Rltb_true].
  - rewrite (nearestStep_keep c_yellow c_blue c_navy (Some d0) d1 Hd1 E).
    rewrite (nearestStep_take c_yellow c_blue c_yellow (Some d0) 0);
      [reflexivity | apply colorDistance_self | cbn; now apply Rltb_true].
Qed.

(** Every colour of the active palette is its own nearest colour. *)
Lemma nearest_fixed_on_palette (p : RGB) :
  In p ACTIVE_PALETTE -> nearestBrandColor p = p.
Proof.
  intros [<- | [<- | [<- | []]]];
    [apply nearest_blue | apply nearest_navy | apply nearest_yellow].
Qed.

(** C6.  nearestBrandColor(c) is one of the three colours of the active
    palette, for every colour c, and quantizing twice is quantizing once. *)
Theorem nearestBrandColor_member_idempotent (c : RGB) :
  In (nearestBrandColor c) ACTIVE_PALETTE /\
  length ACTIVE_PALETTE = 3%nat /\
  nearestBrandColor (nearestBrandColor c) = nearestBrandColor c.
Proof.
  split; [apply nearestBrandColor_in_palette | split; [reflexivity |]].
  apply nearest_fixed_on_palette, nearestBrandColor_in_palette.
Qed.

(** C8 as the specification has it fails: the colour [0, 0.2118, 0.4980] it
    names as the navy entry is not in the palette, and quantization moves
    its green channel by more than 0.07. *)
Lemma nearest_spec_navy_moves :
  nearestBrandColor (Fin 0, Fin 0.2118, Fin 0.4980)
    <> (Fin 0, Fin 0.2118, Fin 0.4980) /\
  (forall g : R, ch1 (nearestBrandColor (Fin 0, Fin 0.2118, Fin 0.4980)) = Fin g ->
                 0.07 < Rabs (g - 0.2118)).
Proof.
  pose proof (nearestBrandColor_in_palette (Fin 0, Fin 0.2118, Fin 0.4980)) as H.
  destruct H as [H | [H | [H | []]]]; rewrite <- H; split;
    try (intros [= E1 E2 E3]; lra);
    intros g [= <-]; unfold Rabs; destruct (Rcase_abs _); lra.
Qed.

(** C8, amended.  nearestBrandColor applied to a member of the active
    palette returns that member; for the navy entry,
    nearestBrandColor([1/255, 36/255, 100/255]) = [1/255, 36/255, 100/255]. *)
Theorem nearestBrandColor_fixed_point (p : RGB) :
  In p ACTIVE_PALETTE ->
  nearestBrandColor p = p /\
  nearestBrandColor (Fin (1 / 255), Fin (36 / 255), Fin (100 / 255))
    = (Fin (1 / 255), Fin (36 / 255), Fin (100 / 255)).
Proof.
  intros H; split; [now apply nearest_fixed_on_palette | apply nearest_navy].
Qed.

Lemma nearestBrandColor_fixed_point_witness :
  nearestBrandColor c_yellow = c_yellow /\
  nearestBrandColor (Fin (1 / 255), Fin (36 / 255), Fin (100 / 255))
    = (Fin (1 / 255), Fin (36 / 255), Fin (100 / 255)).
Proof.
  apply (nearestBrandColor_fixed_point c_yellow).
  unfold ACTIVE_PALETTE; simpl; tauto.
Defined.

(** ** Colour transforms *)

Lemma clamp01_Fin (v : R) : clamp01 (Fin v) = Fin (Rmax 0 (Rmin 1 v)).
Proof. reflexivity. Qed.

Lemma clamp01_inUnit (v : R) : inUnit (clamp01 (Fin v)).
Proof.
  rewrite clamp01_Fin; cbn.
  unfold Rmax, Rmin; destruct (Rle_dec 1 v); destruct (Rle_dec 0 _); lra.
Qed.

(** A clamped channel is a number of [0, 1] or, for [NaN], [NaN]. *)
Lemma clamp01_cases (v : num) : clamp01 v = NaN \/ inUnit (clamp01 v).
Proof.
  destruct v as [| x]; [now left | right; apply clamp01_inUnit].
Qed.

(** C5 as the specification has it fails: with contrast 1, saturation 1 or
    dither amount 0 the input is returned as it is, also when a channel is
    outside [0, 1]. *)
Lemma identity_settings_do_not_clamp :
  applyContrast (Fin 2, Fin 0, Fin 0) (Fin 1.0) = (Fin 2, Fin 0, Fin 0) /\
  applySaturation (Fin 2, Fin 0, Fin 0) (Fin 1.0) = (Fin 2, Fin 0, Fin 0) /\
  applyDither (Fin 2, Fin 0, Fin 0) (Fin 0) 0 0 = (Fin 2, Fin 0, Fin 0) /\
  ~ rgbInUnit (applyContrast (Fin 2, Fin 0, Fin 0) (Fin 1.0)).
Proof.
  assert (E : applyContrast (Fin 2, Fin 0, Fin 0) (Fin 1.0) = (Fin 2, Fin 0, Fin 0)).
  { unfold applyContrast; cbn. now rewrite Reqb_true by lra. }
  repeat split.
  - exact E.
  - unfold applySaturation; cbn. now rewrite Reqb_true by lra.
  - unfold applyDither; cbn. now rewrite Rleb_true by lra.
  - rewrite E. intros [H _]; cbn in H; lra.
Qed.

(** C5, amended.  For a colour with channels of absolute value at most
    1e100, in or out of [0, 1], and a parameter of absolute value at most
    1e100: away from the identity setting (contrast other than 1,
    saturation other than 1, dither amount above 0 at integer coordinates
    x, y >= 0) every channel of the output is a number of [0, 1].  The
    bound keeps the intermediate values of the code far from the overflow
    of binary64, where a difference of infinities would give NaN.  At the
    identity setting (contrast 1, saturation 1, amount at most 0) the
    output is the input, unclamped, whatever its size. *)
Theorem transforms_clamp_off_identity (r g b p : R) (x y : Z) :
  let c : RGB := (Fin r, Fin g, Fin b) in
  (- 1e100 <= r <= 1e100 -> - 1e100 <= g <= 1e100 -> - 1e100 <= b <= 1e100 ->
   - 1e100 <= p <= 1e100 ->
   (p <> 1 -> rgbInUnit (applyContrast c (Fin p))) /\
   (p <> 1 -> rgbInUnit (applySaturation c (Fin p))) /\
   (0 < p -> (0 <= x)%Z -> (0 <= y)%Z -> rgbInUnit (applyDither c (Fin p) x y))) /\
  (p = 1 -> applyContrast c (Fin p) = c) /\
  (p = 1 -> applySaturation c (Fin p) = c) /\
  (p <= 0 -> applyDither c (Fin p) x y = c).
Proof.
  intros c; subst c; split; [intros _ _ _ _ |]; repeat split.
  - unfold applyContrast; cbn [eqb cmp]; rewrite Reqb_false by lra.
    cbn [ch0 fst snd sub mul add lift2]; apply clamp01_inUnit.
  - unfold applyContrast; cbn [eqb cmp]; rewrite Reqb_false by lra.
    cbn [ch1 fst snd sub mul add lift2]; apply clamp01_inUnit.
  - unfold applyContrast; cbn [eqb cmp]; rewrite Reqb_false by lra.
    cbn [ch2 fst snd sub mul add lift2]; apply clamp01_inUnit.
  - unfold applySaturation; cbn [eqb cmp]; rewrite Reqb_false by lra.
    cbn [ch0 ch1 ch2 fst snd sub mul add lift2]; apply clamp01_inUnit.
  - unfold applySaturation; cbn [eqb cmp]; rewrite Reqb_false by lra.
    cbn [ch0 ch1 ch2 fst snd sub mul add lift2]; apply clamp01_inUnit.
  - unfold applySaturation; cbn [eqb cmp]; rewrite Reqb_false by lra.
    cbn [ch0 ch1 ch2 fst snd sub mul add lift2]; apply clamp01_inUnit.
  - destruct (bayer4_in_bounds_aux x y H0 H1) as (v & Hv & _).
    unfold applyDither; cbn [leb cmp]; rewrite Rleb_false by lra.
    rewrite Hv; cbn [ch0 fst snd sub mul add lift2]; apply clamp01_inUnit.
  - destruct (bayer4_in_bounds_aux x y H0 H1) as (v & Hv & _).
    unfold applyDither; cbn [leb cmp]; rewrite Rleb_false by lra.
    rewrite Hv; cbn [ch1 fst snd sub mul add lift2]; apply clamp01_inUnit.
  - destruct (bayer4_in_bounds_aux x y H0 H1) as (v & Hv & _).
    unfold applyDither; cbn [leb cmp]; rewrite Rleb_false by lra.
    rewrite Hv; cbn [ch2 fst snd sub mul add lift2]; apply clamp01_inUnit.
  - intros ->; unfold applyContrast; cbn [eqb cmp]; now rewrite Reqb_true by lra.
  - intros ->; unfold applySaturation; cbn [eqb cmp]; now rewrite Reqb_true by lra.
  - intros H; unfold applyDither; cbn [leb cmp]; now rewrite Rleb_true by lra.
Qed.

Lemma transforms_clamp_off_identity_witness :
  rgbInUnit (applyContrast (Fin 2, Fin (-1), Fin 0.5) (Fin 1.5)) /\
  rgbInUnit (applySaturation (Fin 2, Fin (-1), Fin 0.5) (Fin 1.5)) /\
  rgbInUnit (applyDither (Fin 2, Fin (-1), Fin 0.5) (Fin 1.5) 3 2).
Proof.
  destruct (transforms_clamp_off_identity 2 (-1) 0.5 1.5 3 2) as [H _].
  destruct H as (Hc & Hs & Hd); try lra.
  split; [apply Hc; lra | split; [apply Hs; lra | apply Hd; [lra | lia | lia]]].
Defined.

(** ** Edge detection *)

Lemma in_range (n i : Z) : In i (range n) <-> (0 <= i < n)%Z.
Proof.
  unfold range; rewrite in_map_iff; split.
  - intros (k & <- & Hk); apply in_seq in Hk; lia.
  - intros H; exists (Z.to_nat i); split; [lia | apply in_seq; lia].
Qed.

Lemma length_range (n : Z) : length (range n) = Z.to_nat n.
Proof. unfold range; now rewrite length_map, length_seq. Qed.

(** Reading the [k]-th byte of pixel [i] of uniform data. *)
Lemma nth_error_uniform (px : list Z) (n i k : nat) :
  length px = 4%nat -> (i < n)%nat -> (k < 4)%nat ->
  nth_error (concat (repeat px n)) (4 * i + k) = nth_error px k.
Proof.
  intros Hlen; revert n; induction i as [| i IH]; intros n Hi Hk.
  - destruct n as [| n]; [lia |]; cbn [repeat concat].
    rewrite nth_error_app1 by lia. now replace (4 * 0 + k)%nat with k by lia.
  - destruct n as [| n]; [lia |]; cbn [repeat concat].
    rewrite nth_error_app2 by lia.
    replace (4 * S i + k - length px)%nat with (4 * i + k)%nat by lia.
    apply IH; lia.
Qed.

Lemma byteAt_uniform (w h r g b a i k : Z) :
  (0 <= i < w * h)%Z -> (0 <= k < 4)%Z ->
  byteAt (uniformData w h r g b a) (i * 4 + k) =
  match nth_error [r; g; b; a] (Z.to_nat k) with
  | Some v => Fin (IZR v)
  | None => NaN
  end.
Proof.
  intros Hi Hk; unfold byteAt, get, uniformData.
  destruct (Z.ltb_spec (i * 4 + k) 0); [lia |].
  replace (Z.to_nat (i * 4 + k)) with (4 * Z.to_nat i + Z.to_nat k)%nat by lia.
  rewrite nth_error_uniform by (reflexivity || lia). reflexivity.
Qed.

(** Every tap reads the one luminance of the grid. *)
Lemma sobelTap_uniform (w h r g b a x y ky kx : Z) (gx gy : num) :
  (0 <= x < w)%Z -> (0 <= y < h)%Z ->
  sobelTap (uniformData w h r g b a) w h x y (gx, gy) (ky, kx) =
  ((gx + Fin (uniformLuma r g b) * getNum sobelX ((ky + 1) * 3 + (kx + 1)))%num,
   (gy + Fin (uniformLuma r g b) * getNum sobelY ((ky + 1) * 3 + (kx + 1)))%num).
Proof.
  intros Hx Hy; unfold sobelTap; cbn [fst snd].
  set (cx := Z.max 0 (Z.min (w - 1) (x + kx))).
  set (cy := Z.max 0 (Z.min (h - 1) (y + ky))).
  assert (Hi : (0 <= cy * w + cx < w * h)%Z) by (subst cx cy; nia).
  pose proof (byteAt_uniform w h r g b a (cy * w + cx) 0 Hi ltac:(lia)) as E0.
  pose proof (byteAt_uniform w h r g b a (cy * w + cx) 1 Hi ltac:(lia)) as E1.
  pose proof (byteAt_uniform w h r g b a (cy * w + cx) 2 Hi ltac:(lia)) as E2.
  rewrite Z.add_0_r in E0.
  rewrite E0, E1, E2. reflexivity.
Qed.

Lemma gradient_uniform (w h r g b a x y : Z) :
  (0 <= x < w)%Z -> (0 <= y < h)%Z ->
  gradient (uniformData w h r g b a) w h x y = (Fin 0, Fin 0).
Proof.
  intros Hx Hy; unfold gradient, kernelOffsets; cbn [flat_map map app fold_left].
  rewrite !sobelTap_uniform by assumption.
  cbv [getNum get sobelX sobelY Z.ltb Z.compare Z.add Z.mul Z.opp Z.pos_sub
       Pos.add Pos.mul Pos.succ Pos.pred_double Z.succ_double Z.pred_double
       Z.double Z.to_nat Pos.to_nat Pos.iter_op Nat.add nth_error].
  cbn [add mul lift2].
  f_equal; f_equal; ring.
Qed.

Lemma edgeAt_uniform (w h r g b a x y : Z) :
  (0 <= x < w)%Z -> (0 <= y < h)%Z ->
  edgeAt (uniformData w h r g b a) w h x y = false.
Proof.
  intros Hx Hy; unfold edgeAt; rewrite gradient_uniform by assumption; cbn.
  rewrite Rltb_false by lra.
  replace (0 * 0 + 0 * 0) with 0 by ring; rewrite sqrt_0.
  apply Rltb_false; lra.
Qed.

Lemma detectEdges_uniform_rows (w h r g b a : Z) :
  detectEdges {| data := uniformData w h r g b a |} w h =
  repeat (repeat false (Z.to_nat w)) (Z.to_nat h).
Proof.
  unfold detectEdges; cbn [data].
  assert (Hrow : forall y, (0 <= y < h)%Z ->
            map (fun x => edgeAt (uniformData w h r g b a) w h x y) (range w)
            = repeat false (Z.to_nat w)).
  { intros y Hy.
    rewrite <- (length_range w), <- (map_const false (range w)).
    apply map_ext_in; intros x Hx; apply in_range in Hx.
    now apply edgeAt_uniform. }
  rewrite <- (length_range h), <- (map_const (repeat false (Z.to_nat w)) (range h)).
  apply map_ext_in; intros y Hy; apply in_range in Hy. now apply Hrow.
Qed.

(** C7.  For a width w >= 0, a height h >= 0 and a grid of w by h pixels
    that all carry the same RGBA bytes, detectEdges returns h rows of w
    entries, and every entry is false. *)
Theorem detectEdges_uniform_no_edges (w h r g b a : Z) :
  (0 <= w)%Z -> (0 <= h)%Z ->
  let edgeMap := detectEdges {| data := uniformData w h r g b a |} w h in
  noEdges edgeMap /\
  length edgeMap = Z.to_nat h /\
  Forall (fun row => length row = Z.to_nat w) edgeMap.
Proof.
  intros Hw Hh edgeMap; subst edgeMap; rewrite detectEdges_uniform_rows.
  unfold noEdges; repeat split.
  - apply Forall_forall; intros row Hrow; apply repeat_spec in Hrow; subst row.
    apply Forall_forall; intros e He; now apply repeat_spec in He.
  - apply repeat_length.
  - apply Forall_forall; intros row Hrow; apply repeat_spec in Hrow; subst row.
    apply repeat_length.
Qed.

Lemma detectEdges_uniform_no_edges_witness :
  let edgeMap := detectEdges {| data := uniformData 3 2 200 120 40 255 |} 3 2 in
  noEdges edgeMap /\
  length edgeMap = 2%nat /\
  Forall (fun row => length row = 3%nat) edgeMap.
Proof. apply (detectEdges_uniform_no_edges 3 2 200 120 40 255); lia. Defined.

(** ** Glyph alignment *)

Lemma half_not_integer (n : Z) : ~ isInteger (IZR n + / 2).
Proof.
  intros [m H].
  assert (E : IZR (2 * n + 1) = IZR (2 * m)) by (rewrite plus_IZR, !mult_IZR; lra).
  apply eq_IZR in E; lia.
Qed.

(** C9 as the specification has it fails for the square: drawSquare snaps
    the corner and the side of the rectangle, and a side of odd length puts
    the centre of the glyph on a half pixel.  drawSquare(10, 10, 5) fills
    the rectangle at (8, 8) of side 5, whose centre is (10.5, 10.5). *)
Lemma square_centre_off_grid :
  drawSquare 10 10 5 = [FillRect 8 8 5 5] /\
  drawnCentre (drawSquare 10 10 5) = Some (8 + 5 / 2, 8 + 5 / 2) /\
  ~ isInteger (8 + 5 / 2).
Proof.
  assert (E : drawSquare 10 10 5 = [FillRect 8 8 5 5]).
  { unfold drawSquare.
    rewrite (Rround_eq (10 - 5 * 0.5) 8) by lra.
    now rewrite (Rround_eq 5 5) by lra. }
  split; [exact E | split; [now rewrite E |]].
  replace (8 + 5 / 2) with (IZR 10 + / 2) by lra. apply half_not_integer.
Qed.

(** C9, amended.  For every requested centre and size: the diamond is drawn
    around a centre with integer coordinates; the circle around a centre
    whose coordinates are integer multiples of 0.5; the square is a
    rectangle whose corner and side are integers, so that its centre has
    coordinates that are integer multiples of 0.5. *)
Theorem glyphs_pixel_aligned (cx cy size : R) :
  (exists x y, drawnCentre (drawDiamond cx cy size) = Some (x, y) /\
               isInteger x /\ isInteger y) /\
  (exists x y, drawnCentre (drawCircle cx cy size) = Some (x, y) /\
               isHalfInteger x /\ isHalfInteger y) /\
  (exists x y w, drawnRect (drawSquare cx cy size) = Some (x, y, w) /\
                 isInteger x /\ isInteger y /\ isInteger w /\
                 drawnCentre (drawSquare cx cy size) = Some (x + w / 2, y + w / 2) /\
                 isHalfInteger (x + w / 2) /\ isHalfInteger (y + w / 2)).
Proof.
  split; [| split].
  - exists (IZR (Rround cx)), (IZR (Rround cy)); split; [| split; eexists; reflexivity].
    unfold drawDiamond, drawnCentre, meanPoint; cbn.
    f_equal; f_equal; field.
  - exists (IZR (Rround (cx * 2)) / 2), (IZR (Rround (cy * 2)) / 2).
    split; [reflexivity | split; eexists; reflexivity].
  - exists (IZR (Rround (cx - size * 0.5))), (IZR (Rround (cy - size * 0.5))),
           (IZR (Rround size)).
    split; [reflexivity |].
    split; [eexists; reflexivity |].
    split; [eexists; reflexivity |].
    split; [eexists; reflexivity |].
    split; [reflexivity |].
    split.
    + exists (2 * Rround (cx - size * 0.5) + Rround size)%Z.
      rewrite plus_IZR, mult_IZR; lra.
    + exists (2 * Rround (cy - size * 0.5) + Rround size)%Z.
      rewrite plus_IZR, mult_IZR; lra.
Qed.

(** ** Matching colours *)

Lemma Rltb_abs_true (e t : R) : - t < e < t -> Rltb (Rabs e) t = true.
Proof. intros H; apply Rltb_true, Rabs_def1; lra. Qed.

Lemma Rltb_abs_false (e t : R) : e <= - t \/ t <= e -> Rltb (Rabs e) t = false.
Proof.
  intros H; apply Rltb_false; intros Hlt; apply Rabs_def2 in Hlt; lra.
Qed.

(** Decides [colorMatch] on two colours with literal channels. *)
Ltac colormatch :=
  unfold colorMatch, BACKGROUND_COLOR, ACTIVE_PALETTE, c_blue, c_navy, c_yellow;
  cbn [nth ch0 ch1 ch2 fst snd sub lift2 Math_abs lift1 ltb cmp];
  repeat first
    [ rewrite Rltb_abs_true by lra
    | rewrite Rltb_abs_false by (first [left; lra | right; lra]) ];
  reflexivity.

Lemma match_blue_background : colorMatch c_blue BACKGROUND_COLOR = true.
Proof. colormatch. Qed.

Lemma match_navy_background : colorMatch c_navy BACKGROUND_COLOR = false.
Proof. colormatch. Qed.

Lemma match_yellow_background : colorMatch c_yellow BACKGROUND_COLOR = false.
Proof. colormatch. Qed.

Lemma match_navy_navy : colorMatch c_navy c_navy = true.
Proof. colormatch. Qed.

Lemma match_yellow_yellow : colorMatch c_yellow c_yellow = true.
Proof. colormatch. Qed.

Lemma match_navy_yellow : colorMatch c_navy c_yellow = false.
Proof. colormatch. Qed.

Lemma match_yellow_navy : colorMatch c_yellow c_navy = false.
Proof. colormatch. Qed.

(** ** Glyph selection *)

Lemma rem2_of_mod (v : Z) : (0 <= v)%Z -> rem v 2 = (v mod 2)%Z.
Proof. intros H; unfold rem; apply Z.rem_mod_nonneg; lia. Qed.

Lemma cellAt_nonneg (cellColors : list (list RGB)) (x y : Z) (c : RGB) :
  cellAt cellColors x y = Some c -> (0 <= x)%Z /\ (0 <= y)%Z.
Proof.
  unfold cellAt, get.
  destruct (Z.ltb_spec y 0); [discriminate |].
  destruct (nth_error cellColors (Z.to_nat y)); [| discriminate].
  destruct (Z.ltb_spec x 0); [discriminate | lia].
Qed.

(** Without an edge, or with edge crispness 0, the cell keeps its glyph and
    [Math.random()] is not called. *)
Lemma secondPassCell_deterministic (random : nat -> R) (params : KnitParams)
    (cellColors : list (list RGB)) (edgeMap : list (list bool))
    (prominentColor : option RGB) (cellWidth cellHeight glyphSize : R)
    (x y : Z) (n : nat) (finalColor : RGB) :
  cellAt cellColors x y = Some finalColor ->
  isEdgeAt edgeMap x y = false \/ edgeCrispness params = 0 ->
  secondPassCell random params cellColors edgeMap prominentColor
                 cellWidth cellHeight glyphSize x y n =
  if colorMatch finalColor BACKGROUND_COLOR then ([], n)
  else (fillStyleOf finalColor ::
        drawGlyph (baseGlyph prominentColor finalColor x y)
                  ((IZR x + 0.5) * cellWidth) ((IZR y + 0.5) * cellHeight)
                  glyphSize, n).
Proof.
  intros Hc Hdet; unfold secondPassCell; rewrite Hc.
  destruct (colorMatch finalColor BACKGROUND_COLOR); [reflexivity |].
  assert (E : isEdgeAt edgeMap x y && Rltb 0 (edgeCrispness params) = false).
  { destruct Hdet as [-> | ->]; [reflexivity |].
    rewrite Rltb_false by lra. apply andb_false_r. }
  now rewrite E.
Qed.

(** ** Keys and fill styles of the palette colours *)

Lemma Math_round_byte (v : Z) : Math_round (Fin (IZR v / 255) * 255)%num = Some v.
Proof.
  cbn; f_equal; apply Rround_eq.
  replace (IZR v / 255 * 255) with (IZR v) by lra. lra.
Qed.

Lemma colorKeyOf_bytes (r g b : Z) :
  colorKeyOf (Fin (IZR r / 255), Fin (IZR g / 255), Fin (IZR b / 255))
  = (Some r, Some g, Some b).
Proof.
  unfold colorKeyOf; cbn [ch0 ch1 ch2 fst snd]. now rewrite !Math_round_byte.
Qed.

Lemma fillStyleOf_bytes (r g b : Z) :
  fillStyleOf (Fin (IZR r / 255), Fin (IZR g / 255), Fin (IZR b / 255))
  = SetFillStyle (Some r) (Some g) (Some b).
Proof.
  unfold fillStyleOf; cbn [ch0 ch1 ch2 fst snd]. now rewrite !Math_round_byte.
Qed.

Lemma fillBackground_blue (size : R) :
  fillBackground size =
  [SetFillStyle (Some 0%Z) (Some 82%Z) (Some 176%Z); FillRect 0 0 size size].
Proof.
  unfold fillBackground, BACKGROUND_COLOR, ACTIVE_PALETTE, c_blue; cbn [nth].
  now rewrite fillStyleOf_bytes.
Qed.

(** ** The grid of a frame *)

Lemma clampStitch_bounds (params : KnitParams) : 4 <= clampStitch params <= 100.
Proof.
  unfold clampStitch, Rmax, Rmin.
  destruct (Rle_dec 100 (stitchPx params)); destruct (Rle_dec 4 _); lra.
Qed.

Lemma gridSize_zero (params : KnitParams) (size : R) :
  0 <= size < clampStitch params -> gridSize params size = (0%Z, 0%Z).
Proof.
  intros [H0 H1]; unfold gridSize, Rfloor.
  pose proof (clampStitch_bounds params) as Hc.
  assert (E : Zfloor (size / clampStitch params) = 0%Z).
  { apply Zfloor_eq; split.
    - apply Rmult_le_pos; [lra | left; apply Rinv_0_lt_compat; lra].
    - apply (Rmult_lt_reg_r (clampStitch params)); [lra |].
      unfold Rdiv; rewrite Rmult_assoc, Rinv_l by lra. lra. }
  now rewrite E.
Qed.

Lemma renderKnitFrame_zero (Image : Type) (sampleImage : Image -> Z -> Z -> ImageData)
    (random : nat -> R) (image : Image) (params : KnitParams) (size : R) :
  fst (gridSize params size) = 0%Z \/ snd (gridSize params size) = 0%Z ->
  renderKnitFrame Image sampleImage random image params size = fillBackground size.
Proof.
  intros H; unfold renderKnitFrame.
  destruct (gridSize params size) as [cols rows]; cbn [fst snd] in H.
  destruct H as [-> | ->]; [reflexivity |].
  now rewrite orb_true_r.
Qed.

(** C1, amended.  The grid has floor(size / clamp(stitchPx, 4, 100)) columns
    and as many rows.  Whenever a dimension is 0 the frame is the
    background fill and nothing else.  That is the case when the clamped
    stitch size, not the stitch size asked for, is larger than the canvas
    size: for 0 <= size < clamp(stitchPx, 4, 100) the grid is 0 by 0. *)
Theorem zero_grid_renders_background_only (Image : Type)
    (sampleImage : Image -> Z -> Z -> ImageData) (random : nat -> R)
    (image : Image) (params : KnitParams) (size : R) :
  let frame := renderKnitFrame Image sampleImage random image params size in
  let background :=
    [SetFillStyle (Some 0%Z) (Some 82%Z) (Some 176%Z); FillRect 0 0 size size] in
  gridSize params size =
    (Zfloor (size / Rmax 4 (Rmin 100 (stitchPx params))),
     Zfloor (size / Rmax 4 (Rmin 100 (stitchPx params)))) /\
  (fst (gridSize params size) = 0%Z \/ snd (gridSize params size) = 0%Z ->
   frame = background) /\
  (0 <= size < Rmax 4 (Rmin 100 (stitchPx params)) ->
   gridSize params size = (0%Z, 0%Z) /\ frame = background).
Proof.
  intros frame background; subst frame background.
  split; [reflexivity | split].
  - intros H; rewrite <- fillBackground_blue. now apply renderKnitFrame_zero.
  - intros H; split; [now apply gridSize_zero |].
    rewrite <- fillBackground_blue; apply renderKnitFrame_zero.
    left; now rewrite gridSize_zero.
Qed.

Lemma zero_grid_renders_background_only_witness :
  renderKnitFrame unit (fun _ _ _ => {| data := [] |}) (fun _ => 0) tt
    {| stitchPx := 20; paletteMix := 1; dither := 0.3; contrast := 1;
       saturation := 1; edgeCrispness := 0.2; showGridLines := false |} 10
  = [SetFillStyle (Some 0%Z) (Some 82%Z) (Some 176%Z); FillRect 0 0 10 10].
Proof.
  apply (zero_grid_renders_background_only unit
           (fun _ _ _ => {| data := [] |}) (fun _ => 0) tt
           {| stitchPx := 20; paletteMix := 1; dither := 0.3; contrast := 1;
              saturation := 1; edgeCrispness := 0.2; showGridLines := false |} 10).
  cbn [stitchPx]; unfold Rmax, Rmin.
  destruct (Rle_dec 100 20); [lra |]. destruct (Rle_dec 4 20); lra.
Defined.

(** ** The first pass *)

Lemma match_background_background :
  colorMatch BACKGROUND_COLOR BACKGROUND_COLOR = true.
Proof. colormatch. Qed.

Lemma countColor_background (counts : ColorCounts) :
  countColor counts BACKGROUND_COLOR = counts.
Proof. unfold countColor; now rewrite match_background_background. Qed.

Lemma firstPassCell_eq (sd : ImageData) (params : KnitParams) (cols y x : Z)
    (row : list RGB) (counts : ColorCounts) :
  firstPassCell sd params cols y (row, counts) x =
  (row ++ [cellFinal sd params cols x y],
   countColor counts (cellFinal sd params cols x y)).
Proof.
  unfold firstPassCell, cellFinal.
  destruct (_ <? _)%num; [now rewrite countColor_background | reflexivity].
Qed.

Lemma firstPass_cells_fold (sd : ImageData) (params : KnitParams) (cols y : Z)
    (xs : list Z) (row : list RGB) (counts : ColorCounts) :
  fold_left (firstPassCell sd params cols y) xs (row, counts) =
  (row ++ map (fun x => cellFinal sd params cols x y) xs,
   fold_left countColor (map (fun x => cellFinal sd params cols x y) xs) counts).
Proof.
  revert row counts; induction xs as [| x xs IH]; intros row counts;
    cbn [fold_left map].
  - now rewrite app_nil_r.
  - rewrite firstPassCell_eq, IH, <- app_assoc. reflexivity.
Qed.

Lemma firstPass_rows_fold (sd : ImageData) (params : KnitParams) (cols : Z)
    (ys : list Z) (cellColors : list (list RGB)) (counts : ColorCounts) :
  let rowOf := fun y => map (fun x => cellFinal sd params cols x y) (range cols) in
  fold_left (firstPassRow sd params cols) ys (cellColors, counts) =
  (cellColors ++ map rowOf ys,
   fold_left countColor (concat (map rowOf ys)) counts).
Proof.
  intros rowOf; revert cellColors counts.
  induction ys as [| y ys IH]; intros cellColors counts;
    cbn [fold_left map concat].
  - now rewrite app_nil_r.
  - unfold firstPassRow at 2. rewrite firstPass_cells_fold; cbn [app].
    rewrite IH, <- app_assoc, fold_left_app. reflexivity.
Qed.

(** The first pass gives every cell of the grid its colour and counts the
    colours in the order of the cells. *)
Lemma firstPass_eq (sd : ImageData) (params : KnitParams) (cols rows : Z) :
  firstPass sd params cols rows =
  (gridColors sd params cols rows,
   countCells (concat (gridColors sd params cols rows))).
Proof.
  unfold firstPass; rewrite firstPass_rows_fold. reflexivity.
Qed.

Lemma cellFinal_in_palette (sd : ImageData) (params : KnitParams) (cols x y : Z) :
  In (cellFinal sd params cols x y) ACTIVE_PALETTE.
Proof.
  unfold cellFinal; destruct (_ <? _)%num.
  - left; reflexivity.
  - apply nearestBrandColor_in_palette.
Qed.

Lemma gridColors_in_palette (sd : ImageData) (params : KnitParams) (cols rows : Z) :
  Forall (fun c => In c ACTIVE_PALETTE) (concat (gridColors sd params cols rows)).
Proof.
  apply Forall_forall; intros c Hc.
  apply in_concat in Hc; destruct Hc as (row & Hrow & Hc).
  unfold gridColors in Hrow; apply in_map_iff in Hrow.
  destruct Hrow as (y & <- & _); apply in_map_iff in Hc.
  destruct Hc as (x & <- & _); apply cellFinal_in_palette.
Qed.

Lemma range_1 : range 1 = [0%Z].
Proof. reflexivity. Qed.

(** ** A frame of one cell *)

(** With contrast 1, saturation 1 and no dither a pixel that has a palette
    colour keeps it. *)
Lemma cellColor_identity (sampledData : ImageData) (params : KnitParams)
    (cols x y : Z) (p : RGB) :
  contrast params = 1 -> saturation params = 1 -> dither params <= 0 ->
  getPixelFromImageData sampledData x y cols = p -> In p ACTIVE_PALETTE ->
  cellColor sampledData params cols x y = p.
Proof.
  intros Hc Hs Hd Hp Hin; unfold cellColor; rewrite Hp, Hc, Hs.
  unfold applyContrast; cbn [eqb cmp]; rewrite Reqb_true by lra.
  unfold applySaturation; cbn [eqb cmp]; rewrite Reqb_true by lra.
  unfold applyDither; cbn [leb cmp]; rewrite Rleb_true by lra.
  unfold applyPaletteMix.
  rewrite (nearest_fixed_on_palette p Hin). exact (nearest_fixed_on_palette p Hin).
Qed.

Lemma cellFinal_yellowPixel (params : KnitParams) :
  contrast params = 1 -> saturation params = 1 -> dither params <= 0 ->
  cellFinal yellowPixel params 1 0 0 = c_yellow.
Proof.
  intros Hc Hs Hd; unfold cellFinal.
  replace (byteAt (data yellowPixel) ((0 * 1 + 0) * 4 + 3) / 255 <? 0.05)%num
    with false.
  - apply cellColor_identity; try assumption; [reflexivity | cbn; tauto].
  - symmetry; change (Rltb (255 / 255) 0.05 = false); apply Rltb_false; lra.
Qed.

Lemma firstPass_yellowPixel (params : KnitParams) :
  contrast params = 1 -> saturation params = 1 -> dither params <= 0 ->
  firstPass yellowPixel params 1 1 =
  ([[c_yellow]], [((Some 255%Z, Some 242%Z, Some 2%Z), 1%Z)]).
Proof.
  intros Hc Hs Hd.
  rewrite firstPass_eq; unfold gridColors; rewrite range_1; cbn [map concat app].
  rewrite (cellFinal_yellowPixel params Hc Hs Hd); unfold countCells; cbn [fold_left].
  unfold countColor; rewrite match_yellow_background; cbn [negb].
  unfold c_yellow; rewrite colorKeyOf_bytes. reflexivity.
Qed.

Lemma detectEdges_yellowPixel : detectEdges yellowPixel 1 1 = [[false]].
Proof.
  change yellowPixel with {| data := uniformData 1 1 255 242 2 255 |}.
  now rewrite detectEdges_uniform_rows.
Qed.

(** C1 as the specification has it fails: a stitch size above the canvas
    size is clamped to 100 first.  With stitchPx = 200 on a canvas of size
    150 the grid is 1 by 1, and for an image that samples to one opaque
    yellow pixel the frame draws a circle after the background fill. *)
Lemma stitch_above_canvas_still_draws :
  let params :=
    {| stitchPx := 200; paletteMix := 1; dither := 0; contrast := 1;
       saturation := 1; edgeCrispness := 0.2; showGridLines := false |} in
  150 < stitchPx params /\
  gridSize params 150 = (1%Z, 1%Z) /\
  renderKnitFrame unit (fun _ _ _ => yellowPixel) (fun _ => 0) tt params 150
  = [SetFillStyle (Some 0%Z) (Some 82%Z) (Some 176%Z); FillRect 0 0 150 150;
     SetImageSmoothingEnabled false;
     SetFillStyle (Some 255%Z) (Some 242%Z) (Some 2%Z);
     BeginPath; Arc 75 75 60 0 (PI * 2); Fill].
Proof.
  intros params.
  assert (Hclamp : clampStitch params = 100).
  { unfold clampStitch, params; cbn [stitchPx]; unfold Rmax, Rmin.
    destruct (Rle_dec 100 200); [| lra]. destruct (Rle_dec 4 100); lra. }
  assert (Hgrid : gridSize params 150 = (1%Z, 1%Z)).
  { unfold gridSize, Rfloor; rewrite Hclamp.
    rewrite (Zfloor_eq 1 (150 / 100)); [reflexivity | lra]. }
  split; [cbn; lra | split; [exact Hgrid |]].
  unfold renderKnitFrame; rewrite Hgrid; cbn [Z.eqb orb showGridLines params].
  rewrite (firstPass_yellowPixel params) by (cbn; lra).
  assert (Hprom : findProminent [((Some 255%Z, Some 242%Z, Some 2%Z), 1%Z)]
                  = Some c_yellow) by reflexivity.
  rewrite Hprom.
  unfold secondPassCells, cellsOf; rewrite range_1; cbn [map flat_map fold_left app].
  rewrite (secondPassCell_deterministic _ _ _ _ _ _ _ _ 0 0 _ c_yellow);
    [| reflexivity | left; now rewrite detectEdges_yellowPixel].
  rewrite match_yellow_background, fillBackground_blue.
  unfold baseGlyph; rewrite match_yellow_yellow.
  change (rem (0 + 0) 2 =? 0)%Z with true; cbv iota.
  unfold c_yellow at 1; rewrite fillStyleOf_bytes.
  unfold drawGlyph, drawCircle; cbn [app].
  rewrite (Rround_eq ((0 + 0.5) * (150 / 1) * 2) 150) by lra.
  unfold Rmin; destruct (Rle_dec (150 / 1) (150 / 1)); [| lra].
  repeat f_equal; lra.
Qed.

(** ** The map of counts *)

Lemma optZ_eqb_eq (a b : option Z) : optZ_eqb a b = true <-> a = b.
Proof.
  destruct a as [u |], b as [v |]; cbn; split; intros H;
    try discriminate; try reflexivity.
  - apply Z.eqb_eq in H; now subst.
  - injection H as ->; apply Z.eqb_refl.
Qed.

Lemma Key_eqb_eq (k1 k2 : Key) : Key_eqb k1 k2 = true <-> k1 = k2.
Proof.
  destruct k1 as [[r1 g1] b1], k2 as [[r2 g2] b2]; cbn.
  rewrite !andb_true_iff, !optZ_eqb_eq; split.
  - intros [[-> ->] ->]; reflexivity.
  - intros [= -> -> ->]; auto.
Qed.

Lemma Key_eqb_refl (k : Key) : Key_eqb k k = true.
Proof. now apply Key_eqb_eq. Qed.

Lemma Key_eqb_neq (k1 k2 : Key) : Key_eqb k1 k2 = false <-> k1 <> k2.
Proof.
  rewrite <- Key_eqb_eq; destruct (Key_eqb k1 k2); split; intros H;
    try discriminate; try reflexivity; try (intros E; discriminate).
  now elim H.
Qed.

Lemma map_get_set_same (m : ColorCounts) (k : Key) (v : Z) :
  map_get (map_set m k v) k = Some v.
Proof.
  induction m as [| [k' v'] m IH]; cbn.
  - now rewrite Key_eqb_refl.
  - destruct (Key_eqb k k') eqn:E; cbn; rewrite E; [reflexivity | exact IH].
Qed.

Lemma map_get_set_other (m : ColorCounts) (k k' : Key) (v : Z) :
  k' <> k -> map_get (map_set m k v) k' = map_get m k'.
Proof.
  intros Hne; induction m as [| [k0 v0] m IH]; cbn.
  - apply Key_eqb_neq in Hne; now rewrite Hne.
  - destruct (Key_eqb k k0) eqn:E; cbn.
    + apply Key_eqb_eq in E; subst k0.
      apply Key_eqb_neq in Hne; now rewrite Hne.
    + destruct (Key_eqb k' k0); [reflexivity | exact IH].
Qed.

Lemma map_get_in_keys (m : ColorCounts) (k : Key) :
  In k (map fst m) <-> exists v, map_get m k = Some v.
Proof.
  induction m as [| [k' v'] m IH]; cbn.
  - split; [intros [] | intros [v H]; discriminate].
  - destruct (Key_eqb k k') eqn:E.
    + apply Key_eqb_eq in E; subst k'; split; [intros _; now exists v' | now left].
    + apply Key_eqb_neq in E; rewrite <- IH; split;
        [intros [H | H]; [congruence | exact H] | now right].
Qed.

Lemma keys_map_set_in (m : ColorCounts) (k : Key) (v : Z) :
  In k (map fst m) -> map fst (map_set m k v) = map fst m.
Proof.
  induction m as [| [k' v'] m IH]; cbn; [intros [] |].
  destruct (Key_eqb k k') eqn:E; cbn; [reflexivity |].
  apply Key_eqb_neq in E; intros [H | H]; [congruence | now rewrite IH].
Qed.

Lemma keys_map_set_notin (m : ColorCounts) (k : Key) (v : Z) :
  ~ In k (map fst m) -> map fst (map_set m k v) = map fst m ++ [k].
Proof.
  induction m as [| [k' v'] m IH]; cbn; [reflexivity |].
  intros Hn; destruct (Key_eqb k k') eqn:E; cbn.
  - apply Key_eqb_eq in E; subst k'; elim Hn; now left.
  - rewrite IH; [reflexivity | intros H; apply Hn; now right].
Qed.

Lemma in_map_get (m : ColorCounts) (k : Key) (v : Z) :
  NoDup (map fst m) -> In (k, v) m -> map_get m k = Some v.
Proof.
  induction m as [| [k' v'] m IH]; cbn; [intros _ [] |].
  intros Hnd [[= -> ->] | Hin].
  - now rewrite Key_eqb_refl.
  - inversion Hnd as [| ? ? Hn Hnd']; subst.
    destruct (Key_eqb k k') eqn:E; [| now apply IH].
    apply Key_eqb_eq in E; subst k'.
    elim Hn; apply in_map_iff; now exists (k, v).
Qed.

(** *** Counting a sequence of keys *)

Lemma tally_snoc (ks : list Key) (k : Key) :
  tally (ks ++ [k]) = bump (tally ks) k.
Proof. unfold tally; now rewrite fold_left_app. Qed.

Lemma countKey_snoc (k j : Key) (ks : list Key) :
  countKey k (ks ++ [j]) =
  (countKey k ks + if Key_eqb k j then 1 else 0)%Z.
Proof.
  unfold countKey; rewrite filter_app, length_app; cbn [filter].
  destruct (Key_eqb k j); cbn [length]; lia.
Qed.

Lemma countKey_pos_in (k : Key) (ks : list Key) :
  (0 < countKey k ks)%Z <-> In k ks.
Proof.
  unfold countKey; induction ks as [| j ks IH]; cbn [filter length].
  - split; [lia | intros []].
  - destruct (Key_eqb k j) eqn:E; cbn [length In].
    + apply Key_eqb_eq in E; subst j; split; [now left | lia].
    + apply Key_eqb_neq in E; rewrite IH; split;
        [now right | intros [H | H]; [congruence | exact H]].
Qed.

Lemma countKey_nonneg (k : Key) (ks : list Key) : (0 <= countKey k ks)%Z.
Proof. unfold countKey; lia. Qed.

(** The count stored under a key is the number of times it was counted;
    a key that was never counted is absent. *)
Lemma map_get_tally (ks : list Key) (k : Key) :
  map_get (tally ks) k =
  if (countKey k ks =? 0)%Z then None else Some (countKey k ks).
Proof.
  induction ks as [| j ks IH] using rev_ind; [reflexivity |].
  rewrite tally_snoc, countKey_snoc; unfold bump.
  destruct (Key_eqb k j) eqn:E.
  - apply Key_eqb_eq in E; subst j; rewrite map_get_set_same.
    unfold getOrZero; rewrite IH.
    pose proof (countKey_nonneg k ks).
    destruct (Z.eqb_spec (countKey k ks) 0) as [E0 | Hne].
    + rewrite E0; reflexivity.
    + destruct (Z.eqb_spec (countKey k ks + 1) 0); [lia | reflexivity].
  - apply Key_eqb_neq in E; rewrite map_get_set_other by exact E.
    now rewrite Z.add_0_r.
Qed.

Lemma keys_tally (ks : list Key) (k : Key) :
  In k (map fst (tally ks)) <-> In k ks.
Proof.
  rewrite map_get_in_keys, map_get_tally, <- countKey_pos_in.
  pose proof (countKey_nonneg k ks).
  destruct (Z.eqb_spec (countKey k ks) 0); split.
  - intros [v Hv]; discriminate.
  - lia.
  - lia.
  - intros _; now eexists.
Qed.

Lemma keys_tally_snoc (ks : list Key) (j : Key) :
  map fst (tally (ks ++ [j])) =
  map fst (tally ks) ++ (if countKey j ks =? 0 then [j] else [])%Z.
Proof.
  rewrite tally_snoc; unfold bump.
  pose proof (countKey_nonneg j ks).
  destruct (Z.eqb_spec (countKey j ks) 0) as [E | E].
  - apply keys_map_set_notin; rewrite keys_tally, <- countKey_pos_in; lia.
  - rewrite app_nil_r; apply keys_map_set_in.
    rewrite keys_tally, <- countKey_pos_in; lia.
Qed.

Lemma NoDup_keys_tally (ks : list Key) : NoDup (map fst (tally ks)).
Proof.
  induction ks as [| j ks IH] using rev_ind; [constructor |].
  rewrite keys_tally_snoc.
  destruct (Z.eqb_spec (countKey j ks) 0) as [E | E]; [| now rewrite app_nil_r].
  apply NoDup_app; [exact IH | repeat constructor; intros [] |].
  intros k Hk [<- | []].
  apply (proj1 (keys_tally ks j)) in Hk.
  apply (proj2 (countKey_pos_in j ks)) in Hk; lia.
Qed.

Lemma in_tally (ks : list Key) (k : Key) (n : Z) :
  In (k, n) (tally ks) -> n = countKey k ks /\ (0 < n)%Z.
Proof.
  intros Hin; apply (in_map_get _ _ _ (NoDup_keys_tally ks)) in Hin.
  rewrite map_get_tally in Hin.
  pose proof (countKey_nonneg k ks).
  destruct (Z.eqb_spec (countKey k ks) 0); [discriminate |].
  injection Hin as <-; lia.
Qed.

(** The keys are stored in the order in which they were first counted. *)
Lemma tally_order (ks : list Key) (F1 F2 : list Key) (k : Key) :
  map fst (tally ks) = F1 ++ k :: F2 ->
  exists pre post, ks = pre ++ k :: post /\ forall k', In k' pre -> In k' F1.
Proof.
  revert F1 F2 k; induction ks as [| j ks IH] using rev_ind; intros F1 F2 k.
  - cbn; intros H; destruct F1; discriminate.
  - rewrite keys_tally_snoc.
    destruct (Z.eqb_spec (countKey j ks) 0) as [E | E].
    + destruct F2 as [| x F2] using rev_ind.
      * intros H; apply app_inj_tail in H; destruct H as [H ->].
        exists ks, []; split; [reflexivity |].
        intros k' Hk'; rewrite <- H; now apply keys_tally.
      * clear IHF2; intros H.
        change (F1 ++ k :: F2 ++ [x]) with (F1 ++ (k :: F2) ++ [x]) in H.
        rewrite app_assoc in H; apply app_inj_tail in H; destruct H as [H _].
        destruct (IH _ _ _ H) as (pre & post & -> & Hpre).
        exists pre, (post ++ [j]); split; [| exact Hpre].
        now rewrite <- app_assoc.
    + rewrite app_nil_r; intros H.
      destruct (IH _ _ _ H) as (pre & post & -> & Hpre).
      exists pre, (post ++ [j]); split; [| exact Hpre].
      now rewrite <- app_assoc.
Qed.

(** *** The entry with the highest count *)

(** The loop over the entries keeps the first entry whose count is above
    every count before it and not below any count after it. *)
Lemma prominent_fold (m : ColorCounts) (best : option RGB) (mx : Z) :
  (Forall (fun e => (snd e <= mx)%Z) m /\
   fold_left prominentStep m (best, mx) = (best, mx)) \/
  (exists m1 k n m2,
      m = m1 ++ (k, n) :: m2 /\
      fold_left prominentStep m (best, mx) = (Some (keyColor k), n) /\
      (mx < n)%Z /\
      Forall (fun e => (snd e < n)%Z) m1 /\
      Forall (fun e => (snd e <= n)%Z) m2).
Proof.
  revert best mx; induction m as [| [k0 n0] m IH]; intros best mx.
  - left; split; [constructor | reflexivity].
  - cbn [fold_left].
    assert (Hstep : prominentStep (best, mx) (k0, n0) =
                    if (n0 >? mx)%Z then (Some (keyColor k0), n0) else (best, mx))
      by reflexivity.
    rewrite Hstep; clear Hstep.
    destruct (Z.gtb_spec n0 mx) as [Hgt | Hle].
    + destruct (IH (Some (keyColor k0)) n0) as [[Hall Hr] | (m1 & k & n & m2 & -> & Hr & Hn & H1 & H2)].
      * right; exists [], k0, n0, m; repeat split; auto.
      * right; exists ((k0, n0) :: m1), k, n, m2; repeat split; auto;
          try lia; try (constructor; [cbn; lia | exact H1]).
    + destruct (IH best mx) as [[Hall Hr] | (m1 & k & n & m2 & -> & Hr & Hn & H1 & H2)].
      * left; split; [constructor; [cbn; lia | exact Hall] | exact Hr].
      * right; exists ((k0, n0) :: m1), k, n, m2; repeat split; auto;
          try (constructor; [cbn; lia | exact H1]).
Qed.

(** On the counts of a sequence of keys: no key, or the key counted most
    often, the one counted first among those counted as often. *)
Lemma prominent_tally (ks : list Key) :
  (ks = [] /\ findProminent (tally ks) = None) \/
  (exists k, findProminent (tally ks) = Some (keyColor k) /\
             In k ks /\
             forall k', In k' ks ->
               (countKey k' ks <= countKey k ks)%Z /\
               (countKey k' ks = countKey k ks -> k' <> k ->
                exists pre post, ks = pre ++ k :: post /\ ~ In k' pre)).
Proof.
  unfold findProminent.
  destruct (prominent_fold (tally ks) None 0)
    as [[Hall Hr] | (m1 & k & n & m2 & Hm & Hr & Hn & H1 & H2)].
  - left; rewrite Hr; split; [| reflexivity].
    destruct ks as [| j ks]; [reflexivity | exfalso].
    assert (Hj : In j (map fst (tally (j :: ks)))) by (apply keys_tally; now left).
    apply in_map_iff in Hj; destruct Hj as ([k n] & <- & Hin).
    rewrite Forall_forall in Hall; specialize (Hall _ Hin).
    apply in_tally in Hin; cbn in Hall; lia.
  - right; exists k; rewrite Hr; split; [reflexivity |].
    assert (Hkeys : map fst (tally ks) = map fst m1 ++ k :: map fst m2)
      by (rewrite Hm, map_app; reflexivity).
    assert (Hk : n = countKey k ks).
    { apply (in_tally ks k n); rewrite Hm; apply in_elt. }
    assert (Hk1 : forall k', In k' (map fst m1) -> (countKey k' ks < n)%Z).
    { intros k' Hk'; apply in_map_iff in Hk'; destruct Hk' as ([k1 n1] & <- & Hin).
      rewrite Forall_forall in H1; specialize (H1 _ Hin); cbn in H1 |- *.
      assert (In (k1, n1) (tally ks)) as Ht by (rewrite Hm; apply in_or_app; now left).
      apply in_tally in Ht; lia. }
    assert (Hk2 : forall k', In k' (map fst m2) -> (countKey k' ks <= n)%Z).
    { intros k' Hk'; apply in_map_iff in Hk'; destruct Hk' as ([k2 n2] & <- & Hin).
      rewrite Forall_forall in H2; specialize (H2 _ Hin); cbn in H2 |- *.
      assert (In (k2, n2) (tally ks)) as Ht
        by (rewrite Hm; apply in_or_app; right; now right).
      apply in_tally in Ht; lia. }
    split.
    + apply keys_tally; rewrite Hkeys; apply in_elt.
    + intros k' Hk'; apply keys_tally in Hk'; rewrite Hkeys in Hk'.
      apply in_app_or in Hk'; split.
      * destruct Hk' as [Hk' | [-> | Hk']]; [apply Hk1 in Hk' | | apply Hk2 in Hk']; lia.
      * intros Heq Hne.
        destruct (tally_order ks _ _ _ Hkeys) as (pre & post & Hks & Hpre).
        exists pre, post; split; [exact Hks |].
        intros Hin; apply Hpre, Hk1 in Hin; lia.
Qed.

(** *** From keys back to colours *)

Lemma Reqb_eq (x y : R) : Reqb x y = true <-> x = y.
Proof.
  unfold Reqb; destruct (Req_dec_T x y); split; intros; auto; discriminate.
Qed.

Lemma num_eqb_eq (a b : num) : num_eqb a b = true <-> a = b.
Proof.
  destruct a as [| x], b as [| y]; cbn; split; intros H;
    try discriminate; try reflexivity.
  - apply Reqb_eq in H; now subst.
  - injection H as ->; now apply Reqb_eq.
Qed.

Lemma rgb_eqb_eq (c d : RGB) : rgb_eqb c d = true <-> c = d.
Proof.
  destruct c as [[c0 c1] c2], d as [[d0 d1] d2]; unfold rgb_eqb; cbn.
  rewrite !andb_true_iff, !num_eqb_eq; split.
  - intros [[-> ->] ->]; reflexivity.
  - intros [= -> -> ->]; auto.
Qed.

Lemma palette_cases (c : RGB) :
  In c ACTIVE_PALETTE -> c = c_blue \/ c = c_navy \/ c = c_yellow.
Proof. intros [<- | [<- | [<- | []]]]; auto. Qed.

Lemma key_blue : colorKeyOf c_blue = (Some 0%Z, Some 82%Z, Some 176%Z).
Proof. apply colorKeyOf_bytes. Qed.

Lemma key_navy : colorKeyOf c_navy = (Some 1%Z, Some 36%Z, Some 100%Z).
Proof. apply colorKeyOf_bytes. Qed.

Lemma key_yellow : colorKeyOf c_yellow = (Some 255%Z, Some 242%Z, Some 2%Z).
Proof. apply colorKeyOf_bytes. Qed.

(** Parsing the key of a palette colour gives the colour back. *)
Lemma keyColor_colorKeyOf (c : RGB) :
  In c ACTIVE_PALETTE -> keyColor (colorKeyOf c) = c.
Proof.
  intros H; destruct (palette_cases c H) as [-> | [-> | ->]];
    [rewrite key_blue | rewrite key_navy | rewrite key_yellow]; reflexivity.
Qed.

Lemma colorKeyOf_inj (c d : RGB) :
  In c ACTIVE_PALETTE -> In d ACTIVE_PALETTE ->
  colorKeyOf c = colorKeyOf d -> c = d.
Proof.
  intros Hc Hd E.
  rewrite <- (keyColor_colorKeyOf c Hc), <- (keyColor_colorKeyOf d Hd).
  now rewrite E.
Qed.

Lemma palette_background (c : RGB) :
  In c ACTIVE_PALETTE -> colorMatch c BACKGROUND_COLOR = true -> c = c_blue.
Proof.
  intros H; destruct (palette_cases c H) as [-> | [-> | ->]]; [reflexivity | |].
  - rewrite match_navy_background; discriminate.
  - rewrite match_yellow_background; discriminate.
Qed.

Lemma countColor_bump (m : ColorCounts) (c : RGB) :
  countColor m c =
  if negb (colorMatch c BACKGROUND_COLOR) then bump m (colorKeyOf c) else m.
Proof. reflexivity. Qed.

Lemma countCells_fold (cells : list RGB) (m : ColorCounts) :
  fold_left countColor cells m = fold_left bump (countedKeys cells) m.
Proof.
  revert m; induction cells as [| c cells IH]; intros m; [reflexivity |].
  cbn [fold_left]; rewrite IH, countColor_bump; unfold countedKeys; cbn [filter].
  destruct (negb (colorMatch c BACKGROUND_COLOR)); reflexivity.
Qed.

Lemma countCells_tally (cells : list RGB) :
  countCells cells = tally (countedKeys cells).
Proof. apply countCells_fold. Qed.

Lemma countedKeys_in (cells : list RGB) (k : Key) :
  In k (countedKeys cells) <->
  exists c, In c cells /\ colorMatch c BACKGROUND_COLOR = false /\ colorKeyOf c = k.
Proof.
  unfold countedKeys; rewrite in_map_iff; split.
  - intros (c & <- & Hc); apply filter_In in Hc; destruct Hc as [Hin Hb].
    exists c; repeat split; [exact Hin | now apply negb_true_iff in Hb].
  - intros (c & Hin & Hb & <-); exists c; split; [reflexivity |].
    apply filter_In; split; [exact Hin | now rewrite Hb].
Qed.

Lemma countedKeys_nil (cells : list RGB) :
  countedKeys cells = [] <->
  forall c, In c cells -> colorMatch c BACKGROUND_COLOR = true.
Proof.
  split.
  - intros E c Hin; destruct (colorMatch c BACKGROUND_COLOR) eqn:Hb; [reflexivity |].
    assert (In (colorKeyOf c) (countedKeys cells)) as H
      by (apply countedKeys_in; now exists c).
    rewrite E in H; destruct H.
  - intros H; destruct (countedKeys cells) as [| k ks] eqn:E; [reflexivity |].
    assert (In k (countedKeys cells)) as Hk by (rewrite E; now left).
    apply countedKeys_in in Hk; destruct Hk as (c & Hin & Hb & _).
    rewrite (H c Hin) in Hb; discriminate.
Qed.

(** A place in the sequence of keys is a place in the sequence of cells. *)
Lemma countedKeys_split (cells : list RGB) (pre post : list Key) (k : Key) :
  countedKeys cells = pre ++ k :: post ->
  exists pre' c post',
    cells = pre' ++ c :: post' /\ colorMatch c BACKGROUND_COLOR = false /\
    colorKeyOf c = k /\ countedKeys pre' = pre.
Proof.
  revert pre; induction cells as [| d cells IH]; intros pre.
  - cbn; intros H; destruct pre; discriminate.
  - unfold countedKeys; cbn [filter].
    destruct (colorMatch d BACKGROUND_COLOR) eqn:Hd; cbn [negb map].
    + intros H; destruct (IH pre H) as (pre' & c & post' & -> & Hc & Hk & Hpre).
      exists (d :: pre'), c, post'; repeat split; auto.
      unfold countedKeys; cbn [filter]; rewrite Hd; exact Hpre.
    + destruct pre as [| x pre]; cbn [app].
      * intros [= <- _]; exists [], d, cells; repeat split; auto.
      * intros [= <- H]; destruct (IH pre H) as (pre' & c & post' & -> & Hc & Hk & Hpre).
        exists (d :: pre'), c, post'; repeat split; auto.
        unfold countedKeys; cbn [filter]; rewrite Hd; cbn [negb map].
        f_equal; exact Hpre.
Qed.

(** For a palette colour that is not the background the count of its key
    is the number of cells of that colour. *)
Lemma countKey_occurrences (cells : list RGB) (c : RGB) :
  Forall (fun d => In d ACTIVE_PALETTE) cells -> In c ACTIVE_PALETTE ->
  colorMatch c BACKGROUND_COLOR = false ->
  countKey (colorKeyOf c) (countedKeys cells) = occurrences c cells.
Proof.
  intros Hall Hc Hb; unfold countKey, occurrences; f_equal.
  induction Hall as [| d cells Hd Hall IH]; [reflexivity |].
  unfold countedKeys in *; cbn [filter].
  destruct (colorMatch d BACKGROUND_COLOR) eqn:Hdb; cbn [negb map filter].
  - apply palette_background in Hdb; [subst d | exact Hd].
    replace (rgb_eqb c c_blue) with false; [exact IH |].
    symmetry; apply not_true_is_false; intros E; apply rgb_eqb_eq in E; subst c.
    rewrite match_blue_background in Hb; discriminate.
  - replace (Key_eqb (colorKeyOf c) (colorKeyOf d)) with (rgb_eqb c d).
    + destruct (rgb_eqb c d); cbn [length]; now rewrite IH.
    + apply eq_iff_eq_true; rewrite rgb_eqb_eq, Key_eqb_eq; split.
      * now intros ->.
      * now apply colorKeyOf_inj.
Qed.

(** ** The prominent colour *)

Section Prominence.

Variable cells : list RGB.
Hypothesis quantized : Forall (fun c => In c ACTIVE_PALETTE) cells.

Lemma cell_in_palette (c : RGB) : In c cells -> In c ACTIVE_PALETTE.
Proof. rewrite Forall_forall in quantized; apply quantized. Qed.

Lemma occurrences_pos_in (c : RGB) : (0 < occurrences c cells)%Z -> In c cells.
Proof.
  unfold occurrences; intros H.
  destruct (filter (rgb_eqb c) cells) as [| d l] eqn:E; [cbn in H; lia |].
  assert (In d (filter (rgb_eqb c) cells)) as Hd by (rewrite E; now left).
  apply filter_In in Hd; destruct Hd as [Hin Hd].
  apply rgb_eqb_eq in Hd; now subst d.
Qed.

(** Only cells that are not background are counted. *)
Lemma counts_of_cells (c : RGB) :
  In c ACTIVE_PALETTE ->
  map_get (countCells cells) (colorKeyOf c) =
  if colorMatch c BACKGROUND_COLOR || (occurrences c cells =? 0)%Z
  then None else Some (occurrences c cells).
Proof.
  intros Hc; rewrite countCells_tally, map_get_tally.
  destruct (colorMatch c BACKGROUND_COLOR) eqn:Hb; cbn [orb].
  - assert (E : countKey (colorKeyOf c) (countedKeys cells) = 0%Z).
    { pose proof (countKey_nonneg (colorKeyOf c) (countedKeys cells)) as H0.
      destruct (Z.eq_dec (countKey (colorKeyOf c) (countedKeys cells)) 0) as [E | E];
        [exact E | exfalso].
      assert (In (colorKeyOf c) (countedKeys cells)) as Hin
        by (apply countKey_pos_in; lia).
      apply countedKeys_in in Hin; destruct Hin as (d & Hd & Hdb & Hk).
      apply colorKeyOf_inj in Hk; [| now apply cell_in_palette | exact Hc].
      subst d; congruence. }
    now rewrite E.
  - now rewrite countKey_occurrences.
Qed.

Lemma prominent_none :
  findProminent (countCells cells) = None <->
  forall c, In c cells -> colorMatch c BACKGROUND_COLOR = true.
Proof.
  rewrite countCells_tally, <- countedKeys_nil.
  destruct (prominent_tally (countedKeys cells)) as [[E Hp] | (k & Hp & Hk & _)].
  - rewrite Hp; tauto.
  - rewrite Hp; split; [discriminate | intros E; rewrite E in Hk; destruct Hk].
Qed.

Lemma prominent_some (a : RGB) :
  findProminent (countCells cells) = Some a ->
  In a cells /\ colorMatch a BACKGROUND_COLOR = false /\
  forall b, In b cells -> colorMatch b BACKGROUND_COLOR = false ->
    (occurrences b cells <= occurrences a cells)%Z /\
    (occurrences b cells = occurrences a cells -> b <> a ->
     firstBefore a b cells).
Proof.
  rewrite countCells_tally.
  destruct (prominent_tally (countedKeys cells)) as [[E Hp] | (k & Hp & Hk & Hmax)];
    rewrite Hp; [discriminate | intros [= <-]].
  apply countedKeys_in in Hk; destruct Hk as (a & Ha & Hab & <-).
  pose proof (cell_in_palette a Ha) as Hpa.
  rewrite (keyColor_colorKeyOf a Hpa).
  split; [exact Ha | split; [exact Hab |]].
  intros b Hb Hbb; pose proof (cell_in_palette b Hb) as Hpb.
  assert (Hkb : In (colorKeyOf b) (countedKeys cells))
    by (apply countedKeys_in; now exists b).
  destruct (Hmax _ Hkb) as [Hle Htie].
  rewrite !countKey_occurrences in Hle, Htie by assumption.
  split; [exact Hle |].
  intros Heq Hne.
  destruct (Htie Heq) as (pre & post & Hks & Hpre).
  { intros E; apply Hne; now apply colorKeyOf_inj. }
  destruct (countedKeys_split _ _ _ _ Hks) as (pre' & c & post' & Hcells & Hcb & Hck & Hpre').
  assert (c = a) as ->.
  { apply colorKeyOf_inj; [apply cell_in_palette | exact Hpa | exact Hck].
    rewrite Hcells; apply in_elt. }
  exists pre', post'; split; [exact Hcells |].
  intros Hin; apply Hpre; rewrite <- Hpre'.
  apply countedKeys_in; now exists b.
Qed.

Lemma prominent_ten_three (A B : RGB) :
  colorMatch A BACKGROUND_COLOR = false ->
  colorMatch B BACKGROUND_COLOR = false ->
  occurrences A cells = 10%Z -> occurrences B cells = 3%Z ->
  (forall c, In c cells ->
             c = A \/ c = B \/ colorMatch c BACKGROUND_COLOR = true) ->
  findProminent (countCells cells) = Some A.
Proof.
  intros HA HB H10 H3 Hrest.
  assert (HinA : In A cells) by (apply occurrences_pos_in; lia).
  destruct (findProminent (countCells cells)) as [a |] eqn:Hp.
  - destruct (prominent_some a Hp) as (Ha & Hab & Hmax).
    destruct (Hrest a Ha) as [-> | [-> | Hbg]]; [reflexivity | | congruence].
    destruct (Hmax A HinA HA) as [Hle _]; lia.
  - rewrite (proj1 prominent_none Hp A HinA) in HA; discriminate.
Qed.

End Prominence.

(** C3.  The first pass counts the colours of the cells in their order, and
    every cell colour is a palette colour.  For every such sequence of
    cells: only cells that do not match the background are counted, each
    under its own colour; the prominent colour is null exactly when every
    cell matches the background; otherwise it is a colour of a cell that is
    not background, no other such colour occurs more often, and a colour
    that occurs as often is first met later in the order of the cells.  When
    A fills 10 cells, B fills 3 and the rest is background, it is A. *)
Theorem prominent_colour_analysis :
  (forall sd params cols rows,
      firstPass sd params cols rows =
        (gridColors sd params cols rows,
         countCells (concat (gridColors sd params cols rows))) /\
      Forall (fun c => In c ACTIVE_PALETTE)
             (concat (gridColors sd params cols rows))) /\
  (forall cells, Forall (fun c => In c ACTIVE_PALETTE) cells ->
     let prominent := findProminent (countCells cells) in
     (forall c, In c ACTIVE_PALETTE ->
        map_get (countCells cells) (colorKeyOf c) =
        if colorMatch c BACKGROUND_COLOR || (occurrences c cells =? 0)%Z
        then None else Some (occurrences c cells)) /\
     (prominent = None <->
      forall c, In c cells -> colorMatch c BACKGROUND_COLOR = true) /\
     (forall a, prominent = Some a ->
        In a cells /\ colorMatch a BACKGROUND_COLOR = false /\
        forall b, In b cells -> colorMatch b BACKGROUND_COLOR = false ->
          (occurrences b cells <= occurrences a cells)%Z /\
          (occurrences b cells = occurrences a cells -> b <> a ->
           firstBefore a b cells)) /\
     (forall A B,
        colorMatch A BACKGROUND_COLOR = false ->
        colorMatch B BACKGROUND_COLOR = false ->
        occurrences A cells = 10%Z -> occurrences B cells = 3%Z ->
        (forall c, In c cells ->
                   c = A \/ c = B \/ colorMatch c BACKGROUND_COLOR = true) ->
        prominent = Some A)).
Proof.
  split.
  - intros sd params cols rows; split;
      [apply firstPass_eq | apply gridColors_in_palette].
  - intros cells Hq prominent; subst prominent.
    split; [now apply counts_of_cells |].
    split; [now apply prominent_none |].
    split; [now apply prominent_some | now apply prominent_ten_three].
Qed.

Lemma rgb_eqb_refl (c : RGB) : rgb_eqb c c = true.
Proof. now apply rgb_eqb_eq. Qed.

Lemma rgb_eqb_yellow_navy : rgb_eqb c_yellow c_navy = false.
Proof.
  apply not_true_is_false; intros E; apply rgb_eqb_eq in E.
  injection E as E0 E1 E2; lra.
Qed.

Lemma rgb_eqb_yellow_blue : rgb_eqb c_yellow c_blue = false.
Proof.
  apply not_true_is_false; intros E; apply rgb_eqb_eq in E.
  injection E as E0 E1 E2; lra.
Qed.

Lemma rgb_eqb_navy_yellow : rgb_eqb c_navy c_yellow = false.
Proof.
  apply not_true_is_false; intros E; apply rgb_eqb_eq in E.
  injection E as E0 E1 E2; lra.
Qed.

Lemma rgb_eqb_navy_blue : rgb_eqb c_navy c_blue = false.
Proof.
  apply not_true_is_false; intros E; apply rgb_eqb_eq in E.
  injection E as E0 E1 E2; lra.
Qed.

Lemma prominent_colour_analysis_witness :
  findProminent
    (countCells
       [c_yellow; c_yellow; c_navy; c_blue;
        c_yellow; c_yellow; c_yellow; c_blue;
        c_navy; c_yellow; c_yellow; c_yellow;
        c_blue; c_yellow; c_navy; c_yellow])
  = Some c_yellow.
Proof.
  set (cells := [c_yellow; c_yellow; c_navy; c_blue;
                 c_yellow; c_yellow; c_yellow; c_blue;
                 c_navy; c_yellow; c_yellow; c_yellow;
                 c_blue; c_yellow; c_navy; c_yellow]).
  assert (Hq : Forall (fun c => In c ACTIVE_PALETTE) cells).
  { repeat (apply Forall_cons; [cbn [In ACTIVE_PALETTE]; tauto |]).
    apply Forall_nil. }
  destruct (proj2 prominent_colour_analysis cells Hq) as (_ & _ & _ & H4).
  apply (H4 c_yellow c_navy).
  - apply match_yellow_background.
  - apply match_navy_background.
  - unfold occurrences, cells; cbn [filter].
    rewrite !rgb_eqb_refl, !rgb_eqb_yellow_navy, !rgb_eqb_yellow_blue.
    reflexivity.
  - unfold occurrences, cells; cbn [filter].
    rewrite !rgb_eqb_refl, !rgb_eqb_navy_yellow, !rgb_eqb_navy_blue.
    reflexivity.
  - intros c Hc; cbn [In cells] in Hc.
    repeat (destruct Hc as [<- | Hc];
            [auto using match_blue_background |]).
    destruct Hc.
Defined.

(** ** Glyphs of the cells of a frame *)

Lemma match_blue_navy : colorMatch c_blue c_navy = false.
Proof. colormatch. Qed.

Lemma match_blue_yellow : colorMatch c_blue c_yellow = false.
Proof. colormatch. Qed.

(** Two palette colours match only when they are the same colour. *)
Lemma match_palette_eq (c p : RGB) :
  In c ACTIVE_PALETTE -> In p ACTIVE_PALETTE -> colorMatch c p = true -> c = p.
Proof.
  intros Hc Hp.
  destruct (palette_cases c Hc) as [-> | [-> | ->]];
    destruct (palette_cases p Hp) as [-> | [-> | ->]];
    try reflexivity; intros H; exfalso; revert H.
  - rewrite match_blue_navy; discriminate.
  - rewrite match_blue_yellow; discriminate.
  - change c_blue with BACKGROUND_COLOR; rewrite match_navy_background; discriminate.
  - rewrite match_navy_yellow; discriminate.
  - change c_blue with BACKGROUND_COLOR; rewrite match_yellow_background; discriminate.
  - rewrite match_yellow_navy; discriminate.
Qed.

Lemma get_map_range {A : Type} (f : Z -> A) (n i : Z) :
  (0 <= i < n)%Z -> get (map f (range n)) i = Some (f i).
Proof.
  intros H; unfold get, range.
  destruct (Z.ltb_spec i 0); [lia |].
  rewrite !nth_error_map, nth_error_seq.
  destruct (Nat.ltb_spec (Z.to_nat i) (Z.to_nat n)); [| lia].
  cbn; do 2 f_equal; lia.
Qed.

(** After the first pass every cell of the grid has its colour. *)
Lemma cellAt_gridColors (sd : ImageData) (params : KnitParams) (cols rows x y : Z) :
  (0 <= x < cols)%Z -> (0 <= y < rows)%Z ->
  cellAt (gridColors sd params cols rows) x y = Some (cellFinal sd params cols x y).
Proof.
  intros Hx Hy; unfold cellAt, gridColors.
  rewrite (get_map_range _ rows y Hy).
  exact (get_map_range (fun x0 => cellFinal sd params cols x0 y) cols x Hx).
Qed.

(** A cell that matches the prominent colour of its frame is not a
    background cell. *)
Lemma prominent_cell_not_background (sd : ImageData) (params : KnitParams)
    (cols rows x y : Z) (p : RGB) :
  findProminent (snd (firstPass sd params cols rows)) = Some p ->
  colorMatch (cellFinal sd params cols x y) p = true ->
  colorMatch (cellFinal sd params cols x y) BACKGROUND_COLOR = false.
Proof.
  rewrite firstPass_eq; cbn [snd]; intros Hp Hm.
  pose proof (gridColors_in_palette sd params cols rows) as Hq.
  destruct (prominent_some _ Hq p Hp) as (Hin & Hb & _).
  rewrite Forall_forall in Hq.
  rewrite (match_palette_eq _ p (cellFinal_in_palette sd params cols x y) (Hq p Hin) Hm).
  exact Hb.
Qed.

(** C4.  For every cell (x, y) of the grid of a frame that is not flagged
    as an edge, or when edgeCrispness is 0: the cell has the colour c the
    first pass gave it; if c matches the background no call is made for the
    cell; if c matches the prominent colour the cell is drawn as a circle
    when (x + y) mod 2 = 0 and as a square when (x + y) mod 2 = 1; every
    other cell is drawn as a diamond.  The glyph is drawn in the colour c
    at the centre of the cell, and Math.random is not called. *)
Theorem glyph_of_deterministic_cell (random : nat -> R) (params : KnitParams)
    (sd : ImageData) (cols rows : Z) (edgeMap : list (list bool))
    (cellWidth cellHeight glyphSize : R) (x y : Z) (n : nat) :
  (0 <= x < cols)%Z -> (0 <= y < rows)%Z ->
  isEdgeAt edgeMap x y = false \/ edgeCrispness params = 0 ->
  let cellColors := fst (firstPass sd params cols rows) in
  let prominentColor := findProminent (snd (firstPass sd params cols rows)) in
  let c := cellFinal sd params cols x y in
  let cx := (IZR x + 0.5) * cellWidth in
  let cy := (IZR y + 0.5) * cellHeight in
  let out := secondPassCell random params cellColors edgeMap prominentColor
                            cellWidth cellHeight glyphSize x y n in
  let isProminent := exists p, prominentColor = Some p /\ colorMatch c p = true in
  cellAt cellColors x y = Some c /\
  (colorMatch c BACKGROUND_COLOR = true -> out = ([], n)) /\
  (isProminent -> ((x + y) mod 2 = 0)%Z ->
   out = (fillStyleOf c :: drawGlyph circle cx cy glyphSize, n)) /\
  (isProminent -> ((x + y) mod 2 = 1)%Z ->
   out = (fillStyleOf c :: drawGlyph square cx cy glyphSize, n)) /\
  (colorMatch c BACKGROUND_COLOR = false -> ~ isProminent ->
   out = (fillStyleOf c :: drawGlyph diamond cx cy glyphSize, n)).
Proof.
  intros Hx Hy Hdet cellColors prominentColor c cx cy out isProminent.
  assert (Hc : cellAt cellColors x y = Some c).
  { subst cellColors c; rewrite firstPass_eq; now apply cellAt_gridColors. }
  split; [exact Hc |].
  subst out isProminent.
  rewrite (secondPassCell_deterministic _ _ _ _ _ _ _ _ _ _ _ _ Hc Hdet).
  subst cx cy c prominentColor cellColors.
  repeat split.
  - now intros ->.
  - intros (p & Hp & Hm) Hmod.
    rewrite (prominent_cell_not_background _ _ _ _ _ _ _ Hp Hm).
    unfold baseGlyph; rewrite Hp, Hm.
    rewrite rem2_of_mod by lia. now rewrite Hmod.
  - intros (p & Hp & Hm) Hmod.
    rewrite (prominent_cell_not_background _ _ _ _ _ _ _ Hp Hm).
    unfold baseGlyph; rewrite Hp, Hm.
    rewrite rem2_of_mod by lia. now rewrite Hmod.
  - intros -> Hn; unfold baseGlyph.
    destruct (findProminent (snd (firstPass sd params cols rows))) as [p |];
      [| reflexivity].
    destruct (colorMatch (cellFinal sd params cols x y) p) eqn:Hm; [| reflexivity].
    exfalso; apply Hn; now exists p.
Qed.

Lemma glyph_of_deterministic_cell_witness :
  let params :=
    {| stitchPx := 200; paletteMix := 1; dither := 0; contrast := 1;
       saturation := 1; edgeCrispness := 0.2; showGridLines := false |} in
  secondPassCell (fun _ => 0) params (fst (firstPass yellowPixel params 1 1))
    (detectEdges yellowPixel 1 1)
    (findProminent (snd (firstPass yellowPixel params 1 1)))
    150 150 120 0 0 0%nat
  = (fillStyleOf c_yellow ::
     drawGlyph circle ((0 + 0.5) * 150) ((0 + 0.5) * 150) 120, 0%nat).
Proof.
  intros params.
  assert (Hid : contrast params = 1 /\ saturation params = 1 /\ dither params <= 0)
    by (cbn; lra).
  destruct Hid as (Hc & Hs & Hd).
  pose proof (glyph_of_deterministic_cell (fun _ => 0) params yellowPixel 1 1
                (detectEdges yellowPixel 1 1) 150 150 120 0 0 0%nat
                ltac:(lia) ltac:(lia)
                (or_introl (f_equal (fun m => isEdgeAt m 0 0) detectEdges_yellowPixel)))
    as H.
  cbv zeta in H; destruct H as (_ & _ & Hcircle & _).
  rewrite (cellFinal_yellowPixel params Hc Hs Hd) in Hcircle.
  apply Hcircle; [| reflexivity].
  exists c_yellow; split; [| apply match_yellow_yellow].
  now rewrite (firstPass_yellowPixel params Hc Hs Hd).
Defined.

(** * Further properties of the code *)

(** ** More on the Bayer matrix and dithering *)

Lemma rem4_shift (x : Z) : (0 <= x)%Z -> rem (x + 4) 4 = rem x 4.
Proof.
  intros H; unfold rem.
  rewrite !Z.rem_mod_nonneg by lia.
  replace (x + 4)%Z with (x + 1 * 4)%Z by lia. apply Z_mod_plus_full.
Qed.

(** X1.  bayer4 has period 4 in each axis on coordinates that are not
    negative, and so has applyDither. *)
Theorem bayer4_periodic (x y : Z) :
  ((0 <= x)%Z -> bayer4 (x + 4) y = bayer4 x y) /\
  ((0 <= y)%Z -> bayer4 x (y + 4) = bayer4 x y) /\
  ((0 <= x)%Z -> (0 <= y)%Z -> forall c amount,
     applyDither c amount (x + 4) y = applyDither c amount x y /\
     applyDither c amount x (y + 4) = applyDither c amount x y).
Proof.
  assert (Hx : (0 <= x)%Z -> bayer4 (x + 4) y = bayer4 x y).
  { intros H; unfold bayer4, bayer4_index; now rewrite rem4_shift. }
  assert (Hy : (0 <= y)%Z -> bayer4 x (y + 4) = bayer4 x y).
  { intros H; unfold bayer4, bayer4_index; now rewrite rem4_shift. }
  split; [exact Hx | split; [exact Hy |]].
  intros H0 H1 c amount; unfold applyDither.
  now rewrite (Hx H0), (Hy H1).
Qed.

Lemma bayer4_periodic_witness :
  bayer4 (3 + 4) 2 = bayer4 3 2 /\ bayer4 3 (2 + 4) = bayer4 3 2.
Proof.
  destruct (bayer4_periodic 3 2) as (Hx & Hy & _).
  split; [apply Hx | apply Hy]; lia.
Defined.

Lemma add_NaN_r (a : num) : (a + NaN)%num = NaN.
Proof. now destruct a. Qed.

Lemma mul_NaN_r (a : num) : (a * NaN)%num = NaN.
Proof. now destruct a. Qed.

Lemma sub_NaN_r (a : num) : (a - NaN)%num = NaN.
Proof. now destruct a. Qed.

(** X2.  Left of the origin the lookup leaves the table.  For x < 0 that is
    not a multiple of 4, on a row y >= 0 that is a multiple of 4, bayer4
    reads a negative index and is undefined, and a dither of positive
    amount turns every channel into NaN. *)
Theorem bayer4_negative_undefined (x y : Z) (c : RGB) (amount : R) :
  (x < 0)%Z -> rem x 4 <> 0%Z -> (0 <= y)%Z -> rem y 4 = 0%Z -> 0 < amount ->
  (bayer4_index x y < 0)%Z /\
  bayer4 x y = NaN /\
  applyDither c (Fin amount) x y = (NaN, NaN, NaN).
Proof.
  intros Hx Hr Hy Hy0 Ha.
  assert (Hi : (bayer4_index x y < 0)%Z).
  { unfold bayer4_index; rewrite Hy0; unfold rem in *.
    pose proof (Z.rem_bound_pos (- x) 4 ltac:(lia) ltac:(lia)) as Hb.
    rewrite Z.rem_opp_l in Hb by lia. lia. }
  assert (Hb : bayer4 x y = NaN).
  { unfold bayer4, getNum, get. destruct (Z.ltb_spec (bayer4_index x y) 0); [reflexivity | lia]. }
  split; [exact Hi | split; [exact Hb |]].
  unfold applyDither; cbn [leb cmp]; rewrite Rleb_false by lra.
  rewrite Hb; cbn [sub mul lift2]. now rewrite !add_NaN_r.
Qed.

Lemma bayer4_negative_undefined_witness :
  bayer4 (-1) 0 = NaN /\
  applyDither c_yellow (Fin 0.3) (-1) 0 = (NaN, NaN, NaN).
Proof.
  destruct (bayer4_negative_undefined (-1) 0 c_yellow 0.3) as (_ & H1 & H2);
    try lia; try lra; [cbn; lia | reflexivity |].
  now split.
Defined.

(** The clamp moves a value of [0, 1] by no more than the offset added. *)
Lemma clamp01_offset (v d : R) :
  0 <= v <= 1 ->
  clamp01 (Fin v + Fin d) = Fin (Rmax 0 (Rmin 1 (v + d))) /\
  Rabs (Rmax 0 (Rmin 1 (v + d)) - v) <= Rabs d.
Proof.
  intros Hv; split; [reflexivity |].
  unfold Rmax, Rmin, Rabs.
  destruct (Rle_dec 1 (v + d)); destruct (Rle_dec 0 _);
    repeat destruct (Rcase_abs _); lra.
Qed.

(** X3.  A dither of amount a in (0, 1] at coordinates x, y >= 0 keeps every
    channel of a colour of [0, 1] in [0, 1] and moves it by at most 0.05 a,
    up to the rounding margin. *)
Theorem applyDither_offset_bound (r g b amount : R) (x y : Z) :
  0 <= r <= 1 -> 0 <= g <= 1 -> 0 <= b <= 1 ->
  0 < amount <= 1 -> (0 <= x)%Z -> (0 <= y)%Z ->
  exists r' g' b',
    applyDither (Fin r, Fin g, Fin b) (Fin amount) x y = (Fin r', Fin g', Fin b') /\
    (0 <= r' <= 1 /\ 0 <= g' <= 1 /\ 0 <= b' <= 1) /\
    Rabs (r' - r) <= 0.05 * amount + roundingMargin /\
    Rabs (g' - g) <= 0.05 * amount + roundingMargin /\
    Rabs (b' - b) <= 0.05 * amount + roundingMargin.
Proof.
  intros Hr Hg Hb Ha Hx Hy.
  destruct (bayer4_in_bounds_aux x y Hx Hy) as (v & Hv & _ & _ & Hvb).
  unfold applyDither; cbn [leb cmp]; rewrite Rleb_false by lra.
  rewrite Hv; cbn [ch0 ch1 ch2 fst snd sub mul lift2].
  set (d := (v - 0.5) * amount * 0.1).
  assert (Hd : Rabs d <= 0.05 * amount).
  { unfold d, Rabs; destruct (Rcase_abs _); nra. }
  destruct (clamp01_offset r d Hr) as [Er Br].
  destruct (clamp01_offset g d Hg) as [Eg Bg].
  destruct (clamp01_offset b d Hb) as [Eb Bb].
  rewrite Er, Eg, Eb.
  assert (Hu : forall t, 0 <= Rmax 0 (Rmin 1 t) <= 1).
  { intros t; unfold Rmax, Rmin.
    destruct (Rle_dec 1 t); destruct (Rle_dec 0 _); lra. }
  do 3 eexists; split; [reflexivity |].
  split; [repeat split; apply Hu |].
  unfold roundingMargin; repeat split; lra.
Qed.

Lemma applyDither_offset_bound_witness :
  exists r' g' b',
    applyDither (Fin 0.2, Fin 0.99, Fin 0) (Fin 0.3) 1 2 = (Fin r', Fin g', Fin b') /\
    (0 <= r' <= 1 /\ 0 <= g' <= 1 /\ 0 <= b' <= 1) /\
    Rabs (r' - 0.2) <= 0.05 * 0.3 + roundingMargin /\
    Rabs (g' - 0.99) <= 0.05 * 0.3 + roundingMargin /\
    Rabs (b' - 0) <= 0.05 * 0.3 + roundingMargin.
Proof.
  apply (applyDither_offset_bound 0.2 0.99 0 0.3 1 2); try lra; lia.
Defined.

(** ** More on contrast and saturation *)

Lemma clamp_mono (u v : R) :
  u <= v -> Rmax 0 (Rmin 1 u) <= Rmax 0 (Rmin 1 v).
Proof.
  intros H; unfold Rmax, Rmin.
  destruct (Rle_dec 1 u); destruct (Rle_dec 1 v);
    repeat destruct (Rle_dec 0 _); lra.
Qed.

Lemma clamp_id (v : R) : 0 <= v <= 1 -> Rmax 0 (Rmin 1 v) = v.
Proof.
  intros H; unfold Rmax, Rmin.
  destruct (Rle_dec 1 v); destruct (Rle_dec 0 _); lra.
Qed.

Lemma applyContrast_Fin (r g b k : R) :
  k <> 1 ->
  applyContrast (Fin r, Fin g, Fin b) (Fin k) =
  (Fin (Rmax 0 (Rmin 1 ((r - 0.5) * k + 0.5))),
   Fin (Rmax 0 (Rmin 1 ((g - 0.5) * k + 0.5))),
   Fin (Rmax 0 (Rmin 1 ((b - 0.5) * k + 0.5)))).
Proof.
  intros H; unfold applyContrast; cbn [eqb cmp].
  now rewrite Reqb_false by lra.
Qed.

Lemma applyContrast_one (c : RGB) : applyContrast c (Fin 1) = c.
Proof. unfold applyContrast; cbn [eqb cmp]. now rewrite Reqb_true by lra. Qed.

(** X4.  A contrast k >= 0 keeps the order of the channels of a colour: a
    channel that is not above another before is not above it after.  Every
    contrast leaves the mid grey [0.5, 0.5, 0.5] as it is. *)
Theorem applyContrast_order_midgrey (r g b k : R) :
  (0 <= k ->
   forall i j, (i < 3)%nat -> (j < 3)%nat ->
     val (channel i (Fin r, Fin g, Fin b)) <= val (channel j (Fin r, Fin g, Fin b)) ->
     isNumber (channel i (applyContrast (Fin r, Fin g, Fin b) (Fin k))) /\
     isNumber (channel j (applyContrast (Fin r, Fin g, Fin b) (Fin k))) /\
     val (channel i (applyContrast (Fin r, Fin g, Fin b) (Fin k)))
       <= val (channel j (applyContrast (Fin r, Fin g, Fin b) (Fin k)))) /\
  applyContrast (Fin 0.5, Fin 0.5, Fin 0.5) (Fin k) = (Fin 0.5, Fin 0.5, Fin 0.5).
Proof.
  split.
  - intros Hk i j Hi Hj.
    destruct (Req_dec_T k 1) as [-> | Hne].
    + rewrite applyContrast_one.
      destruct i as [| [| [| i]]]; [| | | lia];
        destruct j as [| [| [| j]]]; try lia; cbn;
        intros H; (split; [eexists; reflexivity | split; [eexists; reflexivity | exact H]]).
    + rewrite (applyContrast_Fin r g b k Hne).
      destruct i as [| [| [| i]]]; [| | | lia];
        destruct j as [| [| [| j]]]; try lia; cbn;
        intros H; (split; [eexists; reflexivity | split; [eexists; reflexivity |]]);
        apply clamp_mono; nra.
  - destruct (Req_dec_T k 1) as [-> | Hne]; [apply applyContrast_one |].
    rewrite (applyContrast_Fin _ _ _ k Hne).
    replace ((0.5 - 0.5) * k + 0.5) with 0.5 by ring.
    now rewrite clamp_id by lra.
Qed.

Lemma applyContrast_order_midgrey_witness :
  val (channel 2 (applyContrast (Fin 0.9, Fin 0.4, Fin 0.1) (Fin 1.5)))
    <= val (channel 0 (applyContrast (Fin 0.9, Fin 0.4, Fin 0.1) (Fin 1.5))).
Proof.
  destruct (applyContrast_order_midgrey 0.9 0.4 0.1 1.5) as [H _].
  apply (H ltac:(lra) 2%nat 0%nat ltac:(lia) ltac:(lia)). cbn; lra.
Defined.

Lemma applySaturation_Fin (r g b s : R) :
  s <> 1 ->
  applySaturation (Fin r, Fin g, Fin b) (Fin s) =
  let luma := 0.2126 * r + 0.7152 * g + 0.0722 * b in
  (Fin (Rmax 0 (Rmin 1 (luma + (r - luma) * s))),
   Fin (Rmax 0 (Rmin 1 (luma + (g - luma) * s))),
   Fin (Rmax 0 (Rmin 1 (luma + (b - luma) * s)))).
Proof.
  intros H; unfold applySaturation; cbn [eqb cmp].
  now rewrite Reqb_false by lra.
Qed.

(** X5.  On a colour of [0, 1] saturation 0 gives the grey of the luminance,
    clamped, in all three channels.  A grey [v, v, v] of [0, 1] stays a
    grey under every saturation of [0, 2], the range of the slider, and
    its value stays v up to the rounding margin. *)
Theorem applySaturation_grey (r g b v s : R) :
  (0 <= r <= 1 -> 0 <= g <= 1 -> 0 <= b <= 1 ->
   let luma := 0.2126 * r + 0.7152 * g + 0.0722 * b in
   applySaturation (Fin r, Fin g, Fin b) (Fin 0) =
   (Fin (Rmax 0 (Rmin 1 luma)), Fin (Rmax 0 (Rmin 1 luma)),
    Fin (Rmax 0 (Rmin 1 luma)))) /\
  (0 <= v <= 1 -> 0 <= s <= 2 ->
   exists w,
     applySaturation (Fin v, Fin v, Fin v) (Fin s) = (Fin w, Fin w, Fin w) /\
     Rabs (w - v) <= roundingMargin).
Proof.
  split.
  - intros _ _ _.
    rewrite applySaturation_Fin by lra; cbv zeta.
    set (luma := 0.2126 * r + 0.7152 * g + 0.0722 * b).
    replace (luma + (r - luma) * 0) with luma by ring.
    replace (luma + (g - luma) * 0) with luma by ring.
    replace (luma + (b - luma) * 0) with luma by ring.
    reflexivity.
  - intros Hv _; exists v; split.
    + destruct (Req_dec_T s 1) as [-> | Hne].
      * unfold applySaturation; cbn [eqb cmp]. now rewrite Reqb_true by lra.
      * rewrite applySaturation_Fin by exact Hne; cbv zeta.
        replace (0.2126 * v + 0.7152 * v + 0.0722 * v) with v by lra.
        replace (v + (v - v) * s) with v by ring.
        now rewrite clamp_id by lra.
    + replace (v - v) with 0 by ring; rewrite Rabs_R0.
      unfold roundingMargin; lra.
Qed.

Lemma applySaturation_grey_witness :
  exists w,
    applySaturation (Fin 0.25, Fin 0.25, Fin 0.25) (Fin 1.7) = (Fin w, Fin w, Fin w) /\
    Rabs (w - 0.25) <= roundingMargin.
Proof.
  destruct (applySaturation_grey 0 0 0 0.25 1.7) as [_ H]. apply H; lra.
Defined.

(** ** Luminance *)

(** X6.  The luminance of a colour of [0, 1] is in [0, 1]; the luminance of a
    grey [v, v, v] of [0, 1] is v up to the rounding margin; and green
    weighs more than red, red more than blue. *)
Theorem luminance_range (r g b v : R) :
  (0 <= r <= 1 -> 0 <= g <= 1 -> 0 <= b <= 1 ->
   exists l, luminanceFromRGB (Fin r, Fin g, Fin b) = Fin l /\ 0 <= l <= 1) /\
  (0 <= v <= 1 ->
   exists l, luminance (Fin v) (Fin v) (Fin v) = Fin l /\
             Rabs (l - v) <= roundingMargin) /\
  (exists lr lg lb,
      luminance (Fin 1) (Fin 0) (Fin 0) = Fin lr /\
      luminance (Fin 0) (Fin 1) (Fin 0) = Fin lg /\
      luminance (Fin 0) (Fin 0) (Fin 1) = Fin lb /\ lb < lr < lg).
Proof.
  split; [| split].
  - intros Hr Hg Hb; eexists; split; [reflexivity | lra].
  - intros _; exists v; split.
    + unfold luminance; cbn; f_equal; lra.
    + replace (v - v) with 0 by ring; rewrite Rabs_R0.
      unfold roundingMargin; lra.
  - do 3 eexists; repeat split; try reflexivity; lra.
Qed.

Lemma luminance_range_witness :
  (exists l, luminanceFromRGB (Fin 1, Fin 0.5, Fin 0) = Fin l /\ 0 <= l <= 1) /\
  (exists l, luminance (Fin 0.625) (Fin 0.625) (Fin 0.625) = Fin l /\
             Rabs (l - 0.625) <= roundingMargin).
Proof.
  destruct (luminance_range 1 0.5 0 0.625) as (H1 & H2 & _).
  split; [apply H1; lra | apply H2; lra].
Defined.

(** ** More on distances and quantization *)

Lemma Rpower_unit (x e : R) : 0 < x <= 1 -> 0 < e -> 0 < Rpower x e <= 1.
Proof.
  intros [H0 H1] He; unfold Rpower; split; [apply exp_pos |].
  rewrite <- exp_0.
  destruct (Req_dec_T x 1) as [-> | Hne].
  - rewrite ln_1, Rmult_0_r; lra.
  - left; apply exp_increasing.
    assert (ln x < 0) by (rewrite <- ln_1; apply ln_increasing; lra).
    nra.
Qed.

Lemma srgbToLinear_unit_aux (x : R) :
  0 <= x <= 1 -> exists v, srgbToLinear (Fin x) = Fin v /\ 0 <= v <= 1.
Proof.
  intros Hx; destruct (Rle_dec x 0.04045) as [H | H].
  - rewrite srgbToLinear_low by exact H. eexists; split; [reflexivity | lra].
  - rewrite srgbToLinear_high by lra. eexists; split; [reflexivity |].
    assert (0 < (x + 0.055) / 1.055 <= 1) as Hb by lra.
    pose proof (Rpower_unit _ 2.4 Hb ltac:(lra)); lra.
Qed.

(** X7.  srgbToLinear maps [0, 1] into [0, 1], 0 to 0 and 1 to 1. *)
Theorem srgbToLinear_unit (x : R) :
  (0 <= x <= 1 -> exists v, srgbToLinear (Fin x) = Fin v /\ 0 <= v <= 1) /\
  srgbToLinear (Fin 0) = Fin 0 /\
  srgbToLinear (Fin 1) = Fin 1.
Proof.
  split; [| split].
  - apply srgbToLinear_unit_aux.
  - rewrite srgbToLinear_low by lra. f_equal; lra.
  - rewrite srgbToLinear_high by lra.
    replace ((1 + 0.055) / 1.055) with 1 by lra.
    unfold Rpower. now rewrite ln_1, Rmult_0_r, exp_0.
Qed.

Lemma srgbToLinear_unit_witness :
  exists v, srgbToLinear (Fin 0.5) = Fin v /\ 0 <= v <= 1.
Proof.
  destruct (srgbToLinear_unit 0.5) as [H _]. apply H; lra.
Defined.

Lemma toLinear_unit (x y z : R) :
  0 <= x <= 1 -> 0 <= y <= 1 -> 0 <= z <= 1 ->
  exists u v w, toLinear (Fin x, Fin y, Fin z) = (Fin u, Fin v, Fin w) /\
                0 <= u <= 1 /\ 0 <= v <= 1 /\ 0 <= w <= 1.
Proof.
  intros Hx Hy Hz.
  destruct (srgbToLinear_unit_aux x Hx) as (u & Hu & Bu).
  destruct (srgbToLinear_unit_aux y Hy) as (v & Hv & Bv).
  destruct (srgbToLinear_unit_aux z Hz) as (w & Hw & Bw).
  exists u, v, w; unfold toLinear; cbn [ch0 ch1 ch2 fst snd].
  now rewrite Hu, Hv, Hw.
Qed.

(** X8.  Between two colours of [0, 1] colorDistance is a number between 0
    and the square root of 3; it is symmetric, and 0 from a colour to
    itself. *)
Theorem colorDistance_metric (x y z x' y' z' : R) :
  let a : RGB := (Fin x, Fin y, Fin z) in
  let b : RGB := (Fin x', Fin y', Fin z') in
  rgbInUnit a -> rgbInUnit b ->
  (exists d, colorDistance a b = Fin d /\ 0 <= d <= sqrt 3) /\
  colorDistance a b = colorDistance b a /\
  colorDistance a a = Fin 0.
Proof.
  intros a b; subst a b.
  intros (Hx & Hy & Hz) (Hx' & Hy' & Hz'); cbn in Hx, Hy, Hz, Hx', Hy', Hz'.
  destruct (toLinear_unit x y z Hx Hy Hz) as (u & v & w & Hu & Bu & Bv & Bw).
  destruct (toLinear_unit x' y' z' Hx' Hy' Hz') as (u' & v' & w' & Hu' & Bu' & Bv' & Bw').
  split; [| split].
  - rewrite (colorDistance_linear _ _ _ _ _ _ _ _ Hu Hu').
    eexists; split; [reflexivity | split; [apply sqrt_pos |]].
    apply sqrt_le_1_alt.
    assert ((u - u') * (u - u') <= 1) by nra.
    assert ((v - v') * (v - v') <= 1) by nra.
    assert ((w - w') * (w - w') <= 1) by nra.
    lra.
  - rewrite (colorDistance_linear _ _ _ _ _ _ _ _ Hu Hu').
    rewrite (colorDistance_linear _ _ _ _ _ _ _ _ Hu' Hu).
    do 2 f_equal; ring.
  - apply colorDistance_self.
Qed.

Lemma colorDistance_metric_witness :
  exists d, colorDistance (Fin 0.5, Fin 0.5, Fin 0.5) c_yellow = Fin d /\
            0 <= d <= sqrt 3.
Proof.
  destruct (colorDistance_metric 0.5 0.5 0.5 (0xFF / 255) (0xF2 / 255) (0x02 / 255))
    as (H & _ & _); [repeat split; cbn; lra | repeat split; cbn; lra | exact H].
Defined.

Lemma srgbToLinear_NaN : srgbToLinear NaN = NaN.
Proof. reflexivity. Qed.

Lemma colorDistance_NaN (c p : RGB) : hasNaN c -> colorDistance c p = NaN.
Proof.
  destruct c as [[c0 c1] c2]; unfold hasNaN; cbn [ch0 ch1 ch2 fst snd].
  unfold colorDistance, toLinear; cbn [ch0 ch1 ch2 fst snd].
  intros [-> | [-> | ->]]; rewrite srgbToLinear_NaN.
  - reflexivity.
  - cbn [sub lift2 mul]. now rewrite add_NaN_r.
  - cbn [sub lift2 mul]. now rewrite add_NaN_r.
Qed.

Lemma nearestStep_NaN (c p q : RGB) (m : option R) :
  hasNaN c -> nearestStep c (m, q) p = (m, q).
Proof.
  intros H; unfold nearestStep; now rewrite (colorDistance_NaN c p H).
Qed.

Lemma nearestBrandColor_NaN_aux (c : RGB) :
  hasNaN c -> nearestBrandColor c = c_blue.
Proof.
  intros H; unfold nearestBrandColor, nearestIn, ACTIVE_PALETTE.
  cbn [fold_left nth]. now rewrite !(nearestStep_NaN c _ _ _ H).
Qed.

(** X9.  A colour with a channel that is NaN is quantized to the first colour
    of the palette, the blue [#0052B0]: no distance to it is below
    Infinity. *)
Theorem nearestBrandColor_NaN (c : RGB) :
  hasNaN c ->
  (forall p, colorDistance c p = NaN) /\
  nearestBrandColor c = c_blue /\
  nearestBrandColor c = BACKGROUND_COLOR.
Proof.
  intros H; split; [intros p; now apply colorDistance_NaN |].
  split; exact (nearestBrandColor_NaN_aux c H).
Qed.

Lemma nearestBrandColor_NaN_witness :
  nearestBrandColor (Fin 1, NaN, Fin 0) = c_blue.
Proof.
  apply (nearestBrandColor_NaN (Fin 1, NaN, Fin 0)). right; left; reflexivity.
Defined.

Lemma Rltb_false_iff (x y : R) : Rltb x y = false <-> y <= x.
Proof.
  unfold Rltb; destruct (Rlt_dec x y); split; intros; try discriminate;
    try reflexivity; lra.
Qed.

Lemma colorDistance_finite (x y z : R) (p : RGB) :
  In p ACTIVE_PALETTE ->
  exists d, colorDistance (Fin x, Fin y, Fin z) p = Fin d.
Proof.
  intros Hp; destruct (toLinear_finite x y z) as (a0 & a1 & a2 & Ha).
  assert (Hfin : exists u v w, p = (Fin u, Fin v, Fin w)).
  { destruct (palette_cases p Hp) as [-> | [-> | ->]]; do 3 eexists; reflexivity. }
  destruct Hfin as (u & v & w & ->).
  destruct (toLinear_finite u v w) as (b0 & b1 & b2 & Hb).
  eexists; apply (colorDistance_linear _ _ _ _ _ _ _ _ Ha Hb).
Qed.

(** X10.  For a colour with finite channels nearestBrandColor returns a
    palette colour at the least distance, and of several at the least
    distance the one that comes first in the palette. *)
Theorem nearestBrandColor_minimal (x y z : R) :
  let c : RGB := (Fin x, Fin y, Fin z) in
  (exists d0 d1 d2,
      colorDistance c c_blue = Fin d0 /\
      colorDistance c c_navy = Fin d1 /\
      colorDistance c c_yellow = Fin d2 /\
      (nearestBrandColor c = c_blue /\ d0 <= d1 /\ d0 <= d2 \/
       nearestBrandColor c = c_navy /\ d1 < d0 /\ d1 <= d2 \/
       nearestBrandColor c = c_yellow /\ d2 < d0 /\ d2 < d1)) /\
  (forall p, In p ACTIVE_PALETTE ->
     isNumber (colorDistance c p) /\
     val (colorDistance c (nearestBrandColor c)) <= val (colorDistance c p)).
Proof.
  intros c; subst c.
  destruct (colorDistance_finite x y z c_blue ltac:(cbn; tauto)) as [d0 H0].
  destruct (colorDistance_finite x y z c_navy ltac:(cbn; tauto)) as [d1 H1].
  destruct (colorDistance_finite x y z c_yellow ltac:(cbn; tauto)) as [d2 H2].
  assert (Hcases :
      nearestBrandColor (Fin x, Fin y, Fin z) = c_blue /\ d0 <= d1 /\ d0 <= d2 \/
      nearestBrandColor (Fin x, Fin y, Fin z) = c_navy /\ d1 < d0 /\ d1 <= d2 \/
      nearestBrandColor (Fin x, Fin y, Fin z) = c_yellow /\ d2 < d0 /\ d2 < d1).
  { unfold nearestBrandColor, nearestIn, ACTIVE_PALETTE; cbn [fold_left nth].
    rewrite (nearestStep_take _ c_blue c_blue None d0 H0 eq_refl).
    destruct (Rltb d1 d0) eqn:E1.
    - rewrite (nearestStep_take _ c_blue c_navy (Some d0) d1 H1 E1).
      apply Rltb_iff in E1.
      destruct (Rltb d2 d1) eqn:E2.
      + rewrite (nearestStep_take _ c_navy c_yellow (Some d1) d2 H2 E2).
        apply Rltb_iff in E2. right; right; cbn; repeat split; lra.
      + rewrite (nearestStep_keep _ c_navy c_yellow (Some d1) d2 H2 E2).
        apply Rltb_false_iff in E2. right; left; cbn; repeat split; lra.
    - rewrite (nearestStep_keep _ c_blue c_navy (Some d0) d1 H1 E1).
      apply Rltb_false_iff in E1.
      destruct (Rltb d2 d0) eqn:E2.
      + rewrite (nearestStep_take _ c_blue c_yellow (Some d0) d2 H2 E2).
        apply Rltb_iff in E2. right; right; cbn; repeat split; lra.
      + rewrite (nearestStep_keep _ c_blue c_yellow (Some d0) d2 H2 E2).
        apply Rltb_false_iff in E2. left; cbn; repeat split; lra. }
  split; [exists d0, d1, d2; auto |].
  intros p Hp.
  destruct (palette_cases p Hp) as [-> | [-> | ->]];
    (split; [eexists; eassumption |]);
    destruct Hcases as [(-> & Ha & Hb) | [(-> & Ha & Hb) | (-> & Ha & Hb)]];
    rewrite ?H0, ?H1, ?H2; cbn [val]; lra.
Qed.

Lemma nearestBrandColor_minimal_witness :
  val (colorDistance (Fin 0.5, Fin 0.5, Fin 0.5)
                     (nearestBrandColor (Fin 0.5, Fin 0.5, Fin 0.5)))
    <= val (colorDistance (Fin 0.5, Fin 0.5, Fin 0.5) c_navy).
Proof.
  destruct (nearestBrandColor_minimal 0.5 0.5 0.5) as [_ H].
  apply (H c_navy). right; left; reflexivity.
Defined.

(** ** The luminance glyph picker *)

Lemma threshold_glyph_mono (a b t1 t2 : R) :
  a <= b ->
  (glyphRank (if Rltb a t1 then diamond else if Rltb t2 a then circle else square)
   <= glyphRank (if Rltb b t1 then diamond else if Rltb t2 b then circle else square))%nat.
Proof.
  intros H.
  destruct (Rltb a t1) eqn:E1; [cbn; lia |].
  destruct (Rltb b t1) eqn:E2.
  { apply Rltb_iff in E2; apply Rltb_false_iff in E1; lra. }
  destruct (Rltb t2 a) eqn:E3; destruct (Rltb t2 b) eqn:E4; cbn; try lia.
  apply Rltb_iff in E3; apply Rltb_false_iff in E4; lra.
Qed.

(** X11.  On an edge the bias never picks a lighter glyph.  For a luminance
    and a bias that are not negative, the glyph picked on an edge is, in
    the order diamond, square, circle, not after the glyph picked off the
    edge; with a bias of at most 0 the two are the same.  A luminance that
    is NaN gives the square. *)
Theorem pickGlyph_edge_bias (luma t1 t2 edgeBias : R) (e : bool) :
  (0 <= luma -> 0 <= edgeBias ->
   (glyphRank (pickGlyph (Fin luma) (Fin t1) (Fin t2) (Fin edgeBias) true)
    <= glyphRank (pickGlyph (Fin luma) (Fin t1) (Fin t2) (Fin edgeBias) false))%nat) /\
  (edgeBias <= 0 ->
   pickGlyph (Fin luma) (Fin t1) (Fin t2) (Fin edgeBias) true
   = pickGlyph (Fin luma) (Fin t1) (Fin t2) (Fin edgeBias) false) /\
  pickGlyph NaN (Fin t1) (Fin t2) (Fin edgeBias) e = square.
Proof.
  split; [| split].
  - intros Hl Hb; unfold pickGlyph; cbn [andb gtb ltb cmp mul sub lift2].
    assert (luma * (1 - edgeBias * 0.3) <= luma) by nra.
    destruct (Rltb 0 edgeBias); [now apply threshold_glyph_mono | apply le_n].
  - intros Hb; unfold pickGlyph; cbn [andb gtb ltb cmp].
    now rewrite Rltb_false by lra.
  - unfold pickGlyph; cbn [gtb ltb cmp].
    destruct (e && Rltb 0 edgeBias); reflexivity.
Qed.

Lemma pickGlyph_edge_bias_witness :
  (glyphRank (pickGlyph (Fin 0.4) (Fin 0.33) (Fin 0.67) (Fin 0.5) true)
   <= glyphRank (pickGlyph (Fin 0.4) (Fin 0.33) (Fin 0.67) (Fin 0.5) false))%nat.
Proof.
  destruct (pickGlyph_edge_bias 0.4 0.33 0.67 0.5 true) as [H _].
  apply H; lra.
Defined.

(** X12.  With the thresholds of calculateThresholds the three palette
    colours get three different glyphs off an edge: the navy the diamond,
    the blue the square, the yellow the circle. *)
Theorem thresholds_separate_palette (edgeBias : num) :
  let '(t1, t2) := calculateThresholds in
  pickGlyph (luminanceFromRGB c_navy) t1 t2 edgeBias false = diamond /\
  pickGlyph (luminanceFromRGB c_blue) t1 t2 edgeBias false = square /\
  pickGlyph (luminanceFromRGB c_yellow) t1 t2 edgeBias false = circle.
Proof.
  unfold calculateThresholds, pickGlyph, luminanceFromRGB, luminance,
    c_navy, c_blue, c_yellow.
  cbn [andb ch0 ch1 ch2 fst snd gtb ltb cmp mul add lift2].
  repeat split.
  - now rewrite Rltb_true by lra.
  - rewrite Rltb_false by lra. now rewrite Rltb_false by lra.
  - rewrite Rltb_false by lra. now rewrite Rltb_true by lra.
Qed.

(** ** More on edge detection *)

Lemma fold_left_ext_eq {A B : Type} (f g : A -> B -> A) (l : list B) (a : A) :
  (forall a b, f a b = g a b) -> fold_left f l a = fold_left g l a.
Proof.
  intros H; revert a; induction l as [| b l IH]; intros a; cbn; [reflexivity |].
  now rewrite H, IH.
Qed.

(** X13.  detectEdges does not read the alpha bytes: two pixel arrays with the
    same red, green and blue bytes give the same edge map. *)
Theorem detectEdges_ignores_alpha (d d' : list Z) (w h : Z) :
  (forall i k, (0 <= k < 3)%Z -> get d (i * 4 + k) = get d' (i * 4 + k)) ->
  detectEdges {| data := d |} w h = detectEdges {| data := d' |} w h.
Proof.
  intros H; unfold detectEdges; cbn [data].
  apply map_ext; intros y; apply map_ext; intros x.
  unfold edgeAt, gradient.
  rewrite (fold_left_ext_eq (sobelTap d w h x y) (sobelTap d' w h x y));
    [reflexivity |].
  intros [gx gy] [ky kx]; unfold sobelTap, byteAt.
  set (i := (Z.max 0 (Z.min (h - 1) (y + ky)) * w
             + Z.max 0 (Z.min (w - 1) (x + kx)))%Z).
  pose proof (H i 0%Z ltac:(lia)) as H0; rewrite Z.add_0_r in H0.
  now rewrite H0, (H i 1%Z ltac:(lia)), (H i 2%Z ltac:(lia)).
Qed.

Lemma detectEdges_ignores_alpha_witness :
  detectEdges {| data := [10; 200; 30; 255; 250; 20; 90; 255]%Z |} 2 1
  = detectEdges {| data := [10; 200; 30; 0; 250; 20; 90; 7]%Z |} 2 1.
Proof.
  apply detectEdges_ignores_alpha.
  intros i k Hk; unfold get.
  destruct (Z.ltb_spec (i * 4 + k) 0) as [Hneg | Hpos]; [reflexivity |].
  destruct (Z.to_nat (i * 4 + k)) as [| [| [| [| [| [| [| [| n]]]]]]]] eqn:E;
    try reflexivity; exfalso; lia.
Defined.

Lemma byteAt_nil (i : Z) : byteAt [] i = NaN.
Proof.
  unfold byteAt, get; destruct (i <? 0)%Z; [reflexivity |].
  now destruct (Z.to_nat i).
Qed.

Lemma sobelTap_nil (w h x y : Z) (g : num * num) (k : Z * Z) :
  sobelTap [] w h x y g k = (NaN, NaN).
Proof.
  destruct k as [ky kx]; unfold sobelTap; rewrite !byteAt_nil; cbn.
  now rewrite !add_NaN_r.
Qed.

(** X14.  On pixel data that is empty every read is undefined, the gradient
    is NaN and no cell is flagged: detectEdges returns height rows of width
    entries that are all false. *)
Theorem detectEdges_empty_data (w h : Z) :
  detectEdges {| data := [] |} w h =
  repeat (repeat false (Z.to_nat w)) (Z.to_nat h).
Proof.
  unfold detectEdges; cbn [data].
  assert (Hcell : forall x y, edgeAt [] w h x y = false).
  { intros x y; unfold edgeAt, gradient, kernelOffsets.
    cbn [flat_map map app fold_left]. now rewrite !sobelTap_nil. }
  rewrite <- (length_range h), <- (map_const (repeat false (Z.to_nat w)) (range h)).
  apply map_ext; intros y.
  rewrite <- (length_range w), <- (map_const false (range w)).
  apply map_ext; intros x; apply Hcell.
Qed.

(** *** Images given pixel by pixel *)

Lemma length_flat_map_const {A B : Type} (f : A -> list B) (n : nat) (l : list A) :
  (forall a, length (f a) = n) -> length (flat_map f l) = (n * length l)%nat.
Proof.
  intros H; induction l as [| a l IH]; cbn; [lia |].
  rewrite length_app, H, IH; lia.
Qed.

Lemma nth_error_flat_map_seq {A : Type} (f : Z -> list A) (len : nat) :
  (forall i, length (f i) = len) ->
  forall i m s k, (i < m)%nat -> (k < len)%nat ->
    nth_error (flat_map f (map Z.of_nat (seq s m))) (len * i + k)
    = nth_error (f (Z.of_nat (s + i))) k.
Proof.
  intros Hlen; induction i as [| i IH]; intros m s k Hi Hk;
    (destruct m as [| m]; [lia |]); cbn [seq map flat_map].
  - rewrite nth_error_app1 by (rewrite Hlen; lia).
    now rewrite Nat.mul_0_r, Nat.add_0_r.
  - rewrite nth_error_app2 by (rewrite Hlen; lia).
    rewrite Hlen.
    replace (len * S i + k - len)%nat with (len * i + k)%nat by lia.
    rewrite IH by lia. do 3 f_equal; lia.
Qed.

Lemma byteAt_rasterData (w h : Z) (pix : Z -> Z -> Z * Z * Z * Z) (x y k : Z) :
  (0 <= x < w)%Z -> (0 <= y < h)%Z -> (0 <= k < 4)%Z ->
  byteAt (rasterData w h pix) ((y * w + x) * 4 + k) =
  match nth_error (let '(r, g, b, a) := pix x y in [r; g; b; a]) (Z.to_nat k) with
  | Some v => Fin (IZR v)
  | None => NaN
  end.
Proof.
  intros Hx Hy Hk; unfold byteAt, get, rasterData, range.
  destruct (Z.ltb_spec ((y * w + x) * 4 + k) 0) as [Hneg | _]; [nia |].
  set (cellf := fun y0 x0 : Z => let '(r, g, b, a) := pix x0 y0 in [r; g; b; a]).
  assert (Hc : forall y0 x0, length (cellf y0 x0) = 4%nat).
  { intros y0 x0; unfold cellf; now destruct (pix x0 y0) as [[[r g] b] a]. }
  set (rowf := fun y0 : Z => flat_map (cellf y0) (map Z.of_nat (seq 0 (Z.to_nat w)))).
  assert (Hr : forall y0, length (rowf y0) = (4 * Z.to_nat w)%nat).
  { intros y0; unfold rowf.
    rewrite (length_flat_map_const _ 4) by apply Hc.
    now rewrite length_map, length_seq. }
  replace (Z.to_nat ((y * w + x) * 4 + k))
    with (4 * Z.to_nat w * Z.to_nat y + (4 * Z.to_nat x + Z.to_nat k))%nat by nia.
  change (flat_map _ (map Z.of_nat (seq 0 (Z.to_nat h))))
    with (flat_map rowf (map Z.of_nat (seq 0 (Z.to_nat h)))).
  rewrite (nth_error_flat_map_seq rowf (4 * Z.to_nat w) Hr) by nia.
  unfold rowf.
  rewrite (nth_error_flat_map_seq (cellf (Z.of_nat (0 + Z.to_nat y))) 4 (Hc _)) by lia.
  unfold cellf.
  replace (Z.of_nat (0 + Z.to_nat x)) with x by lia.
  replace (Z.of_nat (0 + Z.to_nat y)) with y by lia.
  reflexivity.
Qed.

Lemma sobelTap_rasterData (w h : Z) (pix : Z -> Z -> Z * Z * Z * Z)
    (x y ky kx : Z) (gx gy : num) :
  (0 <= x < w)%Z -> (0 <= y < h)%Z ->
  let cx := Z.max 0 (Z.min (w - 1) (x + kx)) in
  let cy := Z.max 0 (Z.min (h - 1) (y + ky)) in
  sobelTap (rasterData w h pix) w h x y (gx, gy) (ky, kx) =
  ((gx + Fin (pixelLuma (pix cx cy)) * getNum sobelX ((ky + 1) * 3 + (kx + 1)))%num,
   (gy + Fin (pixelLuma (pix cx cy)) * getNum sobelY ((ky + 1) * 3 + (kx + 1)))%num).
Proof.
  intros Hx Hy cx cy; unfold sobelTap; cbn [fst snd]; fold cx cy.
  assert (Hcx : (0 <= cx < w)%Z) by (subst cx; lia).
  assert (Hcy : (0 <= cy < h)%Z) by (subst cy; lia).
  pose proof (byteAt_rasterData w h pix cx cy 0 Hcx Hcy ltac:(lia)) as E0.
  pose proof (byteAt_rasterData w h pix cx cy 1 Hcx Hcy ltac:(lia)) as E1.
  pose proof (byteAt_rasterData w h pix cx cy 2 Hcx Hcy ltac:(lia)) as E2.
  rewrite Z.add_0_r in E0; rewrite E0, E1, E2.
  unfold pixelLuma; destruct (pix cx cy) as [[[r g] b] a]. reflexivity.
Qed.

(** X15.  On an image whose pixels depend on the column only, a cell is
    flagged exactly when the luminances of its right and left neighbours,
    taken inside the image, differ by more than 0.15 / 4. *)
Theorem detectEdges_vertical_edges (w h : Z) (col : Z -> Z * Z * Z * Z) (x y : Z) :
  (0 <= x < w)%Z -> (0 <= y < h)%Z ->
  let edgeMap := detectEdges {| data := rasterData w h (fun x _ => col x) |} w h in
  let right := pixelLuma (col (Z.min (w - 1) (x + 1))) in
  let left := pixelLuma (col (Z.max 0 (x - 1))) in
  isEdgeAt edgeMap x y = true <-> 0.15 < 4 * Rabs (right - left).
Proof.
  intros Hx Hy edgeMap right left; subst edgeMap.
  unfold isEdgeAt, detectEdges; cbn [data].
  rewrite (get_map_range _ h y Hy).
  rewrite (get_map_range
             (fun x0 => edgeAt (rasterData w h (fun x1 _ => col x1)) w h x0 y) w x Hx).
  unfold edgeAt, gradient, kernelOffsets; cbn [flat_map map app fold_left].
  rewrite !sobelTap_rasterData by assumption.
  replace (Z.max 0 (Z.min (w - 1) (x + -1))) with (Z.max 0 (x - 1)) by lia.
  replace (Z.max 0 (Z.min (w - 1) (x + 0))) with x by lia.
  replace (Z.max 0 (Z.min (w - 1) (x + 1))) with (Z.min (w - 1) (x + 1)) by lia.
  fold right left.
  cbv [getNum get sobelX sobelY Z.ltb Z.compare Z.add Z.mul Z.opp Z.pos_sub
       Pos.add Pos.mul Pos.succ Pos.pred_double Z.succ_double Z.pred_double
       Z.double Z.to_nat Pos.to_nat Pos.iter_op Nat.add nth_error].
  cbn [add mul lift2].
  set (mid := pixelLuma (col x)).
  match goal with
  | |- (Math_sqrt (Fin (?a * ?a + ?b * ?b)) >? _)%num = true <-> _ =>
      replace a with (4 * (right - left)) by ring;
      replace b with 0 by ring
  end.
  cbn [Math_sqrt gtb ltb cmp mul add lift2].
  replace (4 * (right - left) * (4 * (right - left)) + 0 * 0)
    with (Rsqr (4 * (right - left))) by (unfold Rsqr; ring).
  rewrite Rltb_false by apply Rle_not_lt, Rle_0_sqr.
  cbn [ltb cmp]; rewrite sqrt_Rsqr_abs, Rltb_iff, Rabs_mult.
  rewrite (Rabs_right 4) by lra. reflexivity.
Qed.

Lemma detectEdges_vertical_edges_witness :
  isEdgeAt
    (detectEdges
       {| data := rasterData 3 1
            (fun x _ => if (x <? 2)%Z then (0, 0, 0, 255)%Z
                        else (255, 255, 255, 255)%Z) |} 3 1) 1 0 = true.
Proof.
  apply (detectEdges_vertical_edges 3 1
           (fun x => if (x <? 2)%Z then (0, 0, 0, 255)%Z
                     else (255, 255, 255, 255)%Z) 1 0 ltac:(lia) ltac:(lia)).
  change (Z.min (3 - 1) (1 + 1)) with 2%Z; change (Z.max 0 (1 - 1)) with 0%Z.
  change (2 <? 2)%Z with false; change (0 <? 2)%Z with true; cbv iota.
  unfold pixelLuma, uniformLuma, Rabs; destruct (Rcase_abs _); lra.
Defined.

(** ** More on the first pass *)

Lemma Rround_bounds (x : R) : x - / 2 < IZR (Rround x) <= x + / 2.
Proof. unfold Rround; pose proof (Zfloor_bound (x + / 2)); lra. Qed.

(** X16.  The key of a colour and its parsing.  A colour made of bytes is
    given back exactly, so that two such colours with one key are the same
    colour; a colour of [0, 1] is given back with every channel moved by
    at most 1/510, up to the rounding margin; a channel that is NaN stays
    NaN. *)
Theorem colour_key_round_trip :
  (forall r g b,
      keyColor (colorKeyOf (byteColor r g b)) = byteColor r g b) /\
  (forall r g b r' g' b',
      colorKeyOf (byteColor r g b) = colorKeyOf (byteColor r' g' b') ->
      byteColor r g b = byteColor r' g' b') /\
  (forall u v w, 0 <= u <= 1 -> 0 <= v <= 1 -> 0 <= w <= 1 ->
    exists u' v' w',
      keyColor (colorKeyOf (Fin u, Fin v, Fin w)) = (Fin u', Fin v', Fin w') /\
      Rabs (u' - u) <= 1 / 510 + roundingMargin /\
      Rabs (v' - v) <= 1 / 510 + roundingMargin /\
      Rabs (w' - w) <= 1 / 510 + roundingMargin) /\
  keyColor (colorKeyOf (NaN, NaN, NaN)) = (NaN, NaN, NaN).
Proof.
  split; [| split; [| split]].
  - intros r g b; unfold byteColor; now rewrite colorKeyOf_bytes.
  - intros r g b r' g' b'; unfold byteColor; rewrite !colorKeyOf_bytes.
    now intros [= -> -> ->].
  - intros u v w _ _ _; do 3 eexists; split; [reflexivity |].
    pose proof (Rround_bounds (u * 255)); pose proof (Rround_bounds (v * 255)).
    pose proof (Rround_bounds (w * 255)).
    unfold roundingMargin;
      repeat split; unfold Rabs; destruct (Rcase_abs _); lra.
  - reflexivity.
Qed.

Lemma colour_key_round_trip_witness :
  (colorKeyOf (byteColor 1 36 100) = colorKeyOf c_navy /\
   byteColor 1 36 100 = c_navy) /\
  exists u' v' w',
    keyColor (colorKeyOf (Fin 0.3, Fin 0.5, Fin 1)) = (Fin u', Fin v', Fin w') /\
    Rabs (u' - 0.3) <= 1 / 510 + roundingMargin /\
    Rabs (v' - 0.5) <= 1 / 510 + roundingMargin /\
    Rabs (w' - 1) <= 1 / 510 + roundingMargin.
Proof.
  assert (E : colorKeyOf (byteColor 1 36 100) = colorKeyOf c_navy)
    by (rewrite key_navy; apply colorKeyOf_bytes).
  split; [split; [exact E |] |].
  - exact (proj1 (proj2 colour_key_round_trip) 1 36 100 1 36 100 E)%Z.
  - apply (proj1 (proj2 (proj2 colour_key_round_trip)) 0.3 0.5 1); lra.
Defined.

Lemma ch0_NaN_contrast (c : RGB) (k : R) :
  ch0 c = NaN -> ch0 (applyContrast c (Fin k)) = NaN.
Proof.
  destruct c as [[c0 c1] c2]; cbn [ch0 fst]; intros ->.
  unfold applyContrast; destruct (_ === _)%num; reflexivity.
Qed.

Lemma ch0_NaN_saturation (c : RGB) (s : R) :
  ch0 c = NaN -> ch0 (applySaturation c (Fin s)) = NaN.
Proof.
  destruct c as [[c0 c1] c2]; cbn [ch0 fst]; intros ->.
  unfold applySaturation; destruct (_ === _)%num; reflexivity.
Qed.

Lemma ch0_NaN_dither (c : RGB) (a : R) (x y : Z) :
  ch0 c = NaN -> ch0 (applyDither c (Fin a) x y) = NaN.
Proof.
  destruct c as [[c0 c1] c2]; cbn [ch0 fst]; intros ->.
  unfold applyDither; destruct (_ <=? _)%num; reflexivity.
Qed.

(** A pixel whose red byte is missing is quantized to the background. *)
Lemma cellColor_missing (sd : ImageData) (params : KnitParams) (cols x y : Z) :
  byteAt (data sd) ((y * cols + x) * 4) = NaN ->
  cellColor sd params cols x y = BACKGROUND_COLOR.
Proof.
  intros H; unfold cellColor, applyPaletteMix.
  rewrite (nearestBrandColor_NaN_aux (applyDither _ _ _ _)).
  - apply nearest_blue.
  - left; apply ch0_NaN_dither, ch0_NaN_saturation, ch0_NaN_contrast.
    unfold getPixelFromImageData; cbn [ch0 fst]. now rewrite H.
Qed.

(** X17.  Transparent and missing pixels are background.  A cell of the grid
    whose pixel has an alpha byte of at most 12 (alpha below 0.05), or
    whose pixel lies outside the sampled data, gets the background colour
    in the first pass and no call in the second; from an alpha byte of 13
    on the colour is the quantized colour of the pixel. *)
Theorem transparent_cells_are_background (random : nat -> R)
    (params : KnitParams) (sd : ImageData) (cols rows : Z)
    (edgeMap : list (list bool)) (prominentColor : option RGB)
    (cellWidth cellHeight glyphSize : R) (x y : Z) (n : nat) :
  (0 <= x < cols)%Z -> (0 <= y < rows)%Z ->
  let cellColors := fst (firstPass sd params cols rows) in
  let alphaByte := get (data sd) ((y * cols + x) * 4 + 3) in
  ((exists a, alphaByte = Some a /\ (a <= 12)%Z) \/
   get (data sd) ((y * cols + x) * 4) = None ->
   cellAt cellColors x y = Some BACKGROUND_COLOR /\
   secondPassCell random params cellColors edgeMap prominentColor
                  cellWidth cellHeight glyphSize x y n = ([], n)) /\
  ((exists a, alphaByte = Some a /\ (13 <= a)%Z) ->
   cellAt cellColors x y = Some (cellColor sd params cols x y)).
Proof.
  intros Hx Hy cellColors alphaByte; subst cellColors alphaByte.
  rewrite firstPass_eq; cbn [fst].
  rewrite (cellAt_gridColors sd params cols rows x y Hx Hy).
  split.
  - intros H.
    assert (E : cellFinal sd params cols x y = BACKGROUND_COLOR).
    { unfold cellFinal; destruct H as [(a & Ha & Hle) | Hmiss].
      - unfold byteAt at 1; rewrite Ha; cbn [div lift1 ltb cmp].
        apply IZR_le in Hle. now rewrite Rltb_true by lra.
      - destruct (_ <? _)%num; [reflexivity |].
        apply cellColor_missing. unfold byteAt; now rewrite Hmiss. }
    rewrite E; split; [reflexivity |].
    unfold secondPassCell.
    rewrite (cellAt_gridColors sd params cols rows x y Hx Hy), E.
    now rewrite match_background_background.
  - intros (a & Ha & Hge); unfold cellFinal, byteAt at 1; rewrite Ha.
    cbn [div lift1 ltb cmp]. apply IZR_le in Hge.
    now rewrite Rltb_false by lra.
Qed.

Lemma transparent_cells_are_background_witness :
  let params :=
    {| stitchPx := 20; paletteMix := 1; dither := 0.3; contrast := 1.1;
       saturation := 1.2; edgeCrispness := 0.2; showGridLines := false |} in
  let sd := {| data := [255; 242; 2; 12]%Z |} in
  cellAt (fst (firstPass sd params 1 1)) 0 0 = Some BACKGROUND_COLOR /\
  secondPassCell (fun _ => 0) params (fst (firstPass sd params 1 1))
                 [[false]] None 20 20 16 0 0 0%nat = ([], 0%nat).
Proof.
  intros params sd.
  apply (transparent_cells_are_background (fun _ => 0) params sd 1 1
           [[false]] None 20 20 16 0 0 0%nat ltac:(lia) ltac:(lia)).
  left; exists 12%Z; split; [reflexivity | lia].
Defined.

(** ** More on the second pass *)

(** X18.  The edge bias only ever turns a glyph into a diamond.  A cell that
    is not background is drawn once, in its own colour, with the glyph of
    its colour or, on an edge with edgeCrispness > 0 and a random number
    below 0.3 edgeCrispness, with the diamond; Math.random is called
    exactly on the edge cells with edgeCrispness > 0, once. *)
Theorem edge_bias_only_diamond (random : nat -> R) (params : KnitParams)
    (cellColors : list (list RGB)) (edgeMap : list (list bool))
    (prominentColor : option RGB) (cellWidth cellHeight glyphSize : R)
    (x y : Z) (n : nat) (c : RGB) :
  cellAt cellColors x y = Some c ->
  colorMatch c BACKGROUND_COLOR = false ->
  let biased := isEdgeAt edgeMap x y && Rltb 0 (edgeCrispness params) in
  let glyph :=
    if biased && Rltb (random n) (edgeCrispness params * 0.3) then diamond
    else baseGlyph prominentColor c x y in
  secondPassCell random params cellColors edgeMap prominentColor
                 cellWidth cellHeight glyphSize x y n
  = (fillStyleOf c ::
     drawGlyph glyph ((IZR x + 0.5) * cellWidth) ((IZR y + 0.5) * cellHeight)
               glyphSize,
     if biased then S n else n) /\
  (glyph = diamond \/ glyph = baseGlyph prominentColor c x y) /\
  (edgeCrispness params <= 1 -> 0.3 <= random n ->
   glyph = baseGlyph prominentColor c x y).
Proof.
  intros Hc Hb biased glyph; subst biased glyph.
  unfold secondPassCell; rewrite Hc, Hb.
  destruct (isEdgeAt edgeMap x y && Rltb 0 (edgeCrispness params)) eqn:E;
    cbn [andb].
  - destruct (Rltb (random n) (edgeCrispness params * 0.3)) eqn:Er.
    + split; [reflexivity | split; [now left |]].
      intros H1 H3; apply Rltb_iff in Er; lra.
    + split; [reflexivity | split; [now right | reflexivity]].
  - split; [reflexivity | split; [now right | reflexivity]].
Qed.

Lemma edge_bias_only_diamond_witness :
  secondPassCell (fun _ => 0.1)
    {| stitchPx := 20; paletteMix := 1; dither := 0; contrast := 1;
       saturation := 1; edgeCrispness := 1; showGridLines := false |}
    [[c_yellow]] [[true]] (Some c_yellow) 20 20 16 0 0 5%nat
  = (fillStyleOf c_yellow ::
     drawGlyph diamond ((0 + 0.5) * 20) ((0 + 0.5) * 20) 16, 6%nat).
Proof.
  pose proof (edge_bias_only_diamond (fun _ => 0.1)
    {| stitchPx := 20; paletteMix := 1; dither := 0; contrast := 1;
       saturation := 1; edgeCrispness := 1; showGridLines := false |}
    [[c_yellow]] [[true]] (Some c_yellow) 20 20 16 0 0 5%nat c_yellow
    eq_refl match_yellow_background) as H.
  cbv zeta in H; destruct H as [H _]; rewrite H.
  cbn [isEdgeAt get Z.ltb Z.compare Z.to_nat nth_error edgeCrispness andb].
  rewrite (Rltb_true 0 1) by lra. rewrite (Rltb_true 0.1 (1 * 0.3)) by lra.
  reflexivity.
Defined.

(** ** More on the frame *)

Lemma drawGlyph_no_style (g : GlyphType) (cx cy size : R) :
  Forall (fun c => isSetFillStyle c = false /\ isStroke c = false)
         (drawGlyph g cx cy size).
Proof. destruct g; cbn; repeat constructor. Qed.

Lemma cellAt_in (cellColors : list (list RGB)) (x y : Z) (c : RGB) :
  cellAt cellColors x y = Some c -> In c (concat cellColors).
Proof.
  unfold cellAt, get.
  destruct (y <? 0)%Z; [discriminate |].
  destruct (nth_error cellColors (Z.to_nat y)) as [row |] eqn:Er; [| discriminate].
  destruct (x <? 0)%Z; [discriminate |]. intros Hx.
  apply in_concat; exists row; split; eapply nth_error_In; eassumption.
Qed.

Lemma palette_not_background (c : RGB) :
  In c ACTIVE_PALETTE -> colorMatch c BACKGROUND_COLOR = false ->
  c = c_navy \/ c = c_yellow.
Proof.
  intros H Hb; destruct (palette_cases c H) as [-> | [-> | ->]]; auto.
  rewrite match_blue_background in Hb; discriminate.
Qed.

(** What one cell adds to the frame. *)
Lemma secondPassCell_cases (random : nat -> R) (params : KnitParams)
    (cellColors : list (list RGB)) (edgeMap : list (list bool))
    (prominentColor : option RGB) (cw ch gs : R) (x y : Z) (n : nat) :
  (fst (secondPassCell random params cellColors edgeMap prominentColor
                       cw ch gs x y n) = [] /\
   (cellAt cellColors x y = None \/
    exists c, cellAt cellColors x y = Some c /\
              colorMatch c BACKGROUND_COLOR = true)) \/
  (exists c g, cellAt cellColors x y = Some c /\
               colorMatch c BACKGROUND_COLOR = false /\
               fst (secondPassCell random params cellColors edgeMap
                                   prominentColor cw ch gs x y n)
               = fillStyleOf c ::
                 drawGlyph g ((IZR x + 0.5) * cw) ((IZR y + 0.5) * ch) gs).
Proof.
  unfold secondPassCell.
  destruct (cellAt cellColors x y) as [c |] eqn:Hc; [| left; split; auto].
  destruct (colorMatch c BACKGROUND_COLOR) eqn:Hb.
  - left; split; [reflexivity | right; now exists c].
  - right; exists c.
    destruct (isEdgeAt edgeMap x y && Rltb 0 (edgeCrispness params)).
    + destruct (Rltb (random n) (edgeCrispness params * 0.3));
        eexists; (split; [reflexivity | split; [exact Hb | reflexivity]]).
    + eexists; (split; [reflexivity | split; [exact Hb | reflexivity]]).
Qed.

Lemma secondPassCells_cons (random : nat -> R) (params : KnitParams)
    (cc : list (list RGB)) (em : list (list bool)) (pc : option RGB)
    (cw ch gs : R) (x y : Z) (cells : list (Z * Z)) (out : list cmd) (n : nat) :
  secondPassCells random params cc em pc cw ch gs ((x, y) :: cells) (out, n) =
  secondPassCells random params cc em pc cw ch gs cells
    (out ++ fst (secondPassCell random params cc em pc cw ch gs x y n),
     snd (secondPassCell random params cc em pc cw ch gs x y n)).
Proof.
  unfold secondPassCells; cbn [fold_left].
  now destruct (secondPassCell random params cc em pc cw ch gs x y n).
Qed.

(** A property of every call of every cell is a property of the pass. *)
Lemma secondPassCells_Forall (P : cmd -> Prop) (random : nat -> R)
    (params : KnitParams) (cc : list (list RGB)) (em : list (list bool))
    (pc : option RGB) (cw ch gs : R) (cells : list (Z * Z)) :
  (forall x y n,
      Forall P (fst (secondPassCell random params cc em pc cw ch gs x y n))) ->
  forall out n, Forall P out ->
    Forall P (fst (secondPassCells random params cc em pc cw ch gs cells (out, n))).
Proof.
  intros Hcell; induction cells as [| [x y] cells IH]; intros out n Hout.
  - exact Hout.
  - rewrite secondPassCells_cons; apply IH, Forall_app; split; [exact Hout | apply Hcell].
Qed.

Lemma gridLines_no_fill_style (size cw ch : R) (cols rows : Z) :
  Forall (fun c => isSetFillStyle c = false) (gridLines size cw ch cols rows).
Proof.
  unfold gridLines; repeat (apply Forall_app; split).
  - repeat constructor.
  - apply Forall_flat_map, Forall_forall; intros y _; repeat constructor.
  - apply Forall_flat_map, Forall_forall; intros x _; repeat constructor.
Qed.

Lemma frame_cell_colours (random : nat -> R) (params : KnitParams)
    (sd : ImageData) (cols rows : Z) (em : list (list bool)) (pc : option RGB)
    (cw ch gs : R) (x y : Z) (n : nat) :
  Forall glyphColourOnly
    (fst (secondPassCell random params (gridColors sd params cols rows) em pc
                         cw ch gs x y n)).
Proof.
  destruct (secondPassCell_cases random params (gridColors sd params cols rows)
              em pc cw ch gs x y n) as [[-> _] | (c & g & Hc & Hb & ->)];
    [constructor |].
  constructor.
  - apply cellAt_in in Hc.
    pose proof (gridColors_in_palette sd params cols rows) as Hq.
    rewrite Forall_forall in Hq.
    destruct (palette_not_background c (Hq c Hc) Hb) as [-> | ->].
    + unfold c_navy; rewrite fillStyleOf_bytes; cbn; now left.
    + unfold c_yellow; rewrite fillStyleOf_bytes; cbn; now right.
  - eapply Forall_impl; [| apply drawGlyph_no_style].
    intros c0 [H0 _]; destruct c0; cbn in *; try exact I; discriminate.
Qed.

(** X19.  Every frame starts with the fill of the whole canvas in the
    background blue, and every fill style set after it is the navy or the
    yellow: glyphs are never drawn in the background colour, nor in any
    colour outside the palette. *)
Theorem frame_fill_colours (Image : Type)
    (sampleImage : Image -> Z -> Z -> ImageData) (random : nat -> R)
    (image : Image) (params : KnitParams) (size : R) :
  exists rest,
    renderKnitFrame Image sampleImage random image params size =
      [SetFillStyle (Some 0%Z) (Some 82%Z) (Some 176%Z); FillRect 0 0 size size]
      ++ rest /\
    Forall glyphColourOnly rest.
Proof.
  unfold renderKnitFrame.
  destruct (gridSize params size) as [cols rows].
  destruct ((cols =? 0)%Z || (rows =? 0)%Z).
  - exists []; rewrite app_nil_r; split; [apply fillBackground_blue | constructor].
  - rewrite firstPass_eq.
    set (sd := sampleImage image cols rows).
    destruct (secondPassCells _ _ _ _ _ _ _ _ _ _) as [glyphs n] eqn:E.
    rewrite fillBackground_blue.
    eexists; split; [reflexivity |].
    apply Forall_app; split; [repeat constructor |].
    apply Forall_app; split.
    + destruct (showGridLines params); [| constructor].
      eapply Forall_impl; [| apply gridLines_no_fill_style].
      intros c Hc; destruct c; cbn in *; try exact I; discriminate.
    + replace glyphs with (fst (glyphs, n)) by reflexivity; rewrite <- E.
      apply secondPassCells_Forall; [| constructor].
      intros x y n0; apply frame_cell_colours.
Qed.

Lemma secondPassCells_app (random : nat -> R) (params : KnitParams)
    (cc : list (list RGB)) (em : list (list bool)) (pc : option RGB)
    (cw ch gs : R) (cells : list (Z * Z)) (out : list cmd) (n : nat) :
  secondPassCells random params cc em pc cw ch gs cells (out, n) =
  (out ++ fst (secondPassCells random params cc em pc cw ch gs cells ([], n)),
   snd (secondPassCells random params cc em pc cw ch gs cells ([], n))).
Proof.
  revert out n; induction cells as [| [x y] cells IH]; intros out n.
  - cbn; now rewrite app_nil_r.
  - rewrite !secondPassCells_cons, IH; cbn [app].
    rewrite (IH (fst _)); cbn [fst snd]. now rewrite app_assoc.
Qed.

Lemma filter_nil_Forall {A : Type} (f : A -> bool) (l : list A) :
  Forall (fun a => f a = false) l -> filter f l = [].
Proof.
  induction 1 as [| a l Ha _ IH]; cbn; [reflexivity |]. now rewrite Ha.
Qed.

Lemma drawGlyph_fills (g : GlyphType) (cx cy size : R) :
  filter isSetFillStyle (drawGlyph g cx cy size) = [] /\
  filter isStroke (drawGlyph g cx cy size) = [].
Proof. destruct g; split; reflexivity. Qed.

(** The second pass sets one fill style for each cell that is not
    background, and strokes nothing. *)
Lemma secondPassCells_counts (random : nat -> R) (params : KnitParams)
    (cc : list (list RGB)) (em : list (list bool)) (pc : option RGB)
    (cw ch gs : R) (F : Z -> Z -> RGB) (cells : list (Z * Z)) :
  (forall x y, In (x, y) cells -> cellAt cc x y = Some (F x y)) ->
  forall n,
    length (filter isSetFillStyle
              (fst (secondPassCells random params cc em pc cw ch gs cells ([], n))))
    = length (nonBackground (map (fun p => F (fst p) (snd p)) cells)) /\
    filter isStroke
      (fst (secondPassCells random params cc em pc cw ch gs cells ([], n))) = [].
Proof.
  induction cells as [| [x y] cells IH]; intros Hc n; [split; reflexivity |].
  rewrite secondPassCells_cons, secondPassCells_app; cbn [fst app map snd].
  rewrite !filter_app, length_app.
  destruct (IH (fun x0 y0 H => Hc x0 y0 (or_intror H))
               (snd (secondPassCell random params cc em pc cw ch gs x y n)))
    as [IHf IHs].
  rewrite IHf, IHs, app_nil_r.
  pose proof (Hc x y (or_introl eq_refl)) as Hxy.
  unfold nonBackground at 2; cbn [filter].
  destruct (secondPassCell_cases random params cc em pc cw ch gs x y n)
    as [[-> [Hn | (c & Hs & Hb)]] | (c & g & Hs & Hb & ->)].
  - congruence.
  - assert (c = F x y) as -> by congruence. rewrite Hb; split; reflexivity.
  - assert (c = F x y) as -> by congruence. rewrite Hb; cbn [negb filter].
    destruct (drawGlyph_fills g ((IZR x + 0.5) * cw) ((IZR y + 0.5) * ch) gs)
      as [-> ->].
    split; reflexivity.
Qed.

Lemma cells_of_gridColors (sd : ImageData) (params : KnitParams) (cols rows : Z) :
  map (fun p => cellFinal sd params cols (fst p) (snd p)) (cellsOf cols rows)
  = concat (gridColors sd params cols rows).
Proof.
  unfold cellsOf, gridColors.
  induction (range rows) as [| y ys IH]; cbn [flat_map map concat]; [reflexivity |].
  now rewrite map_app, IH, map_map.
Qed.

Lemma in_cellsOf (cols rows x y : Z) :
  In (x, y) (cellsOf cols rows) -> (0 <= x < cols)%Z /\ (0 <= y < rows)%Z.
Proof.
  unfold cellsOf; rewrite in_flat_map; intros (y0 & Hy & Hx).
  apply in_map_iff in Hx; destruct Hx as (x0 & [= -> ->] & Hx).
  split; now apply in_range.
Qed.

Lemma gridColors_empty (sd : ImageData) (params : KnitParams) (cols rows : Z) :
  cols = 0%Z \/ rows = 0%Z -> concat (gridColors sd params cols rows) = [].
Proof.
  intros [-> | ->]; unfold gridColors; [| reflexivity].
  change (range 0) with (@nil Z); cbn [map].
  induction (range rows) as [| y ys IH]; cbn; [reflexivity | exact IH].
Qed.

Lemma gridLines_counts (size cw ch : R) (cols rows : Z) :
  filter isSetFillStyle (gridLines size cw ch cols rows) = [] /\
  length (filter isStroke (gridLines size cw ch cols rows))
  = (Z.to_nat (rows + 1) + Z.to_nat (cols + 1))%nat.
Proof.
  split; [apply filter_nil_Forall, gridLines_no_fill_style |].
  unfold gridLines; rewrite !filter_app, !length_app; cbn [filter length].
  assert (H : forall (f : Z -> list cmd) l,
             (forall z, filter isStroke (f z) = [Stroke]) ->
             length (filter isStroke (flat_map f l)) = length l).
  { intros f l Hf; induction l as [| z l IH]; cbn [flat_map]; [reflexivity |].
    rewrite filter_app, length_app, Hf, IH; reflexivity. }
  rewrite !H by (intros z; reflexivity).
  now rewrite !length_range.
Qed.

(** X20.  A frame draws one glyph for each cell that is not background,
    whatever the random numbers: it sets the fill style once for the
    background and once for each such cell.  It strokes rows + 1 and
    cols + 1 grid lines when showGridLines is set and the grid is not
    empty, and strokes nothing otherwise. *)
Theorem frame_glyph_and_line_counts (Image : Type)
    (sampleImage : Image -> Z -> Z -> ImageData) (random : nat -> R)
    (image : Image) (params : KnitParams) (size : R) :
  let frame := renderKnitFrame Image sampleImage random image params size in
  let cols := fst (gridSize params size) in
  let rows := snd (gridSize params size) in
  let cells := concat (gridColors (sampleImage image cols rows) params cols rows) in
  length (filter isSetFillStyle frame) = S (length (nonBackground cells)) /\
  length (filter isStroke frame) =
    (if showGridLines params && negb ((cols =? 0)%Z || (rows =? 0)%Z)
     then Z.to_nat (rows + 1) + Z.to_nat (cols + 1) else 0)%nat.
Proof.
  intros frame cols rows cells; subst frame cols rows cells.
  unfold renderKnitFrame.
  destruct (gridSize params size) as [cols rows]; cbn [fst snd].
  destruct ((cols =? 0)%Z || (rows =? 0)%Z) eqn:Ez.
  - rewrite andb_false_r, fillBackground_blue, gridColors_empty; [split; reflexivity |].
    apply orb_true_iff in Ez; destruct Ez as [E | E]; apply Z.eqb_eq in E; auto.
  - rewrite firstPass_eq, andb_true_r.
    set (sd := sampleImage image cols rows).
    set (cw := size / IZR cols); set (ch := size / IZR rows).
    set (gs := Rmin cw ch * 0.8).
    pose proof (secondPassCells_counts random params (gridColors sd params cols rows)
                  (detectEdges sd cols rows)
                  (findProminent (countCells (concat (gridColors sd params cols rows))))
                  cw ch gs (cellFinal sd params cols) (cellsOf cols rows)) as H.
    destruct (H (fun x y Hin =>
                   cellAt_gridColors sd params cols rows x y
                     (proj1 (in_cellsOf _ _ _ _ Hin)) (proj2 (in_cellsOf _ _ _ _ Hin)))
                O) as [Hf Hs].
    destruct (secondPassCells _ _ _ _ _ _ _ _ _ _) as [glyphs n].
    cbn [fst] in Hf, Hs.
    rewrite fillBackground_blue, !filter_app, !length_app, Hf, Hs.
    rewrite cells_of_gridColors.
    destruct (showGridLines params).
    + destruct (gridLines_counts size cw ch cols rows) as [-> ->].
      cbn [filter app length isSetFillStyle isStroke]. split; lia.
    + cbn [filter app length isSetFillStyle isStroke]. split; lia.
Qed.

Lemma secondPassCell_no_random (r1 r2 : nat -> R) (params : KnitParams)
    (cc : list (list RGB)) (em : list (list bool)) (pc : option RGB)
    (cw ch gs : R) (x y : Z) (n : nat) :
  edgeCrispness params <= 0 ->
  secondPassCell r1 params cc em pc cw ch gs x y n
  = secondPassCell r2 params cc em pc cw ch gs x y n.
Proof.
  intros H; unfold secondPassCell.
  rewrite (Rltb_false 0 (edgeCrispness params)) by lra.
  now rewrite andb_false_r.
Qed.

(** X21.  With edgeCrispness at most 0 a frame does not depend on
    Math.random: any two sequences of random numbers give the same calls. *)
Theorem frame_deterministic_without_edge_bias (Image : Type)
    (sampleImage : Image -> Z -> Z -> ImageData) (r1 r2 : nat -> R)
    (image : Image) (params : KnitParams) (size : R) :
  edgeCrispness params <= 0 ->
  renderKnitFrame Image sampleImage r1 image params size
  = renderKnitFrame Image sampleImage r2 image params size.
Proof.
  intros H; unfold renderKnitFrame.
  destruct (gridSize params size) as [cols rows].
  destruct ((cols =? 0)%Z || (rows =? 0)%Z); [reflexivity |].
  destruct (firstPass _ _ _ _) as [cc counts].
  assert (E : forall cells st,
             secondPassCells r1 params cc (detectEdges (sampleImage image cols rows) cols rows)
               (findProminent counts) (size / IZR cols) (size / IZR rows)
               (Rmin (size / IZR cols) (size / IZR rows) * 0.8) cells st
             = secondPassCells r2 params cc (detectEdges (sampleImage image cols rows) cols rows)
               (findProminent counts) (size / IZR cols) (size / IZR rows)
               (Rmin (size / IZR cols) (size / IZR rows) * 0.8) cells st).
  { induction cells as [| [x y] cells IH]; intros [out n]; [reflexivity |].
    rewrite !secondPassCells_cons, (secondPassCell_no_random r1 r2) by exact H.
    apply IH. }
  now rewrite E.
Qed.

Lemma frame_deterministic_without_edge_bias_witness :
  let params :=
    {| stitchPx := 20; paletteMix := 1; dither := 0.3; contrast := 1.1;
       saturation := 1.2; edgeCrispness := 0; showGridLines := true |} in
  renderKnitFrame unit (fun _ _ _ => yellowPixel) (fun _ => 0) tt params 20
  = renderKnitFrame unit (fun _ _ _ => yellowPixel) (fun _ => 0.99) tt params 20.
Proof.
  intros params.
  apply (frame_deterministic_without_edge_bias unit (fun _ _ _ => yellowPixel)
           (fun _ => 0) (fun _ => 0.99) tt params 20).
  cbn; lra.
Defined.

(** ** The size of the grid and of its cells *)

Lemma Rmin_IZR (a b : Z) : Rmin (IZR a) (IZR b) = IZR (Z.min a b).
Proof.
  unfold Rmin; destruct (Rle_dec (IZR a) (IZR b)) as [H | H].
  - apply le_IZR in H; now rewrite Z.min_l.
  - assert (b < a)%Z by (apply lt_IZR; lra); now rewrite Z.min_r by lia.
Qed.

Lemma Rmax_IZR (a b : Z) : Rmax (IZR a) (IZR b) = IZR (Z.max a b).
Proof.
  unfold Rmax; destruct (Rle_dec (IZR a) (IZR b)) as [H | H].
  - apply le_IZR in H; now rewrite Z.max_r.
  - assert (b < a)%Z by (apply lt_IZR; lra); now rewrite Z.max_l by lia.
Qed.

Lemma Rfloor_quotient (n d : Z) :
  (0 < d)%Z -> Rfloor (IZR n / IZR d) = (n / d)%Z.
Proof.
  intros Hd; unfold Rfloor; apply Zfloor_eq.
  assert (Hd' : 0 < IZR d) by (apply IZR_lt; lia).
  pose proof (Z.div_mod n d ltac:(lia)) as E.
  pose proof (Z.mod_pos_bound n d Hd) as [M0 M1].
  apply IZR_le in M0; apply IZR_lt in M1.
  assert (En : IZR n = IZR d * IZR (n / d) + IZR (n mod d))
    by (now rewrite <- mult_IZR, <- plus_IZR, <- E).
  assert (Eq : IZR n / IZR d * IZR d = IZR n) by (field; lra).
  split.
  - apply (Rmult_le_reg_r (IZR d)); [exact Hd' | nra].
  - apply (Rmult_lt_reg_r (IZR d)); [exact Hd' | nra].
Qed.

(** X22.  The grid on whole pixels.  For a canvas whose size is an integer
    n >= 0 and a stitch size that is an integer s, as the canvas and the
    slider give them, the clamped stitch is the integer max(4, min(100, s)),
    the grid is square and has n div stitch columns: as many as whole
    stitches fit, at most n / 4; when it is not empty every cell is at
    least one stitch and less than two wide. *)
Theorem grid_size_bounds (params : KnitParams) (n s : Z) :
  stitchPx params = IZR s -> (0 <= n)%Z ->
  let cols := fst (gridSize params (IZR n)) in
  let rows := snd (gridSize params (IZR n)) in
  let stitch := Z.max 4 (Z.min 100 s) in
  clampStitch params = IZR stitch /\
  cols = rows /\
  cols = (n / stitch)%Z /\
  (0 <= cols)%Z /\
  (cols * stitch <= n < (cols + 1) * stitch)%Z /\
  (4 * cols <= n)%Z /\
  ((0 < cols)%Z -> IZR stitch <= IZR n / IZR cols < 2 * IZR stitch).
Proof.
  intros Hs Hn cols rows stitch.
  assert (Hst : (4 <= stitch)%Z) by (unfold stitch; lia).
  assert (Ec : clampStitch params = IZR stitch).
  { unfold clampStitch, stitch; rewrite Hs.
    now rewrite (Rmin_IZR 100 s), (Rmax_IZR 4 (Z.min 100 s)). }
  assert (Ecols : cols = (n / stitch)%Z).
  { unfold cols, gridSize; cbn [fst]; rewrite Ec.
    apply Rfloor_quotient; lia. }
  assert (Erows : rows = cols) by reflexivity.
  pose proof (Z.div_mod n stitch ltac:(lia)) as E.
  pose proof (Z.mod_pos_bound n stitch ltac:(lia)) as M.
  assert (H0 : (0 <= n / stitch)%Z) by (apply Z.div_pos; lia).
  split; [exact Ec |].
  split; [now rewrite Erows |].
  split; [exact Ecols |].
  rewrite Ecols.
  split; [exact H0 |].
  split; [nia |].
  split; [nia |].
  intros Hpos.
  set (c := (n / stitch)%Z) in *.
  assert (Hc : 1 <= IZR c) by (apply IZR_le; lia).
  assert (Hlo : IZR c * IZR stitch <= IZR n)
    by (rewrite <- mult_IZR; apply IZR_le; nia).
  assert (Hhi : IZR n < (IZR c + 1) * IZR stitch).
  { replace (IZR c + 1) with (IZR (c + 1)) by (rewrite plus_IZR; reflexivity).
    rewrite <- mult_IZR; apply IZR_lt; nia. }
  assert (Hs4 : 4 <= IZR stitch) by (apply IZR_le; exact Hst).
  assert (Hw : IZR n / IZR c * IZR c = IZR n) by (field; lra).
  split.
  - apply (Rmult_le_reg_r (IZR c)); nra.
  - apply (Rmult_lt_reg_r (IZR c)); nra.
Qed.

Lemma grid_size_bounds_witness :
  let params :=
    {| stitchPx := 18; paletteMix := 1; dither := 0.35; contrast := 1.15;
       saturation := 1.1; edgeCrispness := 0.2; showGridLines := true |} in
  fst (gridSize params 1080) = 60%Z /\
  snd (gridSize params 1080) = 60%Z /\
  18 <= 1080 / IZR (fst (gridSize params 1080)) < 2 * 18.
Proof.
  intros params.
  destruct (grid_size_bounds params 1080 18 eq_refl ltac:(lia))
    as (_ & Hr & Hc & Hpos & _ & _ & Hw).
  change (Z.max 4 (Z.min 100 18)) with 18%Z in Hc, Hw.
  change (1080 / 18)%Z with 60%Z in Hc.
  split; [exact Hc | split; [now rewrite <- Hr |]].
  apply Hw; rewrite Hc; lia.
Defined.

(** ** Snapping of the glyphs *)

(** X23.  Snapping moves a glyph by less than a pixel.  The centre of the
    diamond is within 1/2 of the centre asked for in each coordinate, the
    centre of the circle within 1/4; the corner of the square is within
    1/2 of the corner asked for, its side within 1/2 of the size, and its
    centre within 3/4 of the centre asked for. *)
Theorem glyph_snapping_bounds (cx cy size : R) :
  (exists x y, drawnCentre (drawDiamond cx cy size) = Some (x, y) /\
               Rabs (x - cx) <= 1 / 2 /\ Rabs (y - cy) <= 1 / 2) /\
  (exists x y, drawnCentre (drawCircle cx cy size) = Some (x, y) /\
               Rabs (x - cx) <= 1 / 4 /\ Rabs (y - cy) <= 1 / 4) /\
  (exists x y w, drawnRect (drawSquare cx cy size) = Some (x, y, w) /\
                 Rabs (x - (cx - size / 2)) <= 1 / 2 /\
                 Rabs (y - (cy - size / 2)) <= 1 / 2 /\
                 Rabs (w - size) <= 1 / 2 /\
                 Rabs (x + w / 2 - cx) <= 3 / 4 /\
                 Rabs (y + w / 2 - cy) <= 3 / 4).
Proof.
  pose proof (Rround_bounds cx) as Bx; pose proof (Rround_bounds cy) as By_.
  pose proof (Rround_bounds (cx * 2)) as Bx2; pose proof (Rround_bounds (cy * 2)) as By2.
  pose proof (Rround_bounds (cx - size * 0.5)) as Bsx.
  pose proof (Rround_bounds (cy - size * 0.5)) as Bsy.
  pose proof (Rround_bounds size) as Bw.
  split; [| split].
  - exists (IZR (Rround cx)), (IZR (Rround cy)); split.
    + unfold drawDiamond, drawnCentre, meanPoint; cbn. f_equal; f_equal; field.
    + split; unfold Rabs; destruct (Rcase_abs _); lra.
  - exists (IZR (Rround (cx * 2)) / 2), (IZR (Rround (cy * 2)) / 2).
    split; [reflexivity |].
    split; unfold Rabs; destruct (Rcase_abs _); lra.
  - exists (IZR (Rround (cx - size * 0.5))), (IZR (Rround (cy - size * 0.5))),
           (IZR (Rround size)).
    split; [reflexivity |].
    repeat split; unfold Rabs; destruct (Rcase_abs _); lra.
Qed.

(** ** Controls and cropping *)

(** X24.  The centre crop is the largest square in the bitmap, centred.  Its
    side is the smaller of width and height, it lies inside the bitmap, the
    margins on both sides are equal, and along the shorter side there is no
    margin. *)
Theorem centerCrop_inside (width height : Z) :
  let '(x, y, size) := centerCrop width height in
  size = Z.min width height /\
  0 <= x /\ 0 <= y /\
  x + IZR size <= IZR width /\ y + IZR size <= IZR height /\
  IZR width - (x + IZR size) = x /\ IZR height - (y + IZR size) = y /\
  (x = 0 \/ y = 0).
Proof.
  unfold centerCrop.
  destruct (Z.min_spec width height) as [[Hlt ->] | [Hle ->]].
  - assert (IZR width <= IZR height) by (apply IZR_le; lia).
    repeat split; try lra; left; lra.
  - assert (IZR height <= IZR width) by (apply IZR_le; lia).
    repeat split; try lra; right; lra.
Qed.

Lemma clamp_Fin (v lo hi : R) :
  clamp (Fin v) (Fin lo) (Fin hi) = Fin (Rmax lo (Rmin hi v)).
Proof. reflexivity. Qed.

(** X25.  The slider clamp and the clamp of the renderer.  A finite slider
    value is stored as a stitch size between 8 and 50, a value in that
    range unchanged; the renderer then uses it as it is, and on a canvas of
    size >= 50 the grid is not empty.  The clamp does not repair NaN: a
    value that does not parse is stored as NaN. *)
Theorem slider_stitch_feeds_renderer (v size : R) (params : KnitParams) :
  (exists s, sliderStitchPx (Fin v) = Fin s /\ 8 <= s <= 50 /\
             (8 <= v <= 50 -> s = v)) /\
  (Fin (stitchPx params) = sliderStitchPx (Fin v) ->
   clampStitch params = stitchPx params /\
   (50 <= size -> (1 <= fst (gridSize params size))%Z)) /\
  sliderStitchPx NaN = NaN /\
  (forall lo hi, clamp NaN lo hi = NaN).
Proof.
  assert (Hs : 8 <= Rmax 8 (Rmin 50 v) <= 50 /\
               (8 <= v <= 50 -> Rmax 8 (Rmin 50 v) = v)).
  { unfold Rmax, Rmin; destruct (Rle_dec 50 v); destruct (Rle_dec 8 _); lra. }
  split; [| split; [| split]].
  - exists (Rmax 8 (Rmin 50 v)); split; [reflexivity | exact Hs].
  - unfold sliderStitchPx; rewrite clamp_Fin; intros [= E].
    assert (Hc : clampStitch params = stitchPx params).
    { unfold clampStitch; rewrite E.
      destruct Hs as [Hs _]; revert Hs; generalize (Rmax 8 (Rmin 50 v)); intros s Hs.
      unfold Rmax, Rmin; destruct (Rle_dec 100 s); destruct (Rle_dec 4 _); lra. }
    split; [exact Hc |].
    intros Hsize; unfold gridSize, Rfloor; cbn [fst]; rewrite Hc, E.
    destruct Hs as [Hs _]; revert Hs; generalize (Rmax 8 (Rmin 50 v)); intros s Hs.
    apply Zfloor_lub.
    apply (Rmult_le_reg_r s); [lra |].
    replace (size / s * s) with size by (field; lra). lra.
  - reflexivity.
  - intros lo hi; unfold clamp; destruct lo, hi; reflexivity.
Qed.

Lemma slider_stitch_feeds_renderer_witness :
  let params :=
    {| stitchPx := 50; paletteMix := 1; dither := 0.3; contrast := 1;
       saturation := 1; edgeCrispness := 0.2; showGridLines := false |} in
  clampStitch params = stitchPx params /\
  (1 <= fst (gridSize params 1080))%Z.
Proof.
  intros params.
  destruct (slider_stitch_feeds_renderer 70 1080 params) as (_ & H & _).
  assert (E : Fin (stitchPx params) = sliderStitchPx (Fin 70)).
  { unfold sliderStitchPx; rewrite clamp_Fin; cbn [stitchPx params]; f_equal.
    unfold Rmax, Rmin; destruct (Rle_dec 50 70); [| lra].
    destruct (Rle_dec 8 50); lra. }
  destruct (H E) as [H1 H2]; split; [exact H1 | apply H2; lra].
Defined.

(** X26.  The canvas is the largest square of whole pixels in its container:
    its size is an integer at most the width and the height of the
    rectangle, and one more would not fit. *)
Theorem canvasSize_fits (rectWidth rectHeight : R) :
  let size := canvasSize rectWidth rectHeight in
  IZR size <= rectWidth /\ IZR size <= rectHeight /\
  (rectWidth < IZR size + 1 \/ rectHeight < IZR size + 1) /\
  (0 <= rectWidth -> 0 <= rectHeight -> (0 <= size)%Z).
Proof.
  unfold canvasSize, Rfloor.
  pose proof (Zfloor_bound rectWidth) as Bw.
  pose proof (Zfloor_bound rectHeight) as Bh.
  destruct (Z.min_spec (Zfloor rectWidth) (Zfloor rectHeight)) as [[Hlt ->] | [Hle ->]].
  - assert (IZR (Zfloor rectWidth) <= IZR (Zfloor rectHeight)) by (apply IZR_le; lia).
    split; [lra | split; [lra | split; [left; lra |]]].
    intros H0 _; apply Zfloor_lub; exact H0.
  - assert (IZR (Zfloor rectHeight) <= IZR (Zfloor rectWidth)) by (apply IZR_le; lia).
    split; [lra | split; [lra | split; [right; lra |]]].
    intros _ H0; apply Zfloor_lub; exact H0.
Qed.

Lemma canvasSize_fits_witness :
  IZR (canvasSize 640.5 480) <= 480 /\ (0 <= canvasSize 640.5 480)%Z.
Proof.
  destruct (canvasSize_fits 640.5 480) as (_ & H & _ & H0).
  split; [exact H | apply H0; lra].
Defined.

(** ** The sampler *)

Lemma length_rasterData (w h : Z) (pix : Z -> Z -> Z * Z * Z * Z) :
  length (rasterData w h pix) = (4 * Z.to_nat w * Z.to_nat h)%nat.
Proof.
  unfold rasterData.
  rewrite (length_flat_map_const _ (4 * Z.to_nat w)), length_range; [reflexivity |].
  intros y.
  rewrite (length_flat_map_const _ 4), length_range; [reflexivity |].
  intros x; now destruct (pix x y) as [[[r g] b] a].
Qed.

Lemma byteAt_beyond (d : list Z) (i : Z) :
  (Z.of_nat (length d) <= i)%Z -> byteAt d i = NaN.
Proof.
  intros H; unfold byteAt, get.
  destruct (Z.ltb_spec i 0) as [_ | _]; [reflexivity |].
  replace (nth_error d (Z.to_nat i)) with (@None Z); [reflexivity |].
  symmetry; apply nth_error_None; lia.
Qed.

(** X27.  getPixelFromImageData reads the pixels row by row: on the data of a
    width by height image it returns, inside the image, the red, green and
    blue bytes of the pixel over 255.  It does not check x against the
    width: a column x + width of row y is the column x of row y + 1.  Below
    the last row every channel is NaN. *)
Theorem getPixelFromImageData_row_major (w h : Z)
    (pix : Z -> Z -> Z * Z * Z * Z) (x y : Z) :
  ((0 <= x < w)%Z -> (0 <= y < h)%Z ->
   getPixelFromImageData {| data := rasterData w h pix |} x y w =
   let '(r, g, b, _) := pix x y in byteColor r g b) /\
  (forall imageData,
     getPixelFromImageData imageData (x + w) y w =
     getPixelFromImageData imageData x (y + 1) w) /\
  ((0 <= x)%Z -> (0 <= w)%Z -> (0 <= h <= y)%Z ->
   getPixelFromImageData {| data := rasterData w h pix |} x y w = (NaN, NaN, NaN)).
Proof.
  split; [| split].
  - intros Hx Hy; unfold getPixelFromImageData; cbn [data].
    replace ((y * w + x) * 4)%Z with ((y * w + x) * 4 + 0)%Z at 1 by lia.
    rewrite !byteAt_rasterData by lia.
    destruct (pix x y) as [[[r g] b] a]; reflexivity.
  - intros imageData; unfold getPixelFromImageData.
    replace ((y * w + (x + w)) * 4)%Z with (((y + 1) * w + x) * 4)%Z by lia.
    reflexivity.
  - intros Hx Hw Hy; unfold getPixelFromImageData; cbn [data].
    rewrite !byteAt_beyond; [reflexivity | | |];
      rewrite length_rasterData; nia.
Qed.

Lemma getPixelFromImageData_row_major_witness :
  getPixelFromImageData
    {| data := rasterData 2 2 (fun x y => (x, y, 7, 255)%Z) |} 1 1 2
  = byteColor 1 1 7 /\
  getPixelFromImageData
    {| data := rasterData 2 2 (fun x y => (x, y, 7, 255)%Z) |} 1 2 2
  = (NaN, NaN, NaN).
Proof.
  destruct (getPixelFromImageData_row_major 2 2 (fun x y => (x, y, 7, 255)%Z) 1 1)
    as (H1 & _ & _).
  destruct (getPixelFromImageData_row_major 2 2 (fun x y => (x, y, 7, 255)%Z) 1 2)
    as (_ & _ & H3).
  split; [apply H1; lia | apply H3; lia].
Defined.

Lemma sampleCellAverage_four (Image : Type) (drawRegion : Image -> R -> R -> list Z)
    (image : Image) (cellX cellY : Z) (cellWidth cellHeight : R)
    (r0 g0 b0 a0 r1 g1 b1 a1 r2 g2 b2 a2 r3 g3 b3 a3 : Z) :
  drawRegion image (IZR cellX * cellWidth + cellWidth * 0.5 - 1)
             (IZR cellY * cellHeight + cellHeight * 0.5 - 1)
  = [r0; g0; b0; a0; r1; g1; b1; a1; r2; g2; b2; a2; r3; g3; b3; a3] ->
  sampleCellAverage Image drawRegion image cellX cellY cellWidth cellHeight =
  (Fin ((0 + IZR r0 + IZR r1 + IZR r2 + IZR r3) / 4 / 255),
   Fin ((0 + IZR g0 + IZR g1 + IZR g2 + IZR g3) / 4 / 255),
   Fin ((0 + IZR b0 + IZR b1 + IZR b2 + IZR b3) / 4 / 255)).
Proof.
  intros E; unfold sampleCellAverage; rewrite E; reflexivity.
Qed.

(** X28.  sampleCellAverage on a region of four pixels.  The alpha bytes are
    not read; with bytes from 0 to 255 every channel of the average is in
    [0, 1], between the least and the greatest of the four; four equal
    pixels give the colour of that pixel.  A region without data gives
    black, not NaN. *)
Theorem sampleCellAverage_mean (Image : Type)
    (drawRegion : Image -> R -> R -> list Z) (image : Image)
    (cellX cellY : Z) (cellWidth cellHeight : R)
    (pix : Z -> Z -> Z * Z * Z * Z) :
  let srcX := IZR cellX * cellWidth + cellWidth * 0.5 - 1 in
  let srcY := IZR cellY * cellHeight + cellHeight * 0.5 - 1 in
  let avg := sampleCellAverage Image drawRegion image cellX cellY cellWidth cellHeight in
  (drawRegion image srcX srcY = rasterData 2 2 pix ->
   (forall pix' image',
      (forall x y, fst (pix' x y) = fst (pix x y)) ->
      drawRegion image' srcX srcY = rasterData 2 2 pix' ->
      sampleCellAverage Image drawRegion image' cellX cellY cellWidth cellHeight = avg) /\
   (forall lo hi : Z,
      (forall x y, let '(r, g, b, _) := pix x y in
                   (lo <= r <= hi /\ lo <= g <= hi /\ lo <= b <= hi)%Z) ->
      forall i, (i < 3)%nat ->
        isNumber (channel i avg) /\
        IZR lo / 255 <= val (channel i avg) <= IZR hi / 255) /\
   (forall r g b, (forall x y, fst (pix x y) = (r, g, b)) ->
                  avg = byteColor r g b)) /\
  (drawRegion image srcX srcY = [] -> avg = (Fin 0, Fin 0, Fin 0)).
Proof.
  intros srcX srcY avg; subst srcX srcY avg; split.
  - intros E.
    assert (Ed : forall p : Z -> Z -> Z * Z * Z * Z, rasterData 2 2 p =
              let '(r0, g0, b0, a0) := p 0%Z 0%Z in
              let '(r1, g1, b1, a1) := p 1%Z 0%Z in
              let '(r2, g2, b2, a2) := p 0%Z 1%Z in
              let '(r3, g3, b3, a3) := p 1%Z 1%Z in
              [r0; g0; b0; a0; r1; g1; b1; a1; r2; g2; b2; a2; r3; g3; b3; a3]).
    { intros p; cbv.
      destruct (p 0 0)%Z as [[[? ?] ?] ?], (p 1 0)%Z as [[[? ?] ?] ?],
               (p 0 1)%Z as [[[? ?] ?] ?], (p 1 1)%Z as [[[? ?] ?] ?]; reflexivity. }
    split; [| split].
    + intros pix' image' Hsame E'.
      rewrite Ed in E, E'.
      pose proof (Hsame 0 0)%Z as H00; pose proof (Hsame 1 0)%Z as H10.
      pose proof (Hsame 0 1)%Z as H01; pose proof (Hsame 1 1)%Z as H11.
      destruct (pix 0 0)%Z as [[[? ?] ?] ?], (pix 1 0)%Z as [[[? ?] ?] ?],
               (pix 0 1)%Z as [[[? ?] ?] ?], (pix 1 1)%Z as [[[? ?] ?] ?].
      destruct (pix' 0 0)%Z as [[[? ?] ?] ?], (pix' 1 0)%Z as [[[? ?] ?] ?],
               (pix' 0 1)%Z as [[[? ?] ?] ?], (pix' 1 1)%Z as [[[? ?] ?] ?].
      cbn [fst] in H00, H10, H01, H11.
      injection H00 as -> -> ->; injection H10 as -> -> ->.
      injection H01 as -> -> ->; injection H11 as -> -> ->.
      rewrite (sampleCellAverage_four _ _ _ _ _ _ _ _ _ _ _ _ _ _ _ _ _ _ _ _ _ _ _ E).
      now rewrite (sampleCellAverage_four _ _ _ _ _ _ _ _ _ _ _ _ _ _ _ _ _ _ _ _ _ _ _ E').
    + intros lo hi Hb i Hi.
      rewrite Ed in E.
      pose proof (Hb 0 0)%Z as H00; pose proof (Hb 1 0)%Z as H10.
      pose proof (Hb 0 1)%Z as H01; pose proof (Hb 1 1)%Z as H11.
      destruct (pix 0 0)%Z as [[[r0 g0] b0] ?], (pix 1 0)%Z as [[[r1 g1] b1] ?],
               (pix 0 1)%Z as [[[r2 g2] b2] ?], (pix 1 1)%Z as [[[r3 g3] b3] ?].
      rewrite (sampleCellAverage_four _ _ _ _ _ _ _ _ _ _ _ _ _ _ _ _ _ _ _ _ _ _ _ E).
      assert (B : forall v : Z, (lo <= v <= hi)%Z -> IZR lo <= IZR v <= IZR hi)
        by (intros v [? ?]; split; apply IZR_le; assumption).
      pose proof (B r0 ltac:(tauto)); pose proof (B r1 ltac:(tauto)).
      pose proof (B r2 ltac:(tauto)); pose proof (B r3 ltac:(tauto)).
      pose proof (B g0 ltac:(tauto)); pose proof (B g1 ltac:(tauto)).
      pose proof (B g2 ltac:(tauto)); pose proof (B g3 ltac:(tauto)).
      pose proof (B b0 ltac:(tauto)); pose proof (B b1 ltac:(tauto)).
      pose proof (B b2 ltac:(tauto)); pose proof (B b3 ltac:(tauto)).
      destruct i as [| [| i]]; cbn [channel ch0 ch1 ch2 fst snd val];
        (split; [eexists; reflexivity | lra]).
    + intros r g b Hu.
      rewrite Ed in E.
      pose proof (Hu 0 0)%Z as H00; pose proof (Hu 1 0)%Z as H10.
      pose proof (Hu 0 1)%Z as H01; pose proof (Hu 1 1)%Z as H11.
      destruct (pix 0 0)%Z as [[[? ?] ?] ?], (pix 1 0)%Z as [[[? ?] ?] ?],
               (pix 0 1)%Z as [[[? ?] ?] ?], (pix 1 1)%Z as [[[? ?] ?] ?].
      cbn [fst] in H00, H10, H01, H11.
      injection H00 as -> -> ->; injection H10 as -> -> ->.
      injection H01 as -> -> ->; injection H11 as -> -> ->.
      rewrite (sampleCellAverage_four _ _ _ _ _ _ _ _ _ _ _ _ _ _ _ _ _ _ _ _ _ _ _ E).
      unfold byteColor; f_equal; [f_equal |]; f_equal; lra.
  - intros E; unfold sampleCellAverage; rewrite E; cbn.
    f_equal; [f_equal |]; f_equal; lra.
Qed.

Lemma sampleCellAverage_mean_witness :
  sampleCellAverage unit (fun _ _ _ => rasterData 2 2 (fun _ _ => (255, 242, 2, 255)%Z))
                    tt 3 5 18 18
  = c_yellow.
Proof.
  destruct (sampleCellAverage_mean unit
              (fun _ _ _ => rasterData 2 2 (fun _ _ => (255, 242, 2, 255)%Z))
              tt 3 5 18 18 (fun _ _ => (255, 242, 2, 255)%Z)) as [H _].
  destruct (H eq_refl) as (_ & _ & Hu).
  exact (Hu 255 242 2 (fun _ _ => eq_refl))%Z.
Defined.

(** ** The grid lines *)

Lemma Rround_mono (a b : R) : a <= b -> (Rround a <= Rround b)%Z.
Proof.
  intros H; unfold Rround.
  pose proof (Zfloor_bound (a + / 2)) as Ha.
  apply Zfloor_lub; lra.
Qed.

Lemma Rround_0 : Rround 0 = 0%Z.
Proof. exact (Rround_IZR 0). Qed.

Lemma gridLine_position (size : R) (n k : Z) :
  0 <= size -> (0 < n)%Z -> (0 <= k <= n)%Z ->
  0 <= IZR (Rround (IZR k * (size / IZR n))) <= IZR (Rround size).
Proof.
  intros Hs Hn Hk.
  assert (Hn' : 0 < IZR n) by (apply IZR_lt; lia).
  assert (Hk0 : 0 <= IZR k) by (apply IZR_le; lia).
  assert (Hkn : IZR k <= IZR n) by (apply IZR_le; lia).
  assert (Hq : 0 <= size / IZR n)
    by (apply Rmult_le_pos; [lra | left; apply Rinv_0_lt_compat; lra]).
  assert (Hsz : size / IZR n * IZR n = size) by (field; lra).
  split.
  - rewrite <- Rround_0 at 1; apply IZR_le, Rround_mono; nra.
  - apply IZR_le, Rround_mono; nra.
Qed.

(** The lines of a grid on a canvas of any size >= 0, in the exact
    arithmetic of the model. *)
Lemma gridLines_span_aux (size : R) (cols rows : Z) (a b : R) :
  0 <= size -> (0 < cols)%Z -> (0 < rows)%Z ->
  let lines := gridLines size (size / IZR cols) (size / IZR rows) cols rows in
  (In (MoveTo a b) lines ->
   exists k : Z,
     (0 <= k <= Rround size)%Z /\
     (a = 0 /\ b = IZR k /\ In (LineTo size b) lines \/
      b = 0 /\ a = IZR k /\ In (LineTo a size) lines)) /\
  In (MoveTo 0 0) lines /\
  In (MoveTo 0 (IZR (Rround size))) lines /\
  In (MoveTo (IZR (Rround size)) 0) lines.
Proof.
  intros Hs Hc Hr lines; subst lines; unfold gridLines.
  assert (Hlast : forall n : Z, (0 < n)%Z -> IZR n * (size / IZR n) = size).
  { intros n Hn; assert (0 < IZR n) by (apply IZR_lt; lia); field; lra. }
  split; [| split; [| split]].
  - intros Hin.
    apply in_app_or in Hin; destruct Hin as [Hin | Hin];
      [cbn in Hin; destruct Hin as [Hin | [Hin | []]]; discriminate |].
    apply in_app_or in Hin; destruct Hin as [Hin | Hin];
      apply in_flat_map in Hin; destruct Hin as (k & Hk & Hin);
      apply in_range in Hk;
      cbn in Hin; destruct Hin as [Hin | [Hin | [Hin | [Hin | []]]]];
      try discriminate; injection Hin as <- <-.
    + exists (Rround (IZR k * (size / IZR rows))).
      pose proof (gridLine_position size rows k Hs Hr ltac:(lia)) as [B0 B1].
      apply le_IZR in B0; apply le_IZR in B1.
      split; [lia |]; left; split; [reflexivity | split; [reflexivity |]].
      apply in_or_app; right; apply in_or_app; left.
      apply in_flat_map; exists k; split; [apply in_range; lia |].
      cbn; tauto.
    + exists (Rround (IZR k * (size / IZR cols))).
      pose proof (gridLine_position size cols k Hs Hc ltac:(lia)) as [B0 B1].
      apply le_IZR in B0; apply le_IZR in B1.
      split; [lia |]; right; split; [reflexivity | split; [reflexivity |]].
      apply in_or_app; right; apply in_or_app; right.
      apply in_flat_map; exists k; split; [apply in_range; lia |].
      cbn; tauto.
  - apply in_or_app; right; apply in_or_app; left.
    apply in_flat_map; exists 0%Z; split; [apply in_range; lia |].
    rewrite Rmult_0_l, Rround_0; cbn; tauto.
  - apply in_or_app; right; apply in_or_app; left.
    apply in_flat_map; exists rows; split; [apply in_range; lia |].
    rewrite (Hlast rows Hr); cbn; tauto.
  - apply in_or_app; right; apply in_or_app; right.
    apply in_flat_map; exists cols; split; [apply in_range; lia |].
    rewrite (Hlast cols Hc); cbn; tauto.
Qed.

(** X29.  The grid lines span the canvas at whole pixels.  On a canvas whose
    size is an integer n >= 0, as the canvas element has it, with a grid
    that is not empty, every line starts on the left or the top border, at
    an integer between 0 and n, and runs straight to the opposite border;
    the first line of each direction is at 0, the last at n. *)
Theorem gridLines_span_canvas (n cols rows : Z) (a b : R) :
  (0 <= n)%Z -> (0 < cols)%Z -> (0 < rows)%Z ->
  let size := IZR n in
  let lines := gridLines size (size / IZR cols) (size / IZR rows) cols rows in
  (In (MoveTo a b) lines ->
   exists k : Z,
     (0 <= k <= n)%Z /\
     (a = 0 /\ b = IZR k /\ In (LineTo size b) lines \/
      b = 0 /\ a = IZR k /\ In (LineTo a size) lines)) /\
  In (MoveTo 0 0) lines /\
  In (MoveTo 0 size) lines /\
  In (MoveTo size 0) lines.
Proof.
  intros Hn Hc Hr size lines; subst size lines.
  assert (Hs : 0 <= IZR n) by (apply IZR_le; exact Hn).
  pose proof (gridLines_span_aux (IZR n) cols rows a b Hs Hc Hr) as H.
  cbv zeta in H; rewrite (Rround_IZR n) in H; exact H.
Qed.

Lemma gridLines_span_canvas_witness :
  In (MoveTo 0 (IZR 90)) (gridLines (IZR 90) (IZR 90 / IZR 5) (IZR 90 / IZR 5) 5 5).
Proof.
  destruct (gridLines_span_canvas 90 5 5 0 0) as (_ & _ & H & _);
    [lia | lia | lia | exact H].
Defined.
